(** * Telegram / Google Drive relay bot: the download pipeline

    A shallow embedding of the utility modules of the bot
    ([utils/url-parser.js], [utils/file-handler.js], the downloader
    [utils/googleDrive.js], the retry helper of the error middleware and the
    constants of [config/index.js]) and the properties of the design
    document checked against them.

    Conventions.
    - A JavaScript string is a [string]: a sequence of code units below 256.
      The regular expressions and the string tests of the sources only
      compare against ASCII characters.
    - [null] / [undefined] results are [None].
    - A [throw] is the [Throw] branch of a result type; the thrown [Error]
      is identified by the [throw] site that built it.
    - Promises are awaited one after the other, so asynchronous code is
      written in state-passing style over the world it acts on. *)

From Stdlib Require Import ZArith Lia Bool List Ascii String DecimalString.
From stdpp Require Import gmap strings.

Import ListNotations.
Local Open Scope bool_scope.
Local Open Scope Z_scope.

(* ===================================================================== *)
(** * Strings *)
(* ===================================================================== *)

Module Str.

(** [s.startsWith(p)], returning what follows the prefix. *)
Fixpoint strip_prefix (p s : string) : option string :=
  match p with
  | EmptyString => Some s
  | String a p' =>
      match s with
      | EmptyString => None
      | String b s' => if Ascii.eqb a b then strip_prefix p' s' else None
      end
  end.

Definition startsWith (s p : string) : bool :=
  match strip_prefix p s with Some _ => true | None => false end.

(** [s.includes(p)] *)
Fixpoint includes (s p : string) : bool :=
  startsWith s p ||
  match s with
  | EmptyString => false
  | String _ s' => includes s' p
  end.

(** [s.endsWith(p)] *)
Fixpoint endsWith (s p : string) : bool :=
  String.eqb s p ||
  match s with
  | EmptyString => false
  | String _ s' => endsWith s' p
  end.

Definition in_range (lo hi c : ascii) : bool :=
  (N_of_ascii lo <=? N_of_ascii c)%N && (N_of_ascii c <=? N_of_ascii hi)%N.

(** [toLowerCase] on the code units A-Z. *)
Definition lower_char (c : ascii) : ascii :=
  if in_range "A" "Z" c then ascii_of_N (N_of_ascii c + 32) else c.

Fixpoint toLowerCase (s : string) : string :=
  match s with
  | EmptyString => EmptyString
  | String c s' => String (lower_char c) (toLowerCase s')
  end.

(** [s.substring(n)] *)
Fixpoint drop (n : nat) (s : string) : string :=
  match n, s with
  | O, _ => s
  | S n', String _ s' => drop n' s'
  | S _, EmptyString => EmptyString
  end.

Fixpoint take (n : nat) (s : string) : string :=
  match n, s with
  | S n', String c s' => String c (take n' s')
  | _, _ => EmptyString
  end.

Fixpoint all (p : ascii -> bool) (s : string) : bool :=
  match s with
  | EmptyString => true
  | String c s' => p c && all p s'
  end.

(** The offsets at which [w] occurs in [s], counted from [pos]. *)
Fixpoint occurrences (w s : string) (pos : nat) : list nat :=
  (if startsWith s w then [pos] else [])
  ++ match s with
     | EmptyString => []
     | String _ s' => occurrences w s' (S pos)
     end.

(** JavaScript truthiness of a string: the empty string is falsy. *)
Definition truthy (s : string) : bool :=
  match s with EmptyString => false | _ => true end.

End Str.

(* ===================================================================== *)
(** * Regular expressions

    The fragment of the JavaScript regular-expression syntax that the
    sources use, with the backtracking semantics of [RegExp.prototype.exec]:
    alternatives are tried left to right, quantifiers are greedy, the search
    takes the leftmost start position. Quantifiers over a character set are
    one node, [Rep]; every pattern of the sources has exactly one capturing
    group. *)
(* ===================================================================== *)

Module Regex.

Inductive regex : Type :=
| Lit (l : string)                (* literal characters, escapes resolved *)
| Seq (r1 r2 : regex)            (* r1 r2 *)
| Alt (r1 r2 : regex)            (* r1|r2 *)
| Opt (r : regex)                (* (?:r)? *)
| Rep (p : ascii -> bool) (lo : nat) (hi : option nat)
                                 (* [set]{lo,hi}; + is {1,}, * is {0,} *)
| Group (r : regex)              (* ( r ) *)
| Bol                            (* ^ *)
| Eol.                           (* $ *)

(** State of a match in progress: offset of the next character from the
    start of the input, text of capture 1, rest of the input. *)
Definition cont (R : Type) : Type := nat -> option string -> string -> option R.

Definition room (hi : option nat) : bool :=
  match hi with Some O => false | _ => true end.

(** Greedy bounded repetition of a character set: take a character when
    allowed, fall back to stopping here when the rest fails. *)
Fixpoint rep {R} (p : ascii -> bool) (lo : nat) (hi : option nat)
    (k : cont R) (pos : nat) (cap : option string) (s : string) {struct s}
    : option R :=
  let stop := match lo with O => k pos cap s | S _ => None end in
  match s with
  | String c s' =>
      if p c && room hi then
        match rep p (Nat.pred lo) (option_map Nat.pred hi) k (S pos) cap s' with
        | Some x => Some x
        | None => stop
        end
      else stop
  | EmptyString => stop
  end.

Fixpoint run {R} (r : regex) (k : cont R) (pos : nat) (cap : option string)
    (s : string) {struct r} : option R :=
  match r with
  | Lit l =>
      match Str.strip_prefix l s with
      | Some s' => k (pos + String.length l)%nat cap s'
      | None => None
      end
  | Seq r1 r2 => run r1 (run r2 k) pos cap s
  | Alt r1 r2 =>
      match run r1 k pos cap s with
      | Some x => Some x
      | None => run r2 k pos cap s
      end
  | Opt r1 =>
      match run r1 k pos cap s with
      | Some x => Some x
      | None => k pos cap s
      end
  | Rep p lo hi => rep p lo hi k pos cap s
  | Group r1 =>
      run r1 (fun pos' _ s' => k pos' (Some (Str.take (pos' - pos) s)) s')
        pos cap s
  | Bol => if (pos =? 0)%nat then k pos cap s else None
  | Eol => match s with EmptyString => k pos cap s | _ => None end
  end.

(** What [exec] reports: [index], length of [match[0]], and [match[1]]. *)
Record Match : Type := { m_index : nat; m_length : nat; m_1 : option string }.

Definition accept (start : nat) : cont Match :=
  fun pos cap _ => Some {| m_index := start; m_length := pos - start; m_1 := cap |}.

(** Leftmost match at or after offset [pos]. *)
Fixpoint search (r : regex) (pos : nat) (s : string) : option Match :=
  match run r (accept pos) pos None s with
  | Some m => Some m
  | None =>
      match s with
      | EmptyString => None
      | String _ s' => search r (S pos) s'
      end
  end.

(** [s.match(r)] for a pattern without the g flag. *)
Definition exec (r : regex) (s : string) : option Match := search r 0 s.

(** [r.test(s)] *)
Definition test (r : regex) (s : string) : bool :=
  match exec r s with Some _ => true | None => false end.

(** The idiom [match && match[1]] followed by [return match[1]]. *)
Definition group1 (m : option Match) : option string :=
  match m with
  | Some {| m_1 := Some g |} => if Str.truthy g then Some g else None
  | _ => None
  end.

(** ** Character sets *)

(** [[a-zA-Z0-9_-]] *)
Definition word_dash (c : ascii) : bool :=
  Str.in_range "a" "z" c || Str.in_range "A" "Z" c || Str.in_range "0" "9" c
  || Ascii.eqb c "_" || Ascii.eqb c "-".

(** [.]: anything but a line terminator *)
Definition dot (c : ascii) : bool :=
  negb (Ascii.eqb c "010" || Ascii.eqb c "013").

(** [[&?]] *)
Definition amp_or_qmark (c : ascii) : bool :=
  Ascii.eqb c "&" || Ascii.eqb c "?".

(** The double-quote character, code unit 34. *)
Definition dquote : ascii := "034".

(** The negated set excluding only the double quote. *)
Definition not_dquote (c : ascii) : bool := negb (Ascii.eqb c dquote).

(** [\s] on code units below 256 *)
Definition space (c : ascii) : bool :=
  Str.in_range "009" "013" c || Ascii.eqb c " " || Ascii.eqb c "160".

Definition plus (p : ascii -> bool) : regex := Rep p 1 None.
Definition star (p : ascii -> bool) : regex := Rep p 0 None.

Fixpoint seq (rs : list regex) : regex :=
  match rs with
  | [] => Lit ""
  | [r] => r
  | r :: rs' => Seq r (seq rs')
  end.

(** Every match of [r] contains the character [d]. *)
Fixpoint needs (d : ascii) (r : regex) : bool :=
  match r with
  | Lit l => negb (Str.all (fun c => negb (Ascii.eqb c d)) l)
  | Seq r1 r2 => needs d r1 || needs d r2
  | Alt r1 r2 => needs d r1 && needs d r2
  | Group r1 => needs d r1
  | Opt _ | Rep _ _ _ | Bol | Eol => false
  end.

(** [s] does not contain [d]. *)
Definition free (d : ascii) (s : string) : bool :=
  Str.all (fun c => negb (Ascii.eqb c d)) s.

(** A continuation that fails on every input without [d]. *)
Definition dead {R} (d : ascii) (k : cont R) : Prop :=
  forall pos cap s, free d s = true -> k pos cap s = None.

(** A continuation that fails on every input of the set [Q]. *)
Definition doomed {R} (Q : string -> Prop) (k : cont R) : Prop :=
  forall pos cap s, Q s -> k pos cap s = None.

(** [s] is what is left of [t] after some characters. *)
Definition suffix_of (t s : string) : Prop := exists i, s = Str.drop i t.

(** A greedy repetition of the set [p] ends before [s]. *)
Definition stops (p : ascii -> bool) (s : string) : bool :=
  match s with String c _ => negb (p c) | EmptyString => true end.

(** [{lo,hi}] as a condition on a number of repetitions. *)
Definition within (lo : nat) (hi : option nat) (n : nat) : bool :=
  (lo <=? n)%nat && match hi with Some h => (n <=? h)%nat | None => true end.

End Regex.

(* ===================================================================== *)
(** * Thrown errors and results *)
(* ===================================================================== *)

(** The [Error] values of the sources, one constructor per [throw] site:
    the constructor stands for the message built there. *)
Inductive Error : Type :=
| InvalidFileIdProvided
    (* new Error('Invalid file ID provided') *)
| FileSizeExceedsLimit (contentLength : Z)
    (* new Error(`File size (${Math.round(contentLength / 1024 / 1024)}MB)
       exceeds the limit of ${config.MAX_FILE_SIZE_MB}MB`) *)
| StreamExceedsLimit
    (* new Error(`File size exceeds the limit of ${config.MAX_FILE_SIZE_MB}MB`) *)
| NoConfirmationToken
    (* new Error('Could not extract confirmation token from virus scan page') *)
| VirusScanFailure (cause : Error)
    (* new Error(`Failed to handle virus scan page: ${error.message}`) *)
| AllRetriesFailed
    (* new Error('Download failed after all retry attempts') *)
| Transport (message : string).
    (* an error raised by the HTTP client, the response stream or the
       file system, with its message *)

Inductive result (A : Type) : Type :=
| Return (a : A)
| Throw (e : Error).
Arguments Return {A} a.
Arguments Throw {A} e.

(* ===================================================================== *)
(** * utils/url-parser.js *)
(* ===================================================================== *)

Module UrlParser.
Import Regex.

(** The optional scheme and [www.] every link pattern starts with:
    [(?:https?:\/\/)?(?:www\.)?] *)
Definition scheme_www : list regex :=
  [ Opt (seq [Lit "http"; Opt (Lit "s"); Lit "://"]); Opt (Lit "www.") ].

Definition file_id : regex := Group (plus word_dash).

Definition standardView : regex :=
  seq (scheme_www ++ [Lit "drive.google.com/file/d/"; file_id; Opt (Lit "/view")]).

Definition openFormat : regex :=
  seq (scheme_www ++ [Lit "drive.google.com/open?id="; file_id]).

Definition docsFormat : regex :=
  seq (scheme_www ++
       [Lit "docs.google.com/";
        Alt (Lit "document") (Alt (Lit "spreadsheets") (Lit "presentation"));
        Lit "/d/"; file_id]).

Definition directDownload : regex :=
  seq (scheme_www ++
       [Lit "drive.google.com/uc?"; star dot; Rep amp_or_qmark 1 (Some 1%nat);
        Lit "id="; file_id]).

Definition editFormat : regex :=
  seq (scheme_www ++ [Lit "drive.google.com/file/d/"; file_id; Lit "/edit"]).

(** [Object.entries(GOOGLE_DRIVE_PATTERNS)], in insertion order. *)
Definition GOOGLE_DRIVE_PATTERNS : list (string * regex) :=
  [ ("standardView", standardView);
    ("openFormat", openFormat);
    ("docsFormat", docsFormat);
    ("directDownload", directDownload);
    ("editFormat", editFormat) ].

Definition isValidGoogleDriveUrl (url : string) : bool :=
  if negb (Str.truthy url) then false
  else existsb (fun fp => test (snd fp) url) GOOGLE_DRIVE_PATTERNS.

(** The [for ... of] loop of [parseGoogleDriveUrl] and
    [extractConfirmationToken]: first pattern with a non-empty capture. *)
Fixpoint first_capture (patterns : list regex) (s : string) : option string :=
  match patterns with
  | [] => None
  | pattern :: rest =>
      match group1 (exec pattern s) with
      | Some g => Some g
      | None => first_capture rest s
      end
  end.

Definition parseGoogleDriveUrl (url : string) : option string :=
  if negb (Str.truthy url) then None
  else first_capture (map snd GOOGLE_DRIVE_PATTERNS) url.

(** [/^[a-zA-Z0-9_-]{25,50}$/] *)
Definition fileIdPattern : regex :=
  seq [Bol; Rep word_dash 25 (Some 50%nat); Eol].

Definition isValidFileId (fileId : string) : bool :=
  if negb (Str.truthy fileId) then false
  else test fileIdPattern fileId.

Definition generateDownloadUrl (fileId : string) : result string :=
  if negb (isValidFileId fileId) then Throw InvalidFileIdProvided
  else Return ("https://drive.google.com/uc?export=download&id=" +:+ fileId).

Definition generateConfirmationUrl (fileId confirmToken : string) : result string :=
  if negb (isValidFileId fileId) then Throw InvalidFileIdProvided
  else Return ("https://drive.google.com/uc?export=download&confirm="
               +:+ confirmToken +:+ "&id=" +:+ fileId).

Fixpoint first_format (patterns : list (string * regex)) (url : string)
    : option string :=
  match patterns with
  | [] => None
  | (formatName, pattern) :: rest =>
      if test pattern url then Some formatName else first_format rest url
  end.

Definition getUrlFormat (url : string) : option string :=
  if negb (Str.truthy url) then None
  else first_format GOOGLE_DRIVE_PATTERNS url.

Definition normalizeGoogleDriveUrl (url : string) : option string :=
  match parseGoogleDriveUrl url with
  | None => None
  | Some fileId =>
      Some ("https://drive.google.com/file/d/" +:+ fileId +:+ "/view?usp=sharing")
  end.

Record UrlInfo : Type := {
  originalUrl : string;
  fileId : string;
  format : option string;
  downloadUrl : string;
  sharingUrl : option string;
  isValidFileId_ : bool
}.

(** The object literal is evaluated field by field, so a throw of
    [generateDownloadUrl] leaves the function before [sharingUrl] and
    [isValidFileId] are computed. *)
Definition analyzeGoogleDriveUrl (url : string) : result (option UrlInfo) :=
  if negb (isValidGoogleDriveUrl url) then Return None
  else
    let fileId := parseGoogleDriveUrl url in
    let format := getUrlFormat url in
    match fileId with
    | None => Return None
    | Some fileId =>
        match generateDownloadUrl fileId with
        | Throw e => Throw e
        | Return downloadUrl =>
            Return (Some {| originalUrl := url;
                            fileId := fileId;
                            format := format;
                            downloadUrl := downloadUrl;
                            sharingUrl := normalizeGoogleDriveUrl url;
                            isValidFileId_ := isValidFileId fileId |})
        end
    end.

Definition q : string := String dquote EmptyString.

(** The four token patterns, in the order of the array: [confirm=(set+)],
    the hidden form field, [&confirm=(set+)] and the JSON field, each
    starting with a fixed text, its head. *)
Definition queryHead : string := "confirm=".
Definition fieldHead : string := "name=" +:+ q +:+ "confirm" +:+ q.
Definition jsonHead : string := q +:+ "confirm" +:+ q +:+ ":" +:+ q.

Definition paramPattern : regex := seq [Lit queryHead; Group (plus word_dash)].

Definition fieldPattern : regex :=
  seq [Lit fieldHead; plus space; Lit ("value=" +:+ q); Group (plus not_dquote);
       Lit q].

Definition ampPattern : regex :=
  seq [Lit ("&" +:+ queryHead); Group (plus word_dash)].

Definition jsonPattern : regex :=
  seq [Lit jsonHead; Group (plus not_dquote); Lit q].

Definition tokenPatterns : list regex :=
  [paramPattern; fieldPattern; ampPattern; jsonPattern].

Definition extractConfirmationToken (htmlContent : string) : option string :=
  if negb (Str.truthy htmlContent) then None
  else first_capture tokenPatterns htmlContent.

End UrlParser.

(* ===================================================================== *)
(** * The shapes of links *)
(* ===================================================================== *)

Module Links.
Import Regex UrlParser.

(** The supported shapes, written for an identifier: the sharing link, the
    open link, a document of the editors, the two orders of the parameters
    of a direct download, and the edit link. *)
Definition viewLink (id : string) : string :=
  "https://drive.google.com/file/d/" +:+ id +:+ "/view".
Definition openLink (id : string) : string :=
  "https://drive.google.com/open?id=" +:+ id.
Definition docsLink (id : string) : string :=
  "https://docs.google.com/document/d/" +:+ id +:+ "/edit".
Definition downloadLink (id : string) : string :=
  "https://drive.google.com/uc?export=download&id=" +:+ id.
Definition editLink (id : string) : string :=
  "https://drive.google.com/file/d/" +:+ id +:+ "/edit".

(** The direct download with the identifier first, as in the comment on
    [directDownload]. *)
Definition ucIdFirst (id : string) : string :=
  "https://drive.google.com/uc?id=" +:+ id +:+ "&export=download".

(** What [directDownload] must still match after [.*]. *)
Definition idTail : regex :=
  Seq (Rep amp_or_qmark 1 (Some 1%nat)) (Seq (Lit "id=") file_id).

End Links.

(* ===================================================================== *)
(** * Pages that carry a confirmation token *)
(* ===================================================================== *)

Module TokenPage.
Import Regex UrlParser.

(** The four ways a page writes a token down. *)
Inductive Style : Type := QueryParam | HiddenField | AmpParam | JsonField.

(** The text that carries [token] in the given style. *)
Definition embed (st : Style) (token : string) : string :=
  match st with
  | QueryParam => queryHead +:+ token
  | HiddenField => fieldHead +:+ " " +:+ ("value=" +:+ q) +:+ token +:+ q
  | AmpParam => "&" +:+ queryHead +:+ token
  | JsonField => jsonHead +:+ token +:+ q
  end.

(** The characters a token may be made of for the pattern of the style to
    capture it whole: the set [a-zA-Z0-9_-] of the two [confirm=] patterns,
    anything but a double quote between the quotes of the other two. *)
Definition admits (st : Style) : ascii -> bool :=
  match st with
  | QueryParam | AmpParam => word_dash
  | HiddenField | JsonField => not_dquote
  end.

(** In the two styles without a closing quote the token ends where the
    characters of the set end. *)
Definition delimited (st : Style) (post : string) : bool :=
  match st, post with
  | (QueryParam | AmpParam), String c _ => negb (word_dash c)
  | _, _ => true
  end.

(** [body], which is [pre] followed by a token in style [st], has no other
    place where one of the patterns could start: the heads occur where the
    embedding puts them and nowhere else. *)
Definition sole_embedding (st : Style) (pre body : string) : Prop :=
  Str.occurrences queryHead body 0 =
    match st with
    | QueryParam => [String.length pre]
    | AmpParam => [S (String.length pre)]
    | _ => []
    end /\
  Str.occurrences fieldHead body 0 =
    match st with HiddenField => [String.length pre] | _ => [] end /\
  Str.occurrences jsonHead body 0 =
    match st with JsonField => [String.length pre] | _ => [] end.

End TokenPage.

(* ===================================================================== *)
(** * config/index.js *)
(* ===================================================================== *)

Module Config.

(** The values read from the environment; the size limit is an integral
    number of megabytes, as the default 50 is. *)
Record Config : Type := {
  MAX_FILE_SIZE_MB : Z;
  DOWNLOAD_TIMEOUT_MS : Z;
  TEMP_DIR : string
}.

Definition MAX_FILE_SIZE_BYTES (config : Config) : Z :=
  MAX_FILE_SIZE_MB config * 1024 * 1024.

(** The checks of [validate()] on the numeric settings, run when the module
    is loaded. *)
Definition validate (config : Config) : bool :=
  negb ((MAX_FILE_SIZE_MB config <=? 0) || (MAX_FILE_SIZE_MB config >? 2000))
  && negb (DOWNLOAD_TIMEOUT_MS config <=? 0).

Definition defaults : Config :=
  {| MAX_FILE_SIZE_MB := 50; DOWNLOAD_TIMEOUT_MS := 30000; TEMP_DIR := "./temp" |}.

Definition SUPPORTED_VIDEO_TYPES : list string :=
  [ "video/mp4"; "video/mpeg"; "video/quicktime"; "video/x-msvideo";
    "video/x-ms-wmv"; "video/x-matroska"; "video/webm" ].

Definition SUPPORTED_IMAGE_TYPES : list string :=
  [ "image/jpeg"; "image/png"; "image/gif"; "image/webp"; "image/bmp";
    "image/tiff" ].

End Config.

(* ===================================================================== *)
(** * utils/file-handler.js *)
(* ===================================================================== *)

Module FileHandler.

(** What [fileTypeFromFile] and [fileTypeFromBuffer] resolve to. *)
Record Detected : Type := { d_ext : string; d_mime : string }.

Record FileType : Type := {
  ext : string;
  mime : string;
  method : string;
  confidence : string;
  error : option Error
}.

(** [Array.prototype.includes] on strings *)
Definition includes (l : list string) (x : string) : bool :=
  existsb (String.eqb x) l.

Section GetFileType.
(** The library calls of [getFileType]: the [file-type] package, [path],
    [mime] and [fs-extra]. Each promise may reject. *)
Variable Buffer : Type.
Variable fileTypeFromFile : string -> result (option Detected).
Variable path_extname : string -> string.
Variable mime_getType : string -> option string.
Variable fs_readFile : string -> Z -> Z -> result Buffer.
Variable fileTypeFromBuffer : Buffer -> result (option Detected).

Definition errorFallback (e : Error) : FileType :=
  {| ext := "bin"; mime := "application/octet-stream";
     method := "error-fallback"; confidence := "low"; error := Some e |}.

Definition getFileType (filePath : string) : FileType :=
  match fileTypeFromFile filePath with
  | Throw e => errorFallback e
  | Return (Some detectedType) =>
      {| ext := d_ext detectedType; mime := d_mime detectedType;
         method := "magic-numbers"; confidence := "high"; error := None |}
  | Return None =>
      let extension := Str.toLowerCase (path_extname filePath) in
      let byExtension :=
        if Str.truthy extension then
          match mime_getType extension with
          | Some mimeType =>
              if Str.truthy mimeType then
                Some {| ext := Str.drop 1 extension; mime := mimeType;
                        method := "extension"; confidence := "medium";
                        error := None |}
              else None
          | None => None
          end
        else None in
      match byExtension with
      | Some r => r
      | None =>
          match fs_readFile filePath 0 4100 with
          | Throw e => errorFallback e
          | Return buffer =>
              match fileTypeFromBuffer buffer with
              | Throw e => errorFallback e
              | Return (Some bufferType) =>
                  {| ext := d_ext bufferType; mime := d_mime bufferType;
                     method := "buffer-analysis"; confidence := "high";
                     error := None |}
              | Return None =>
                  {| ext := "bin"; mime := "application/octet-stream";
                     method := "default"; confidence := "low";
                     error := None |}
              end
          end
      end
  end.
(** The tiers after the first, each on its own. The second: the MIME type
    the lower-cased extension maps to. *)
Definition extensionMime (filePath : string) : option string :=
  let extension := Str.toLowerCase (path_extname filePath) in
  if Str.truthy extension then
    match mime_getType extension with
    | Some m => if Str.truthy m then Some m else None
    | None => None
    end
  else None.

(** The third tier: what sniffing bytes 0 to 4100 of the file finds. *)
Definition bufferType (filePath : string) : result (option Detected) :=
  match fs_readFile filePath 0 4100 with
  | Throw e => Throw e
  | Return buffer => fileTypeFromBuffer buffer
  end.

End GetFileType.

Record SendOptions : Type := {
  supports_streaming : option bool;
  parse_mode : string
}.

Record SendMethod : Type := {
  send_method : string;
  reason : string;
  options : SendOptions
}.

Definition markdown : SendOptions :=
  {| supports_streaming := None; parse_mode := "Markdown" |}.

(** [fileType] may be null or undefined, [fileName] defaults to the empty
    string. *)
Definition determineSendMethod (fileType : option FileType) (fileName : string)
    : SendMethod :=
  let mimeType :=
    match fileType with
    | Some ft => if Str.truthy (mime ft) then mime ft
                 else "application/octet-stream"
    | None => "application/octet-stream"
    end in
  if includes Config.SUPPORTED_VIDEO_TYPES mimeType then
    {| send_method := "sendVideo"; reason := "Video file detected";
       options := {| supports_streaming := Some true; parse_mode := "Markdown" |} |}
  else if includes Config.SUPPORTED_IMAGE_TYPES mimeType then
    {| send_method := "sendPhoto"; reason := "Image file detected";
       options := markdown |}
  else if Str.startsWith mimeType "audio/" then
    {| send_method := "sendAudio"; reason := "Audio file detected";
       options := markdown |}
  else if String.eqb mimeType "image/gif"
          || Str.endsWith (Str.toLowerCase fileName) ".gif" then
    {| send_method := "sendAnimation"; reason := "Animation/GIF file detected";
       options := markdown |}
  else
    {| send_method := "sendDocument"; reason := "Document or unknown file type";
       options := markdown |}.

Definition validateFileSize (fileSizeBytes maxSizeMB : Z) : bool :=
  fileSizeBytes <=? maxSizeMB * 1024 * 1024.

(** The MIME type [determineSendMethod] decides on:
    [fileType?.mime || 'application/octet-stream']. *)
Definition mimeOf (fileType : option FileType) : string :=
  match fileType with
  | Some ft => if Str.truthy (mime ft) then mime ft
               else "application/octet-stream"
  | None => "application/octet-stream"
  end.

End FileHandler.

(* ===================================================================== *)
(** * middleware/errorHandler.js: [retryOperation] *)
(* ===================================================================== *)

Module ErrorHandler.

(** What a run of the wrapper does, in order: a call of the operation, or
    a [setTimeout] of so many milliseconds that is awaited. *)
Inductive Event : Type :=
| Invoke
| Wait (ms : Z).

Section RetryOperation.
(** [S]: whatever the operation reads and changes; [A]: what it resolves
    to; [E]: what it rejects with. *)
Context {S A E : Type}.

Record Options : Type := {
  maxRetries : option Z;
  baseDelay : option Z;
  maxDelay : option Z;
  retryCondition : option (E -> bool)
}.

Definition noOptions : Options :=
  {| maxRetries := None; baseDelay := None; maxDelay := None;
     retryCondition := None |}.

(** Destructuring defaults apply to absent fields. *)
Definition the_maxRetries (o : Options) : Z := default 3 (maxRetries o).
Definition the_baseDelay (o : Options) : Z := default 1000 (baseDelay o).
Definition the_maxDelay (o : Options) : Z := default 10000 (maxDelay o).
Definition the_retryCondition (o : Options) : E -> bool :=
  default (fun _ => true) (retryCondition o).

Record World : Type := { state : S; events : list Event }.

Definition note (ev : Event) (w : World) : World :=
  {| state := state w; events := events w ++ [ev] |}.

(** [await operation()] *)
Definition call (operation : S -> (A + E) * S) (w : World) : (A + E) * World :=
  let '(r, s') := operation (state w) in
  (r, {| state := s'; events := events w ++ [Invoke] |}).

(** The [for] loop, [n] iterations left. A rejection carries what was
    thrown; [None] is [undefined], the initial [lastError]. *)
Fixpoint retry_loop (operation : S -> (A + E) * S) (o : Options)
    (n : nat) (attempt : Z) (lastError : option E) (w : World)
    : (A + option E) * World :=
  match n with
  | O => (inr lastError, w)
  | Datatypes.S n' =>
      match call operation w with
      | (inl a, w1) => (inl a, w1)
      | (inr error, w1) =>
          if negb (the_retryCondition o error) || (attempt =? the_maxRetries o)
          then (inr (Some error), w1)
          else
            let delay :=
              Z.min (the_baseDelay o * 2 ^ (attempt - 1)) (the_maxDelay o) in
            retry_loop operation o n' (attempt + 1) (Some error)
              (note (Wait delay) w1)
      end
  end.

Definition retryOperation (operation : S -> (A + E) * S) (o : Options)
    (w : World) : (A + option E) * World :=
  retry_loop operation o (Z.to_nat (the_maxRetries o)) 1 None w.

Definition invocations (w : World) : nat :=
  List.length (List.filter (fun ev => match ev with Invoke => true | _ => false end)
                 (events w)).

(** The state the operation finds at its call number [k], counted from 0,
    when only the operation changes it. *)
Fixpoint after (operation : S -> (A + E) * S) (k : nat) (s : S) : S :=
  match k with
  | O => s
  | Datatypes.S k' => after operation k' (snd (operation s))
  end.

End RetryOperation.
Arguments Options : clear implicits.
Arguments World : clear implicits.

End ErrorHandler.

(* ===================================================================== *)
(** * utils/googleDrive.js *)
(* ===================================================================== *)

Module GoogleDrive.
Import Config.

(** ** [parseInt(string)] without a radix

    Leading white space, an optional sign, an optional [0x] prefix, then
    the longest run of digits; [None] is [NaN]. The value is kept exact:
    it is only compared with the size limit. *)

Definition digit_value (c : ascii) : option Z :=
  if Str.in_range "0" "9" c then Some (Z.of_N (N_of_ascii c) - 48)
  else if Str.in_range "a" "f" c then Some (Z.of_N (N_of_ascii c) - 87)
  else if Str.in_range "A" "F" c then Some (Z.of_N (N_of_ascii c) - 55)
  else None.

Fixpoint digits (radix : Z) (acc : option Z) (s : string) : option Z :=
  match s with
  | EmptyString => acc
  | String c s' =>
      match digit_value c with
      | Some d =>
          if d <? radix then digits radix (Some (default 0 acc * radix + d)) s'
          else acc
      | None => acc
      end
  end.

Fixpoint skip_space (s : string) : string :=
  match s with
  | String c s' => if Regex.space c then skip_space s' else s
  | EmptyString => s
  end.

Definition parseInt (s : string) : option Z :=
  let s := skip_space s in
  let '(sign, s) :=
    match s with
    | String "-" s' => (-1, s')
    | String "+" s' => (1, s')
    | _ => (1, s)
    end in
  let '(radix, s) :=
    match s with
    | String "0" (String "x" s') => (16, s')
    | String "0" (String "X" s') => (16, s')
    | _ => (10, s)
    end in
  option_map (Z.mul sign) (digits radix None s).

(** ** Responses and the world *)

(** The body of a response as the stream delivers it: the [data] chunks,
    then [end] or [error]. An [error] event of the write stream is handled
    by [streamToFile] as one of the source stream is, and has no ending of
    its own here. *)
Inductive Ending : Type :=
| Ended
| Errored (e : Error).

Record Stream : Type := { chunks : list string; ending : Ending }.

(** The number of bytes a stream delivers. *)
Fixpoint total (chunks : list string) : Z :=
  match chunks with
  | [] => 0
  | chunk :: rest => Z.of_nat (String.length chunk) + total rest
  end.

Record Response : Type := {
  content_type : option string;
  content_length : option string;
  content_disposition : option string;
  data : Stream
}.

(** What the downloader acts on: the requests issued so far, the timers
    awaited so far, and the files of the temporary directory. *)
Record World : Type := {
  requests : list string;
  timers : list Z;
  files : gmap string string
}.

Definition initial : World :=
  {| requests := []; timers := []; files := ∅ |}.

Definition set_files (f : gmap string string) (w : World) : World :=
  {| requests := requests w; timers := timers w; files := f |}.

Definition setTimeout (ms : Z) (w : World) : World :=
  {| requests := requests w; timers := timers w ++ [ms]; files := files w |}.

Record Options : Type := { maxRetries : option Z }.

Record Download : Type := {
  filePath : string;
  fileName : string;
  fileSize : Z;
  contentType : string
}.

(** The object [downloadGoogleDriveFile] resolves to. *)
Inductive DownloadResult : Type :=
| Success (d : Download)          (* { success: true, ... } *)
| Failure (error : Error).        (* { success: false, error: error.message } *)

(** [x || y] on an optional string *)
Definition or_else (x : option string) (y : string) : string :=
  match x with
  | Some v => if Str.truthy v then v else y
  | None => y
  end.

Section Downloader.
Variable config : Config.

(** The servers: what the [n]-th request of a run, to [url], resolves to
    or rejects with (time-out, refused connection, status outside 2xx). *)
Variable network : nat -> string -> result Response.

(** [extractFileName] reads the Content-Disposition header and
    [generateUniqueFilePath] picks a free path in the temporary
    directory; what they compute does not matter below. *)
Variable extractFileName : Response -> option string.
Variable generateUniqueFilePath : string -> gmap string string -> result string.

Definition axios (url : string) (w : World) : result Response * World :=
  (network (List.length (requests w)) url,
   {| requests := requests w ++ [url]; timers := timers w; files := files w |}).

(** [streamToString] *)
Definition streamToString (stream : Stream) : result string :=
  match ending stream with
  | Ended => Return (String.concat "" (chunks stream))
  | Errored e => Throw e
  end.

(** The [data] handler and the pipe of [streamToFile], chunk by chunk.
    The promise settles once: after the rejection nothing is written,
    the write stream being destroyed. *)
Fixpoint pump (chunks : list string) (ending : Ending) (filePath : string)
    (fileSize : Z) (f : gmap string string) : result Z * gmap string string :=
  match chunks with
  | chunk :: rest =>
      let fileSize := fileSize + Z.of_nat (String.length chunk) in
      if fileSize >? MAX_FILE_SIZE_BYTES config then
        (Throw StreamExceedsLimit, delete filePath f)
      else
        pump rest ending filePath fileSize
          (<[filePath := default "" (f !! filePath) +:+ chunk]> f)
  | [] =>
      match ending with
      | Ended => (Return fileSize, f)
      | Errored e => (Throw e, delete filePath f)
      end
  end.

Definition streamToFile (stream : Stream) (filePath : string) (w : World)
    : result Z * World :=
  let '(r, f) :=
    pump (chunks stream) (ending stream) filePath 0
      (<[filePath := ""]> (files w)) in
  (r, set_files f w).

Definition isHtml (response : Response) : bool :=
  match content_type response with
  | Some ct => Str.includes ct "text/html"
  | None => false
  end.

(** [attemptDownload] and [handleVirusScanPage] call each other; [again]
    is the nested [attemptDownload]. [None]: the nesting went deeper
    than the recursion budget. *)
Section Knot.
Variable again :
  string -> string -> Options -> World -> option (result Download * World).

Definition handleVirusScanPage (response : Response) (fileId : string)
    (options : Options) (w : World) : option (result Download * World) :=
  match streamToString (data response) with
  | Throw e => Some (Throw (VirusScanFailure e), w)
  | Return htmlContent =>
      match UrlParser.extractConfirmationToken htmlContent with
      | None => Some (Throw (VirusScanFailure NoConfirmationToken), w)
      | Some confirmToken =>
          match UrlParser.generateConfirmationUrl fileId confirmToken with
          | Throw e => Some (Throw (VirusScanFailure e), w)
          | Return confirmUrl =>
              match again confirmUrl fileId {| maxRetries := Some 1 |} w with
              | None => None
              | Some (Return d, w') => Some (Return d, w')
              | Some (Throw e, w') => Some (Throw (VirusScanFailure e), w')
              end
          end
      end
  end.

(** The [try] block of one iteration of the loop. *)
Definition attempt (url fileId : string) (options : Options) (w : World)
    : option (result Download * World) :=
  match axios url w with
  | (Throw e, w) => Some (Throw e, w)
  | (Return response, w) =>
      if isHtml response then handleVirusScanPage response fileId options w
      else
        let contentLength := parseInt (or_else (content_length response) "0") in
        if match contentLength with
           | Some n => n >? MAX_FILE_SIZE_BYTES config
           | None => false
           end
        then Some (Throw (FileSizeExceedsLimit (default 0 contentLength)), w)
        else
          let fileName :=
            or_else (extractFileName response) ("file_" +:+ fileId +:+ ".bin") in
          match generateUniqueFilePath fileName (files w) with
          | Throw e => Some (Throw e, w)
          | Return filePath =>
              match streamToFile (data response) filePath w with
              | (Throw e, w) => Some (Throw e, w)
              | (Return fileSize, w) =>
                  Some (Return {| filePath := filePath;
                                  fileName := fileName;
                                  fileSize := fileSize;
                                  contentType :=
                                    or_else (content_type response)
                                      "application/octet-stream" |}, w)
              end
          end
  end.

(** The [for] loop with its [catch], [n] iterations left. *)
Fixpoint attempts (url fileId : string) (options : Options) (maxRetries : Z)
    (n : nat) (attempt_no : Z) (lastError : option Error) (w : World)
    : option (result Download * World) :=
  match n with
  | O => Some (Throw (default AllRetriesFailed lastError), w)
  | S n' =>
      match attempt url fileId options w with
      | None => None
      | Some (Return d, w) => Some (Return d, w)
      | Some (Throw error, w) =>
          let w :=
            if attempt_no <? maxRetries then
              setTimeout (Z.min (1000 * 2 ^ (attempt_no - 1)) 5000) w
            else w in
          attempts url fileId options maxRetries n' (attempt_no + 1)
            (Some error) w
      end
  end.
End Knot.

(** [options.maxRetries || 3] *)
Definition the_maxRetries (options : Options) : Z :=
  match maxRetries options with
  | Some 0 | None => 3
  | Some n => n
  end.

Fixpoint attemptDownload (budget : nat) (url fileId : string)
    (options : Options) (w : World) : option (result Download * World) :=
  match budget with
  | O => None
  | S budget' =>
      let maxRetries := the_maxRetries options in
      attempts (attemptDownload budget') url fileId options maxRetries
        (Z.to_nat maxRetries) 1 None w
  end.

Definition downloadGoogleDriveFile (budget : nat) (fileId : string)
    (options : Options) (w : World) : option (DownloadResult * World) :=
  if negb (Str.truthy fileId) then Some (Failure InvalidFileIdProvided, w)
  else
    match UrlParser.generateDownloadUrl fileId with
    | Throw e => Some (Failure e, w)
    | Return downloadUrl =>
        match attemptDownload budget downloadUrl fileId options w with
        | None => None
        | Some (Return d, w) => Some (Success d, w)
        | Some (Throw e, w) => Some (Failure e, w)
        end
    end.

End Downloader.

Section Invariants.
Variable config : Config.

(** ** Invariants of the mutual recursion

    What a nested [attemptDownload] is assumed to satisfy and the loop
    preserves: results within the size limit, a request log that only
    grows, no timer under [maxRetries: 1]. *)

Definition capped (again : string -> string -> Options -> World ->
                           option (result Download * World)) : Prop :=
  forall u f o w d w',
    again u f o w = Some (Return d, w') -> fileSize d <= MAX_FILE_SIZE_BYTES config.


Definition quiet (again : string -> string -> Options -> World ->
                          option (result Download * World)) : Prop :=
  forall u f w r w',
    again u f {| maxRetries := Some 1 |} w = Some (r, w') -> timers w' = timers w.

End Invariants.

(** ** Attempts that fail *)

Section Retrying.
Variable config : Config.
Variable network : nat -> string -> result Response.
Variable extractFileName : Response -> option string.
Variable generateUniqueFilePath : string -> gmap string string -> result string.


Variable again :
  string -> string -> Options -> World -> option (result Download * World).
Variables url fileId : string.
Variable options : Options.
Variable maxRetries : Z.


End Retrying.



End GoogleDrive.

(* ===================================================================== *)
(** * Concrete runs *)
(* ===================================================================== *)

Module Scenarios.
Import Config GoogleDrive.

Definition id44 : string := "1BxiMVs0XRA5nFMdKvBdBZjgmUUqptlbs74OgvE2upms".

Definition downloadUrl : string :=
  "https://drive.google.com/uc?export=download&id=" +:+ id44.

Definition confirmUrl : string :=
  "https://drive.google.com/uc?export=download&confirm=t0K_n&id=" +:+ id44.

(** A virus-scan page carrying the token [t0K_n] in a link. *)
Definition scan_page : string :=
  "<a href=" +:+ UrlParser.q +:+ "/uc?export=download&confirm=t0K_n&id=" +:+ id44
  +:+ UrlParser.q +:+ ">Download anyway</a>".

Definition html (declared : option string) : Response :=
  {| content_type := Some "text/html; charset=utf-8";
     content_length := declared;
     content_disposition := None;
     data := {| chunks := [scan_page]; ending := Ended |} |}.

Definition small_pdf : Response :=
  {| content_type := Some "application/pdf";
     content_length := Some "4";
     content_disposition := None;
     data := {| chunks := ["%PDF"]; ending := Ended |} |}.

(** 60 000 000 bytes declared, above the default limit of 52 428 800. *)
Definition declared_too_large : Response :=
  {| content_type := Some "application/zip";
     content_length := Some "60000000";
     content_disposition := None;
     data := {| chunks := []; ending := Ended |} |}.

Definition timeout : Error := Transport "timeout of 30000ms exceeded".

Definition noFileName (_ : Response) : option string := None.

Definition inTemp (fileName : string) (_ : gmap string string) : result string :=
  Return ("./temp/" +:+ fileName).

(** First a confirmation page that declares a huge length, then the file. *)
Definition huge_page_then_file (n : nat) (_ : string) : result Response :=
  match n with
  | O => Return (html (Some "99999999999"))
  | _ => Return small_pdf
  end.

(** First a response that declares too large a file, then a small one. *)
Definition too_large_then_file (n : nat) (_ : string) : result Response :=
  match n with
  | O => Return declared_too_large
  | _ => Return small_pdf
  end.

(** The confirmation page on every initial request, a time-out on every
    confirmation request. *)
Definition page_then_timeout (n : nat) (_ : string) : result Response :=
  if Nat.even n then Return (html None) else Throw timeout.

Definition run (network : nat -> string -> result Response) (budget : nat)
    (options : Options) : option (DownloadResult * World) :=
  downloadGoogleDriveFile defaults network noFileName inTemp budget id44 options
    initial.



(** The library calls of [getFileType] on a file named report.pdf that
    cannot be opened. *)
Definition denied : Error :=
  Transport "EACCES: permission denied, open 'report.pdf'".

Definition unreadable (_ : string) : result (option FileHandler.Detected) :=
  Throw denied.

Definition extname_of_pdf (filePath : string) : string :=
  if Str.endsWith filePath ".pdf" then ".pdf" else "".

Definition mime_of_pdf (extension : string) : option string :=
  if String.eqb extension ".pdf" then Some "application/pdf"%string else None.

Definition unreadable_bytes (_ : string) (_ _ : Z) : result unit :=
  Throw denied.

Definition nothing_sniffed (_ : unit) : result (option FileHandler.Detected) :=
  Return None.

(** Every request is answered by the confirmation page. *)
Definition always_page (_ : nat) (_ : string) : result Response :=
  Return (html None).

End Scenarios.

(* ===================================================================== *)
(** * The matcher, declaratively *)
(* ===================================================================== *)

Module RegexSpec.
Import Regex.

(** What the matcher computes, stated without a search order:
    [matches r pos cap s n cap'] when [r] can take the first [n] characters
    of [s], the text at offset [pos], turning capture 1 from [cap] into
    [cap']. *)
Inductive matches : regex -> nat -> option string -> string -> nat ->
                    option string -> Prop :=
| M_Lit l pos cap s s' :
    Str.strip_prefix l s = Some s' ->
    matches (Lit l) pos cap s (String.length l) cap
| M_Seq r1 r2 pos cap s n1 cap1 n2 cap2 :
    matches r1 pos cap s n1 cap1 ->
    matches r2 (pos + n1) cap1 (Str.drop n1 s) n2 cap2 ->
    matches (Seq r1 r2) pos cap s (n1 + n2) cap2
| M_Alt_l r1 r2 pos cap s n cap' :
    matches r1 pos cap s n cap' -> matches (Alt r1 r2) pos cap s n cap'
| M_Alt_r r1 r2 pos cap s n cap' :
    matches r2 pos cap s n cap' -> matches (Alt r1 r2) pos cap s n cap'
| M_Opt_some r pos cap s n cap' :
    matches r pos cap s n cap' -> matches (Opt r) pos cap s n cap'
| M_Opt_none r pos cap s :
    matches (Opt r) pos cap s 0 cap
| M_Rep p lo hi pos cap s n :
    (n <= String.length s)%nat ->
    Str.all p (Str.take n s) = true ->
    within lo hi n = true ->
    matches (Rep p lo hi) pos cap s n cap
| M_Group r pos cap s n cap' :
    matches r pos cap s n cap' ->
    matches (Group r) pos cap s n (Some (Str.take n s))
| M_Bol cap s :
    matches Bol 0 cap s 0 cap
| M_Eol pos cap :
    matches Eol pos cap EmptyString 0 cap.

(** Every match of [r] leaves capture 1 in [Q]. *)
Definition sets (Q : option string -> Prop) (r : regex) : Prop :=
  forall pos cap s n cap', matches r pos cap s n cap' -> Q cap'.

(** No match of [r] takes capture 1 out of [Q]. *)
Definition keeps (Q : option string -> Prop) (r : regex) : Prop :=
  forall pos cap s n cap', matches r pos cap s n cap' -> Q cap -> Q cap'.

(** Capture 1 holds one or more characters of the set [p]. *)
Definition captured (p : ascii -> bool) (cap : option string) : Prop :=
  exists g, cap = Some g /\ g <> EmptyString /\ Str.all p g = true.

(** The least number of characters a match of [r] takes. *)
Fixpoint min_length (r : regex) : nat :=
  match r with
  | Lit l => String.length l
  | Seq r1 r2 => min_length r1 + min_length r2
  | Alt r1 r2 => Nat.min (min_length r1) (min_length r2)
  | Opt _ => 0
  | Rep _ lo _ => lo
  | Group r1 => min_length r1
  | Bol | Eol => 0
  end.

End RegexSpec.

(* ===================================================================== *)
(** * Flags of regular expressions *)
(* ===================================================================== *)

Module Flags.
Import Regex.

(** ** The i flag

    With the i flag a character of the pattern matches a character of the
    input when both have the same canonical form, their upper case. The
    characters of the patterns are ASCII, and among the code units below
    256 only the letters a-z fold onto ASCII characters. The character
    sets of the patterns hold a letter in both cases or in neither, so
    that only the literals change. *)

Definition upper_char (c : ascii) : ascii :=
  if Str.in_range "a" "z" c then ascii_of_N (N_of_ascii c - 32) else c.

Definition same_letter (a c : ascii) : bool :=
  Ascii.eqb (upper_char a) (upper_char c).

(** A literal, character by character. *)
Fixpoint letters (l : string) : regex :=
  match l with
  | EmptyString => Lit ""
  | String a l' => Seq (Rep (same_letter a) 1 (Some 1%nat)) (letters l')
  end.

Fixpoint ignoreCase (r : regex) : regex :=
  match r with
  | Lit l => letters l
  | Seq r1 r2 => Seq (ignoreCase r1) (ignoreCase r2)
  | Alt r1 r2 => Alt (ignoreCase r1) (ignoreCase r2)
  | Opt r1 => Opt (ignoreCase r1)
  | Rep p lo hi => Rep p lo hi
  | Group r1 => Group (ignoreCase r1)
  | Bol => Bol
  | Eol => Eol
  end.

(** A set that holds a letter in both cases or in neither. *)
Definition case_closed (p : ascii -> bool) : Prop :=
  forall c, p (upper_char c) = p c.

End Flags.

(* ===================================================================== *)
(** * utils/url-parser.js: [extractMultipleGoogleDriveUrls] *)
(* ===================================================================== *)

Module UrlScan.
Import Regex UrlParser Flags.

(** An entry of the result of [extractMultipleGoogleDriveUrls]; [fileId]
    is [match[1]], undefined when the group took no part in the match. *)
Record DriveLink : Type := {
  url : string;
  fileId : option string;
  format : string
}.

(** The [while] loop over the matches of one pattern with the flags g and
    i: [exec] resumes at [lastIndex], the end of the match before.
    [None]: the loop is still running when the budget is spent. *)
Fixpoint scan (budget : nat) (formatName : string) (globalPattern : regex)
    (text : string) (lastIndex : nat)
    (results : list DriveLink) (processedFileIds : gset (option string))
    : option (list DriveLink * gset (option string)) :=
  match budget with
  | O => None
  | S budget' =>
      match search globalPattern lastIndex (Str.drop lastIndex text) with
      | None => Some (results, processedFileIds)
      | Some m =>
          let fileId := m_1 m in
          let lastIndex := (m_index m + m_length m)%nat in
          if decide (fileId ∈ processedFileIds) then
            scan budget' formatName globalPattern text lastIndex
              results processedFileIds
          else
            scan budget' formatName globalPattern text lastIndex
              (results ++ [{| url := Str.take (m_length m) (Str.drop (m_index m) text);
                              fileId := fileId;
                              format := formatName |}])
              (processedFileIds ∪ {[ fileId ]})
      end
  end.

(** The [for ... of] loop over the patterns. *)
Fixpoint scan_all (budget : nat) (patterns : list (string * regex)) (text : string)
    (results : list DriveLink) (processedFileIds : gset (option string))
    : option (list DriveLink) :=
  match patterns with
  | [] => Some results
  | (formatName, pattern) :: rest =>
      match scan budget formatName (ignoreCase pattern) text 0 results
              processedFileIds with
      | None => None
      | Some (results, processedFileIds) =>
          scan_all budget rest text results processedFileIds
      end
  end.

Definition extractMultipleGoogleDriveUrls (budget : nat) (text : string)
    : option (list DriveLink) :=
  if negb (Str.truthy text) then Some []
  else scan_all budget GOOGLE_DRIVE_PATTERNS text [] ∅.

(** What the loops keep: no identifier listed twice, every listed
    identifier recorded as processed, and every entry with an identifier
    of one or more characters of the alphabet. *)
Definition tidy (results : list DriveLink) (processed : gset (option string)) : Prop :=
  NoDup (map fileId results) /\
  (forall x, In x (map fileId results) -> x ∈ processed) /\
  Forall (fun r => RegexSpec.captured word_dash (fileId r)) results.

End UrlScan.

(* ===================================================================== *)
(** * middleware/errorHandler.js: the backoff of [retryOperation] *)
(* ===================================================================== *)

Module RetrySchedule.
Import ErrorHandler.

Section Schedule.
Context {E : Type}.
Variable o : Options E.

(** The delay after the failure of attempt number [attempt]. *)
Definition delay (attempt : Z) : Z :=
  Z.min (the_baseDelay o * 2 ^ (attempt - 1)) (the_maxDelay o).

(** What a run that makes [k] calls does, the first of them being
    attempt number [attempt]: a wait after each call but the last. *)
Fixpoint schedule (attempt : Z) (k : nat) : list Event :=
  match k with
  | O => []
  | S O => [Invoke]
  | S k' => Invoke :: Wait (delay attempt) :: schedule (attempt + 1) k'
  end.
End Schedule.

End RetrySchedule.

(* ===================================================================== *)
(** * utils/googleDrive.js: [generateUniqueFilePath] *)
(* ===================================================================== *)

Module UniquePath.
Import Config.

(** [String(counter)] for a counter that is a natural number. *)
Definition decimal (n : nat) : string := NilZero.string_of_uint (Nat.to_uint n).

(** The characters [generateUniqueFilePath] replaces by an underscore:
    angle brackets, colon, double quote, slash, backslash, bar, question
    mark and star. *)
Definition dangerous (c : ascii) : bool :=
  Ascii.eqb c "<" || Ascii.eqb c ">" || Ascii.eqb c ":" || Ascii.eqb c Regex.dquote
  || Ascii.eqb c "/" || Ascii.eqb c "\" || Ascii.eqb c "|" || Ascii.eqb c "?"
  || Ascii.eqb c "*".

(** [fileName.replace(set, '_')] with the g flag: every such character. *)
Fixpoint cleanFileName (fileName : string) : string :=
  match fileName with
  | EmptyString => EmptyString
  | String c rest =>
      String (if dangerous c then "_"%char else c) (cleanFileName rest)
  end.

Section GenerateUniqueFilePath.
Variable config : Config.

(** Node's [path] module, [fs-extra], and the file system as it is while
    the function runs. [config.TEMP_DIR] is a getter that resolves the
    configured directory. *)
Variable path_resolve : string -> string.
Variable path_join : string -> string -> string.
Variable path_extname : string -> string.
Variable path_basename : string -> string -> string.
Variable fs_ensureDir : string -> result unit.
Variable fs_pathExists : string -> bool.

Definition the_TEMP_DIR : string := path_resolve (TEMP_DIR config).

(** The [while] loop. [None]: the loop is still running when the budget
    of iterations is spent. *)
Fixpoint unique_loop (budget : nat) (cleanFileName filePath : string)
    (counter : nat) : option string :=
  if fs_pathExists filePath then
    match budget with
    | O => None
    | S budget' =>
        let ext := path_extname cleanFileName in
        let name := path_basename cleanFileName ext in
        let newFileName := name +:+ "_" +:+ decimal counter +:+ ext in
        unique_loop budget' cleanFileName (path_join the_TEMP_DIR newFileName)
          (S counter)
    end
  else Some filePath.

Definition generateUniqueFilePath (budget : nat) (fileName : string)
    : option (result string) :=
  match fs_ensureDir the_TEMP_DIR with
  | Throw e => Some (Throw e)
  | Return _ =>
      let cleanFileName := cleanFileName fileName in
      option_map Return
        (unique_loop budget cleanFileName (path_join the_TEMP_DIR cleanFileName) 1)
  end.

(** The paths the loop tries, in order: the cleaned name, then the name
    with the suffixes _1, _2, ... before its extension. *)
Definition candidate (fileName : string) (k : nat) : string :=
  let cleanFileName := cleanFileName fileName in
  match k with
  | O => path_join the_TEMP_DIR cleanFileName
  | S _ =>
      let ext := path_extname cleanFileName in
      path_join the_TEMP_DIR
        (path_basename cleanFileName ext +:+ "_" +:+ decimal k +:+ ext)
  end.

End GenerateUniqueFilePath.

(** A directory that holds report.pdf and report_1.pdf. *)
Definition join_slash (dir name : string) : string := dir +:+ "/" +:+ name.
Definition extname_4 (name : string) : string :=
  Str.drop (String.length name - 4) name.
Definition basename_4 (name ext : string) : string :=
  Str.take (String.length name - String.length ext) name.
Definition two_reports (filePath : string) : bool :=
  String.eqb filePath "./temp/report.pdf" || String.eqb filePath "./temp/report_1.pdf".

End UniquePath.

(* ===================================================================== *)
(** * utils/googleDrive.js: [cleanupTempFiles] *)
(* ===================================================================== *)

Module Cleanup.

Section CleanupTempFiles.
(** [config.TEMP_DIR] and [path.join]. *)
Variable tempDir : string.
Variable path_join : string -> string -> string.
(** The calls of [fs-extra] that reject: [readdir] of the directory,
    [stat] and [remove] of a path. *)
Variable readdir_rejects : bool.
Variable stat_rejects : string -> bool.
Variable remove_rejects : string -> bool.
(** [Date.now()] *)
Variable now : Z.

(** [fs.remove(filePath)] on the entries of the directory, each a name
    with its modification time in milliseconds. *)
Definition remove (file : string) (entries : list (string * Z)) : list (string * Z) :=
  List.filter (fun entry => negb (String.eqb (fst entry) file)) entries.

(** What a sweep leaves: the entries, the count of the files it removed,
    and whether it ended in the catch block. *)
Record Swept : Type := {
  remaining : list (string * Z);
  cleanedCount : nat;
  failed : bool
}.

(** The [for ... of] loop over the names [readdir] returned, in its order. *)
Fixpoint sweep (maxAge : Z) (files : list (string * Z)) (entries : list (string * Z))
    (cleanedCount : nat) : Swept :=
  match files with
  | [] => {| remaining := entries; cleanedCount := cleanedCount; failed := false |}
  | (file, mtime) :: rest =>
      let filePath := path_join tempDir file in
      if stat_rejects filePath then
        {| remaining := entries; cleanedCount := cleanedCount; failed := true |}
      else if now - mtime >? maxAge then
        if remove_rejects filePath then
          {| remaining := entries; cleanedCount := cleanedCount; failed := true |}
        else sweep maxAge rest (remove file entries) (S cleanedCount)
      else sweep maxAge rest entries cleanedCount
  end.

(** [directory] is [None] when the temporary directory does not exist. *)
Definition cleanupTempFiles (maxAgeHours : Z) (directory : option (list (string * Z)))
    : option Swept :=
  match directory with
  | None => None
  | Some entries =>
      if readdir_rejects then
        Some {| remaining := entries; cleanedCount := 0; failed := true |}
      else
        let maxAge := maxAgeHours * 60 * 60 * 1000 in
        Some (sweep maxAge entries entries 0)
  end.

End CleanupTempFiles.

(** A directory with a file written two hours ago and one written a minute
    ago, at the time 10 000 000 ms. *)
Definition two_files : list (string * Z) :=
  [("old.bin"%string, 2800000); ("new.bin"%string, 9940000)].

End Cleanup.

(* ===================================================================== *)
(** * index.js: [sendFileByType] *)
(* ===================================================================== *)

Module Bot.
Import FileHandler.

(** The calls of the reply methods of the Telegraf context, each with the
    file name it sends; the caption is the file name after a page emoji,
    the parse mode is Markdown. *)
Inductive Reply : Type :=
| ReplyWithVideo (filename : string) (supports_streaming : bool)
| ReplyWithPhoto (filename : string)
| ReplyWithDocument (filename : string).

Section SendFileByType.
Variable Buffer : Type.
Variable fs_readFile : string -> result Buffer.
(** What Telegram answers to a call. *)
Variable telegram : Reply -> result unit.

(** [sendFileByType] of the bot: the calls it makes and how it ends. *)
Definition sendFileByType (filePath fileName : string) (fileType : option FileType)
    : list Reply * result unit :=
  match fs_readFile filePath with
  | Throw e => ([], Throw e)
  | Return fileBuffer =>
      let mimeType :=
        match fileType with
        | Some ft => if Str.truthy (mime ft) then Some (mime ft) else None
        | None => None
        end in
      let call :=
        match mimeType with
        | Some m =>
            if Str.startsWith m "video/" then ReplyWithVideo fileName true
            else if Str.startsWith m "image/" then ReplyWithPhoto fileName
            else ReplyWithDocument fileName
        | None => ReplyWithDocument fileName
        end in
      ([call], telegram call)
  end.

End SendFileByType.
End Bot.

(* ===================================================================== *)
(** * The enhanced bot: the file history *)
(* ===================================================================== *)

Module History.

Section FileHistory.
(** An entry of the history: [{ id, name, size, type, downloadDate,
    driveFileId }]. *)
Variable FileData : Type.

(** [this.fileHistory] is a Map from user ids to arrays. *)
Definition getUserFiles (h : gmap Z (list FileData)) (userId : Z) : list FileData :=
  default [] (h !! userId).

(** [unshift], then [splice(50)] when the array is longer than 50. *)
Definition addToUserFileHistory (userId : Z) (fileData : FileData)
    (h : gmap Z (list FileData)) : gmap Z (list FileData) :=
  let userFiles := fileData :: getUserFiles h userId in
  let userFiles :=
    if (50 <? List.length userFiles)%nat then List.firstn 50 userFiles
    else userFiles in
  <[userId := userFiles]> h.

(** The downloads of a session, oldest first, recorded one by one. *)
Definition record (downloads : list (Z * FileData)) : gmap Z (list FileData) :=
  fold_left (fun h d => addToUserFileHistory (fst d) (snd d) h) downloads ∅.

End FileHistory.
End History.

(* ===================================================================== *)
(** * The enhanced bot: [generateUserErrorMessage] *)
(* ===================================================================== *)

Module UserMessages.
Import Config.

(** [String(n)] for an integer [n], as a template literal prints it. *)
Definition number (n : Z) : string := NilZero.string_of_int (Z.to_int n).

(** [Math.round(bytes / 1024 / 1024)] for an integral number of bytes. *)
Definition round_MB (bytes : Z) : Z := (bytes + 524288) / 1048576.

(** [error.message] of the errors the downloader throws. *)
Fixpoint message (config : Config) (e : Error) : string :=
  match e with
  | InvalidFileIdProvided => "Invalid file ID provided"
  | FileSizeExceedsLimit contentLength =>
      "File size (" +:+ number (round_MB contentLength)
      +:+ "MB) exceeds the limit of " +:+ number (MAX_FILE_SIZE_MB config) +:+ "MB"
  | StreamExceedsLimit =>
      "File size exceeds the limit of " +:+ number (MAX_FILE_SIZE_MB config) +:+ "MB"
  | NoConfirmationToken =>
      "Could not extract confirmation token from virus scan page"
  | VirusScanFailure cause =>
      "Failed to handle virus scan page: " +:+ message config cause
  | AllRetriesFailed => "Download failed after all retry attempts"
  | Transport m => m
  end.



                       (* An unexpected error occurred: ... *)







End UserMessages.

(* ===================================================================== *)
(** * The enhanced bot: [checkCooldown] *)
(* ===================================================================== *)

Module Cooldown.
Import UserMessages.

(** [Math.ceil(x / 1000)] for an integer [x]. *)
Definition ceil_seconds (x : Z) : Z := - ((- x) / 1000).

(** [checkCooldown]: [this.cooldowns] is a Map from keys to the time of the
    last action that was let through; [now] is [Date.now()]. *)
Definition checkCooldown (userId : Z) (action : string) (cooldownTime : Z)
    (now : Z) (cooldowns : gmap string Z) : Z * gmap string Z :=
  let key := number userId +:+ "_" +:+ action in
  let lastAction :=
    match cooldowns !! key with
    | Some t => if Z.eqb t 0 then 0 else t
    | None => 0
    end in
  if Z.ltb (now - lastAction) cooldownTime then
    (ceil_seconds (cooldownTime - (now - lastAction)), cooldowns)
  else (0, <[key := now]> cooldowns).

End Cooldown.

(* ===================================================================== *)
(** * Properties of the matcher *)
(* ===================================================================== *)

Module RegexFacts.
Import Regex.
#[local] Arguments String.append _ _ : simpl nomatch.

Lemma length_append (a b : string) :
  String.length (a +:+ b) = (String.length a + String.length b)%nat.
Proof. induction a as [|c a IH]; simpl; [reflexivity | now rewrite IH]. Qed.

Lemma strip_prefix_app (l s : string) : Str.strip_prefix l (l +:+ s) = Some s.
Proof.
  induction l as [|c l IH]; simpl; [reflexivity|].
  now rewrite Ascii.eqb_refl.
Qed.

Lemma strip_prefix_inv (l s s' : string) :
  Str.strip_prefix l s = Some s' -> s = l +:+ s'.
Proof.
  revert s; induction l as [|c l IH]; intros s; simpl.
  - now intros [= ->].
  - destruct s as [|b s]; [discriminate|].
    destruct (Ascii.eqb_spec c b) as [->|]; [|discriminate].
    intros H; now rewrite (IH _ H).
Qed.

Lemma take_app (a b : string) : Str.take (String.length a) (a +:+ b) = a.
Proof. induction a as [|c a IH]; simpl; [now destruct b | now rewrite IH]. Qed.

Lemma drop_app (a b : string) : Str.drop (String.length a) (a +:+ b) = b.
Proof. induction a as [|c a IH]; simpl; [reflexivity | exact IH]. Qed.

(** A set-repetition followed by the end of input succeeds exactly on the
    inputs made of [lo] to [hi] characters of the set. *)
Lemma rep_to_end {R} (p : ascii -> bool) (k : cont R) (s : string) :
  forall lo hi pos cap,
    (forall pos' cap', exists x, k pos' cap' EmptyString = Some x) ->
    is_Some (rep p lo hi (run Eol k) pos cap s)
    <-> Str.all p s && within lo hi (String.length s) = true.
Proof.
  induction s as [|c s IH]; intros lo hi pos cap Hk.
  - cbn [rep run Str.all String.length]. unfold within.
    destruct lo as [|lo]; cbn.
    + destruct (Hk pos cap) as [x ->]. destruct hi; cbn; split; eauto.
    + split; [intros [? [=]] | discriminate].
  - cbn [rep Str.all String.length].
    assert (Hstop : (match lo with
                     | O => run Eol k pos cap (String c s)
                     | S _ => None
                     end) = None) by (destruct lo; reflexivity).
    rewrite Hstop.
    destruct (p c) eqn:Hp; cbn [andb].
    2:{ split; [intros [? [=]] | discriminate]. }
    destruct (room hi) eqn:Hroom; cbn [andb].
    2:{ destruct hi as [[|h]|]; try discriminate. unfold within; cbn.
        rewrite !andb_false_r. split; [intros [? [=]] | discriminate]. }
    specialize (IH (Nat.pred lo) (option_map Nat.pred hi) (S pos) cap Hk).
    destruct (rep p (Nat.pred lo) (option_map Nat.pred hi) (run Eol k)
                (S pos) cap s) as [x|] eqn:Hrec.
    + assert (Hw : Str.all p s && within (Nat.pred lo) (option_map Nat.pred hi)
                                    (String.length s) = true)
        by (apply IH; eauto).
      split; [intros _ | eauto].
      apply andb_true_iff in Hw as [Ha Hw]. rewrite Ha; cbn [andb].
      unfold within in *. apply andb_true_iff in Hw as [H1 H2].
      apply andb_true_iff; split.
      * apply Nat.leb_le in H1. apply Nat.leb_le. lia.
      * destruct hi as [[|h]|]; cbn in *; try discriminate; [|reflexivity].
        apply Nat.leb_le in H2. apply Nat.leb_le. lia.
    + split; [intros [? [=]] | intros Hw; exfalso].
      apply andb_true_iff in Hw as [Ha Hw].
      assert (Hn : ~ is_Some (@None R)) by (intros [? [=]]).
      apply Hn, IH. rewrite Ha; cbn [andb].
      unfold within in *. apply andb_true_iff in Hw as [H1 H2].
      apply andb_true_iff; split.
      * apply Nat.leb_le in H1. apply Nat.leb_le. lia.
      * destruct hi as [[|h]|]; cbn in *; try discriminate; [|reflexivity].
        apply Nat.leb_le in H2. apply Nat.leb_le. lia.
Qed.

Lemma search_eq (r : regex) (pos : nat) (s : string) :
  search r pos s =
  match run r (accept pos) pos None s with
  | Some m => Some m
  | None =>
      match s with
      | EmptyString => None
      | String _ s' => search r (S pos) s'
      end
  end.
Proof. destruct s; reflexivity. Qed.

(** A pattern that starts with [^] matches at no later offset. *)
Lemma search_bol_later (r : regex) (s : string) :
  forall pos, (0 < pos)%nat -> search (Seq Bol r) pos s = None.
Proof.
  induction s as [|c s IH]; intros pos Hpos; cbn [search run];
    destruct (Nat.eqb_spec pos 0); try lia; try reflexivity.
  apply IH; lia.
Qed.

Lemma append_assoc (a b c : string) : (a +:+ b) +:+ c = a +:+ (b +:+ c).
Proof.
  induction a as [|x a IH]; [reflexivity|].
  change (String x ((a +:+ b) +:+ c) = String x (a +:+ b +:+ c)). now f_equal.
Qed.

Lemma drop_drop (s : string) : forall m n, Str.drop n (Str.drop m s) = Str.drop (m + n) s.
Proof.
  induction s as [|c s IH]; intros [|m] n; cbn; try reflexivity.
  - now destruct n.
  - apply IH.
Qed.

Lemma drop_app_plus (a b : string) (n : nat) :
  Str.drop (String.length a + n) (a +:+ b) = Str.drop n b.
Proof. rewrite <- drop_drop. now rewrite drop_app. Qed.

Lemma length_drop (s : string) : forall n,
  String.length (Str.drop n s) = (String.length s - n)%nat.
Proof.
  induction s as [|c s IH]; intros [|n]; cbn; try reflexivity. apply IH.
Qed.

Lemma occurrences_In (w s : string) :
  forall pos j,
    (j <= String.length s)%nat ->
    Str.startsWith (Str.drop j s) w = true ->
    In (pos + j)%nat (Str.occurrences w s pos).
Proof.
  induction s as [|c s IH]; intros pos j Hj Hw.
  - cbn in Hj. assert (j = 0%nat) as -> by lia. cbn in Hw |- *.
    rewrite Hw. left. lia.
  - destruct j as [|j].
    + cbn [Str.drop] in Hw. cbn [Str.occurrences]. rewrite Hw. left. lia.
    + cbn [Str.occurrences]. apply in_or_app. right.
      replace (pos + S j)%nat with (S pos + j)%nat by lia.
      apply IH; [cbn in Hj; lia | exact Hw].
Qed.

Lemma search_skip (r : regex) (s : string) :
  forall n pos,
    (n <= String.length s)%nat ->
    (forall j, (j < n)%nat ->
        run r (accept (pos + j)) (pos + j) None (Str.drop j s) = None) ->
    search r pos s = search r (pos + n) (Str.drop n s).
Proof.
  induction s as [|c s IH]; intros n pos Hn Hfail.
  - cbn in Hn. assert (n = 0%nat) as -> by lia. now rewrite Nat.add_0_r.
  - destruct n as [|n]; [now rewrite Nat.add_0_r|].
    rewrite search_eq. pose proof (Hfail 0%nat ltac:(lia)) as H0.
    rewrite Nat.add_0_r in H0. cbn [Str.drop] in H0 |- *. rewrite H0.
    replace (pos + S n)%nat with (S pos + n)%nat by lia.
    apply IH; [cbn in Hn; lia|].
    intros j Hj. specialize (Hfail (S j) ltac:(lia)). cbn [Str.drop] in Hfail.
    now replace (S pos + j)%nat with (pos + S j)%nat by lia.
Qed.

Lemma search_none (r : regex) (s : string) :
  forall pos,
    (forall j, (j <= String.length s)%nat ->
        run r (accept (pos + j)) (pos + j) None (Str.drop j s) = None) ->
    search r pos s = None.
Proof.
  induction s as [|c s IH]; intros pos Hfail; rewrite search_eq;
    pose proof (Hfail 0%nat ltac:(lia)) as H0;
    rewrite Nat.add_0_r in H0; cbn [Str.drop] in H0; rewrite H0;
    [reflexivity|].
  apply IH. intros j Hj. specialize (Hfail (S j) ltac:(cbn; lia)).
  cbn [Str.drop] in Hfail.
  now replace (S pos + j)%nat with (pos + S j)%nat by lia.
Qed.

Lemma rep_greedy {R} (p : ascii -> bool) (k : cont R) (t rest : string) :
  forall lo pos cap x,
    Str.all p t = true ->
    (lo <= String.length t)%nat ->
    stops p rest = true ->
    k (pos + String.length t)%nat cap rest = Some x ->
    rep p lo None k pos cap (t +:+ rest) = Some x.
Proof.
  induction t as [|c t IH]; intros lo pos cap x Hall Hlo Hstop Hk.
  - cbn in Hlo. assert (lo = 0%nat) as -> by lia.
    cbn [String.length] in Hk. rewrite Nat.add_0_r in Hk.
    cbn [String.append]. destruct rest as [|c rest]; cbn [rep]; [exact Hk|].
    cbn in Hstop. apply negb_true_iff in Hstop. now rewrite Hstop.
  - cbn [Str.all] in Hall. apply andb_true_iff in Hall as [Hc Hall].
    cbn [String.append rep]. rewrite Hc. cbn [room andb option_map].
    rewrite (IH (Nat.pred lo) (S pos) cap x); auto.
    + cbn in Hlo. lia.
    + cbn [String.length] in Hk. now replace (S pos + String.length t)%nat
        with (pos + S (String.length t))%nat by lia.
Qed.

Lemma run_Seq {R} (r1 r2 : regex) (k : cont R) pos cap (s : string) :
  run (Seq r1 r2) k pos cap s = run r1 (run r2 k) pos cap s.
Proof. reflexivity. Qed.

Lemma run_Lit_app {R} (l : string) (k : cont R) pos cap (s : string) :
  run (Lit l) k pos cap (l +:+ s) = k (pos + String.length l)%nat cap s.
Proof. cbn [run]. now rewrite strip_prefix_app. Qed.

Lemma run_plus_greedy {R} (p : ascii -> bool) (k : cont R) (t rest : string)
    (pos : nat) (cap : option string) (x : R) :
  Str.all p t = true ->
  t <> EmptyString ->
  stops p rest = true ->
  k (pos + String.length t)%nat cap rest = Some x ->
  run (plus p) k pos cap (t +:+ rest) = Some x.
Proof.
  intros Hall Hne Hstop Hk. unfold plus. cbn [run].
  apply rep_greedy; auto. destruct t; [congruence | cbn; lia].
Qed.

Lemma run_group_plus {R} (p : ascii -> bool) (k : cont R) (t rest : string)
    (pos : nat) (cap : option string) (x : R) :
  Str.all p t = true ->
  t <> EmptyString ->
  stops p rest = true ->
  k (pos + String.length t)%nat (Some t) rest = Some x ->
  run (Group (plus p)) k pos cap (t +:+ rest) = Some x.
Proof.
  intros Hall Hne Hstop Hk. cbn [run]. unfold plus.
  apply rep_greedy; auto.
  - destruct t; [congruence | cbn; lia].
  - now rewrite Nat.add_sub', take_app.
Qed.

(** A pattern that starts with a literal matches only where the literal
    occurs. *)
Lemma literal_only {R} (l body : string) (r : regex) (k : cont R)
    (p pos : nat) cap :
  (p <= String.length body)%nat ->
  ~ In p (Str.occurrences l body 0) ->
  run (Seq (Lit l) r) k pos cap (Str.drop p body) = None.
Proof.
  intros Hp Hnot. cbn [run].
  destruct (Str.strip_prefix l (Str.drop p body)) as [t|] eqn:H; [|reflexivity].
  exfalso. apply Hnot. apply (occurrences_In l body 0 p Hp).
  unfold Str.startsWith. now rewrite H.
Qed.

Lemma startsWith_app (w s : string) : Str.startsWith (w +:+ s) w = true.
Proof. unfold Str.startsWith. now rewrite strip_prefix_app. Qed.

(** A pattern whose leading literal ends with a text that occurs nowhere
    matches nowhere. *)
Lemma search_absent (a l body : string) (r : regex) :
  Str.occurrences l body 0 = [] -> exec (Seq (Lit (a +:+ l)) r) body = None.
Proof.
  intros Hocc. apply search_none. intros j Hj. cbn [run Nat.add].
  destruct (Str.strip_prefix (a +:+ l) (Str.drop j body)) as [t|] eqn:H;
    [|reflexivity].
  exfalso. apply strip_prefix_inv in H.
  assert (Hlen : (String.length body - j
                  = String.length a + (String.length l + String.length t))%nat).
  { rewrite <- length_drop, H, append_assoc, !length_append. reflexivity. }
  assert (Hd : Str.drop (j + String.length a) body = l +:+ t).
  { rewrite <- drop_drop, H, append_assoc. apply drop_app. }
  pose proof (occurrences_In l body 0 (j + String.length a)) as Hin.
  rewrite Hocc in Hin. apply Hin; [lia|]. rewrite Hd. apply startsWith_app.
Qed.

Lemma search_hits (l body : string) (r : regex) (n : nat) (m : Match) :
  Str.occurrences l body 0 = [n] ->
  (n <= String.length body)%nat ->
  run (Seq (Lit l) r) (accept n) n None (Str.drop n body) = Some m ->
  exec (Seq (Lit l) r) body = Some m.
Proof.
  intros Hocc Hn Hrun. unfold exec.
  rewrite (search_skip _ _ n); [|exact Hn|].
  - rewrite search_eq. cbn [Nat.add]. now rewrite Hrun.
  - intros j Hj. cbn [Nat.add]. apply literal_only; [lia|].
    rewrite Hocc. intros [H|[]]. lia.
Qed.

Lemma truthy_app (a b : string) : Str.truthy b = true -> Str.truthy (a +:+ b) = true.
Proof. now destruct a. Qed.

Lemma word_dash_not_dquote (s : string) :
  Str.all word_dash s = true -> Str.all not_dquote s = true.
Proof.
  induction s as [|c s IH]; [reflexivity|]. cbn [Str.all].
  intros H. apply andb_true_iff in H as [Hc H]. rewrite (IH H), andb_true_r.
  destruct c as [[] [] [] [] [] [] [] []]; try reflexivity; discriminate Hc.
Qed.

Lemma group1_hit (m : Match) (token : string) :
  m_1 m = Some token -> token <> EmptyString -> group1 (Some m) = Some token.
Proof.
  destruct m as [i l [g|]]; cbn; intros [= ->] Hne; now destruct token.
Qed.

Lemma all_app (p : ascii -> bool) (a b : string) :
  Str.all p (a +:+ b) = Str.all p a && Str.all p b.
Proof.
  induction a as [|c a IH]; [reflexivity|].
  cbn [String.append Str.all]. now rewrite IH, andb_assoc.
Qed.

Lemma rep_dead {R} (d : ascii) (p : ascii -> bool) (k : cont R) (s : string) :
  forall lo hi pos cap,
    dead d k -> free d s = true -> rep p lo hi k pos cap s = None.
Proof.
  induction s as [|c s IH]; intros lo hi pos cap Hk Hs; cbn [rep].
  - destruct lo; [now apply Hk | reflexivity].
  - assert (Hstop : match lo with O => k pos cap (String c s) | S _ => None end = None)
      by (destruct lo; [now apply Hk | reflexivity]).
    rewrite Hstop. destruct (p c && room hi); [|reflexivity].
    rewrite IH; auto. unfold free in *. cbn [Str.all] in Hs.
    now apply andb_true_iff in Hs as [_ Hs].
Qed.

Lemma run_dead (d : ascii) (r : regex) :
  forall R (k : cont R) pos cap s,
    free d s = true ->
    dead d k \/ needs d r = true ->
    run r k pos cap s = None.
Proof.
  induction r as [l|r1 IH1 r2 IH2|r1 IH1 r2 IH2|r1 IH1|p lo hi|r1 IH1| |];
    intros R k pos cap s Hs Hk; cbn [run needs] in *.
  - destruct (Str.strip_prefix l s) as [t|] eqn:Hl; [|reflexivity].
    apply strip_prefix_inv in Hl as ->. unfold free in Hs.
    rewrite all_app in Hs. apply andb_true_iff in Hs as [Hl Ht].
    destruct Hk as [Hk|Hk]; [now apply Hk|].
    rewrite Hl in Hk. discriminate Hk.
  - destruct Hk as [Hk|Hk].
    + apply IH1; [exact Hs|]. left. intros pos' cap' s' Hs'. apply IH2; auto.
    + apply orb_true_iff in Hk as [Hk|Hk].
      * apply IH1; auto.
      * apply IH1; [exact Hs|]. left. intros pos' cap' s' Hs'. apply IH2; auto.
  - assert (H1 : run r1 k pos cap s = None).
    { apply IH1; [exact Hs|]. destruct Hk as [Hk|Hk]; [now left|].
      apply andb_true_iff in Hk as [Hk _]. now right. }
    rewrite H1. apply IH2; [exact Hs|]. destruct Hk as [Hk|Hk]; [now left|].
    apply andb_true_iff in Hk as [_ Hk]. now right.
  - destruct Hk as [Hk|Hk]; [|discriminate].
    rewrite IH1; auto.
  - destruct Hk as [Hk|Hk]; [|discriminate]. now apply (rep_dead d).
  - apply IH1; [exact Hs|]. destruct Hk as [Hk|Hk]; [|now right].
    left. intros pos' cap' s' Hs'. now apply Hk.
  - destruct Hk as [Hk|Hk]; [|discriminate].
    destruct (pos =? 0)%nat; [now apply Hk | reflexivity].
  - destruct Hk as [Hk|Hk]; [|discriminate].
    destruct s; [now apply Hk | reflexivity].
Qed.

Lemma search_free (d : ascii) (r : regex) (s : string) :
  forall pos, needs d r = true -> free d s = true -> search r pos s = None.
Proof.
  induction s as [|c s IH]; intros pos Hr Hs; rewrite search_eq;
    rewrite (run_dead d) by auto; [reflexivity|].
  apply IH; [exact Hr|]. unfold free in *. cbn [Str.all] in Hs.
  now apply andb_true_iff in Hs as [_ Hs].
Qed.

Lemma word_dash_free (d : ascii) (s : string) :
  word_dash d = false -> Str.all word_dash s = true -> free d s = true.
Proof.
  intros Hd. induction s as [|c s IH]; [reflexivity|]. unfold free in *.
  cbn [Str.all]. intros H. apply andb_true_iff in H as [Hc H].
  rewrite (IH H), andb_true_r. apply negb_true_iff, Ascii.eqb_neq.
  intros ->. congruence.
Qed.

Section Doomed.
(** [Q]: a set of inputs closed under dropping the first character. *)
Variable Q : string -> Prop.
Hypothesis Q_tail : forall c s, Q (String c s) -> Q s.

Lemma Q_suffix (a b : string) : Q (a +:+ b) -> Q b.
Proof. induction a as [|c a IH]; [auto|]. intros H. apply IH, (Q_tail c), H. Qed.

Lemma rep_doomed {R} (p : ascii -> bool) (k : cont R) (s : string) :
  forall lo hi pos cap, doomed Q k -> Q s -> rep p lo hi k pos cap s = None.
Proof.
  induction s as [|c s IH]; intros lo hi pos cap Hk Hs; cbn [rep].
  - destruct lo; [now apply Hk | reflexivity].
  - assert (Hstop : match lo with O => k pos cap (String c s) | S _ => None end = None)
      by (destruct lo; [now apply Hk | reflexivity]).
    rewrite Hstop. destruct (p c && room hi); [|reflexivity].
    rewrite IH; eauto.
Qed.

(** Whatever the pattern, the continuation is only called on what is left
    of the input. *)
Lemma run_doomed (r : regex) :
  forall R (k : cont R) pos cap s, doomed Q k -> Q s -> run r k pos cap s = None.
Proof.
  induction r as [l|r1 IH1 r2 IH2|r1 IH1 r2 IH2|r1 IH1|p lo hi|r1 IH1| |];
    intros R k pos cap s Hk Hs; cbn [run].
  - destruct (Str.strip_prefix l s) as [t|] eqn:Hl; [|reflexivity].
    apply strip_prefix_inv in Hl as ->. apply Hk. eapply Q_suffix, Hs.
  - apply IH1; [|exact Hs]. intros pos' cap' s' Hs'. now apply IH2.
  - rewrite IH1 by assumption. now apply IH2.
  - rewrite IH1 by assumption. now apply Hk.
  - now apply rep_doomed.
  - apply IH1; [|exact Hs]. intros pos' cap' s' Hs'. now apply Hk.
  - destruct (pos =? 0)%nat; [now apply Hk | reflexivity].
  - destruct s; [now apply Hk | reflexivity].
Qed.

Lemma search_doomed (r : regex) (s : string) :
  (forall R (k : cont R) pos cap s, Q s -> run r k pos cap s = None) ->
  forall pos, Q s -> search r pos s = None.
Proof.
  intros Hr. induction s as [|c s IH]; intros pos Hs; rewrite search_eq;
    rewrite Hr by assumption; [reflexivity|].
  apply IH. eapply Q_tail, Hs.
Qed.

End Doomed.

Lemma free_drop (d : ascii) (s : string) :
  forall j, free d s = true -> free d (Str.drop j s) = true.
Proof.
  induction s as [|c s IH]; intros [|j] H; try assumption.
  cbn [Str.drop]. apply IH. unfold free in *. cbn [Str.all] in H.
  now apply andb_true_iff in H as [_ H].
Qed.

(** A pattern that needs a character fails on an input that has it only
    in a first part where the pattern fails. *)
Lemma exec_fails_after (d : ascii) (r : regex) (first rest : string) :
  needs d r = true ->
  free d rest = true ->
  (forall j, (j < String.length first)%nat ->
      run r (accept j) j None (Str.drop j (first +:+ rest)) = None) ->
  exec r (first +:+ rest) = None.
Proof.
  intros Hr Hrest Hfirst. unfold exec.
  rewrite (search_skip _ _ (String.length first)).
  - rewrite drop_app. now apply (search_free d).
  - rewrite length_append. lia.
  - exact Hfirst.
Qed.

Lemma run_Opt_hit {R} (r : regex) (k : cont R) pos cap (s : string) (x : R) :
  run r k pos cap s = Some x -> run (Opt r) k pos cap s = Some x.
Proof. intros H. cbn [run]. now rewrite H. Qed.

Lemma run_Alt_hit {R} (r1 r2 : regex) (k : cont R) pos cap (s : string) (x : R) :
  run r1 k pos cap s = Some x -> run (Alt r1 r2) k pos cap s = Some x.
Proof. intros H. cbn [run]. now rewrite H. Qed.

Lemma run_Opt_miss {R} (r : regex) (k : cont R) pos cap (s : string) :
  run r k pos cap s = None -> run (Opt r) k pos cap s = k pos cap s.
Proof. intros H. cbn [run]. now rewrite H. Qed.

Lemma rep_none {R} (p : ascii -> bool) (k : cont R) (s : string) :
  forall lo hi pos cap,
    (forall i, (i <= String.length s)%nat ->
        k (pos + i)%nat cap (Str.drop i s) = None) ->
    rep p lo hi k pos cap s = None.
Proof.
  induction s as [|c s IH]; intros lo hi pos cap Hk;
    pose proof (Hk 0%nat ltac:(lia)) as H0; rewrite Nat.add_0_r in H0;
    cbn [Str.drop] in H0; cbn [rep].
  - destruct lo; [exact H0 | reflexivity].
  - assert (Hstop : match lo with O => k pos cap (String c s) | S _ => None end = None)
      by (destruct lo; [exact H0 | reflexivity]).
    rewrite Hstop. destruct (p c && room hi); [|reflexivity].
    rewrite IH; [reflexivity|].
    intros i Hi. specialize (Hk (S i) ltac:(cbn; lia)). cbn [Str.drop] in Hk.
    now replace (S pos + i)%nat with (pos + S i)%nat by lia.
Qed.

(** [set*] before a continuation that only succeeds at one place: the
    repetition gives back what it took beyond that place. *)
Lemma rep_gives_back {R} (p : ascii -> bool) (k : cont R) (t rest : string) :
  forall pos cap x,
    Str.all p t = true ->
    (forall i, (1 <= i <= String.length rest)%nat ->
        k (pos + String.length t + i)%nat cap (Str.drop i rest) = None) ->
    k (pos + String.length t)%nat cap rest = Some x ->
    rep p 0 None k pos cap (t +:+ rest) = Some x.
Proof.
  induction t as [|c t IH]; intros pos cap x Hall Hlater Hk.
  - cbn [String.append String.length] in *. rewrite Nat.add_0_r in *.
    destruct rest as [|c rest]; cbn [rep]; [exact Hk|].
    destruct (p c && room None); [|exact Hk].
    rewrite rep_none; [exact Hk|].
    intros i Hi. specialize (Hlater (S i) ltac:(cbn; lia)). cbn [Str.drop] in Hlater.
    now replace (S pos + i)%nat with (pos + S i)%nat by lia.
  - cbn [Str.all] in Hall. apply andb_true_iff in Hall as [Hc Hall].
    cbn [String.append rep]. rewrite Hc. cbn [room andb option_map Nat.pred].
    rewrite (IH (S pos) cap x); auto.
    + intros i Hi. specialize (Hlater i Hi). cbn [String.length] in Hlater.
      now replace (S pos + String.length t + i)%nat
        with (pos + S (String.length t) + i)%nat by lia.
    + cbn [String.length] in Hk.
      now replace (S pos + String.length t)%nat
        with (pos + S (String.length t))%nat by lia.
Qed.

(** [[set]] once. *)
Lemma run_one {R} (p : ascii -> bool) (k : cont R) pos cap (c : ascii) (s : string) :
  run (Rep p 1 (Some 1%nat)) k pos cap (String c s)
  = if p c then k (S pos) cap s else None.
Proof.
  cbn [run rep]. destruct (p c); [|reflexivity]. cbn [room andb option_map Nat.pred].
  assert (H : rep p 0 (Some 0%nat) k (S pos) cap s = k (S pos) cap s).
  { destruct s as [|c' s]; cbn [rep]; [reflexivity|].
    cbn [room]. now rewrite andb_false_r. }
  rewrite H. now destruct (k (S pos) cap s).
Qed.

Lemma append_nil_r (s : string) : s +:+ "" = s.
Proof.
  induction s as [|c s IH]; [reflexivity|].
  change (String c (s +:+ "") = String c s). now f_equal.
Qed.

End RegexFacts.

Module UrlParserFacts.
Import Regex RegexFacts UrlParser Links.
#[local] Arguments String.append _ _ : simpl nomatch.

Lemma isValidFileId_bool (fileId : string) :
  isValidFileId fileId =
  Str.all word_dash fileId
  && within 25 (Some 50%nat) (String.length fileId).
Proof.
  destruct fileId as [|c s]; [reflexivity|].
  unfold isValidFileId, test, exec, fileIdPattern.
  cbn [Str.truthy negb seq]. rewrite search_eq.
  rewrite search_bol_later by lia.
  change (run (Seq Bol (Seq (Rep word_dash 25 (Some 50%nat)) Eol)) (accept 0)
            0 None (String c s))
    with (rep word_dash 25 (Some 50%nat) (run Eol (accept 0)) 0 None
            (String c s)).
  assert (Hk : forall pos' cap', exists x, accept 0 pos' cap' EmptyString = Some x)
    by (intros; eexists; reflexivity).
  pose proof (rep_to_end word_dash (accept 0) (String c s) 25 (Some 50%nat)
                0%nat None Hk) as H.
  destruct (rep word_dash 25 (Some 50%nat) (run Eol (accept 0)) 0 None
              (String c s)) as [m|] eqn:Hrep.
  - symmetry. apply H. eauto.
  - destruct (Str.all word_dash (String c s)
              && within 25 (Some 50%nat) (String.length (String c s))) eqn:Hb;
      [|reflexivity].
    destruct H as [_ H]. destruct H as [? [=]]. reflexivity.
Qed.

Lemma exec_param (body token rest : string) (n : nat) :
  Str.occurrences queryHead body 0 = [n] ->
  (n <= String.length body)%nat ->
  Str.drop n body = queryHead +:+ token +:+ rest ->
  Str.all word_dash token = true -> token <> EmptyString ->
  stops word_dash rest = true ->
  group1 (exec paramPattern body) = Some token.
Proof.
  intros Hocc Hn Hdrop Hall Hne Hstop. unfold paramPattern. cbn [seq].
  assert (Hhit : exists m, exec (Seq (Lit queryHead) (Group (plus word_dash))) body = Some m /\ m_1 m = Some token).
  { eexists. split; [eapply search_hits; eauto|].
    - rewrite Hdrop, run_Seq, run_Lit_app. apply run_group_plus; auto.
    - reflexivity. }
  destruct Hhit as [m [-> Hm]]. now apply group1_hit.
Qed.

Lemma exec_field (body token rest : string) (n : nat) :
  Str.occurrences fieldHead body 0 = [n] ->
  (n <= String.length body)%nat ->
  Str.drop n body = fieldHead +:+ " " +:+ ("value=" +:+ q) +:+ token +:+ q +:+ rest ->
  Str.all not_dquote token = true -> token <> EmptyString ->
  group1 (exec fieldPattern body) = Some token.
Proof.
  intros Hocc Hn Hdrop Hall Hne. unfold fieldPattern. cbn [seq].
  set (pattern := Seq (Lit fieldHead) _).
  assert (Hhit : exists m, exec pattern body = Some m /\ m_1 m = Some token).
  { eexists. split; [eapply search_hits; eauto|].
    - rewrite Hdrop, run_Seq, run_Lit_app, run_Seq.
      apply run_plus_greedy; [reflexivity | discriminate | reflexivity |].
      rewrite run_Seq, run_Lit_app, run_Seq.
      apply run_group_plus; [assumption | assumption | reflexivity |].
      rewrite run_Lit_app. reflexivity.
    - reflexivity. }
  destruct Hhit as [m [-> Hm]]. now apply group1_hit.
Qed.

Lemma exec_json (body token rest : string) (n : nat) :
  Str.occurrences jsonHead body 0 = [n] ->
  (n <= String.length body)%nat ->
  Str.drop n body = jsonHead +:+ token +:+ q +:+ rest ->
  Str.all not_dquote token = true -> token <> EmptyString ->
  group1 (exec jsonPattern body) = Some token.
Proof.
  intros Hocc Hn Hdrop Hall Hne. unfold jsonPattern. cbn [seq].
  set (pattern := Seq (Lit jsonHead) _).
  assert (Hhit : exists m, exec pattern body = Some m /\ m_1 m = Some token).
  { eexists. split; [eapply search_hits; eauto|].
    - rewrite Hdrop, run_Seq, run_Lit_app, run_Seq.
      apply run_group_plus; [assumption | assumption | reflexivity |].
      rewrite run_Lit_app. reflexivity.
    - reflexivity. }
  destruct Hhit as [m [-> Hm]]. now apply group1_hit.
Qed.

Lemma suffix_of_tail (t : string) (c : ascii) (s : string) :
  suffix_of t (String c s) -> suffix_of t s.
Proof.
  intros [i H]. exists (S i). rewrite <- Nat.add_1_r, <- drop_drop, <- H. reflexivity.
Qed.

Lemma drop_nil (n : nat) : Str.drop n "" = ""%string.
Proof. now destruct n. Qed.

Lemma idTail_after_id {R} (k : cont R) (id : string) :
  Str.all word_dash id = true ->
  forall i pos cap,
    run idTail k pos cap (Str.drop i (id +:+ "&export=download")) = None.
Proof.
  induction id as [|c id IH]; intros Hid i pos cap.
  - do 17 (destruct i as [|i]; [reflexivity|]). reflexivity.
  - cbn [Str.all] in Hid. apply andb_true_iff in Hid as [Hc Hid].
    destruct i as [|i]; [|now apply IH].
    cbn [Str.drop String.append idTail run rep].
    replace (amp_or_qmark c) with false; [reflexivity|].
    destruct c as [[] [] [] [] [] [] [] []]; try reflexivity; discriminate Hc.
Qed.

Lemma idTail_hopeless {R} (k : cont R) (id : string) :
  Str.all word_dash id = true ->
  forall pos cap s,
    suffix_of ("id=" +:+ id +:+ "&export=download") s ->
    run idTail k pos cap s = None.
Proof.
  intros Hid pos cap s [i ->].
  do 3 (destruct i as [|i]; [reflexivity|]).
  cbn [String.append Str.drop]. now apply idTail_after_id.
Qed.

Lemma directDownload_ucIdFirst {R} (k : cont R) (id : string) :
  Str.all word_dash id = true ->
  forall pos cap s,
    suffix_of (ucIdFirst id) s -> run directDownload k pos cap s = None.
Proof.
  intros Hid pos cap s Hs. unfold directDownload. cbn [scheme_www app seq].
  rewrite run_Seq. apply (run_doomed (suffix_of (ucIdFirst id)));
    [apply suffix_of_tail | | exact Hs].
  clear pos cap s Hs. intros pos cap s Hs.
  rewrite run_Seq. apply (run_doomed (suffix_of (ucIdFirst id)));
    [apply suffix_of_tail | | exact Hs].
  clear pos cap s Hs. intros pos cap s [j ->].
  assert (Htail : free "." (id +:+ "&export=download") = true).
  { unfold free. rewrite all_app. fold (free "." id).
    now rewrite (word_dash_free "." id). }
  destruct (Nat.lt_ge_cases j 31) as [Hj|Hj].
  - do 31 (destruct j as [|j];
           [first [ reflexivity
                  | change (Str.drop 8 (ucIdFirst id))
                      with ("drive.google.com/uc?" +:+ "id=" +:+ id
                            +:+ "&export=download");
                    rewrite run_Seq, run_Lit_app, run_Seq;
                    apply (run_doomed
                             (suffix_of ("id=" +:+ id +:+ "&export=download")));
                    [ apply suffix_of_tail
                    | intros pos' cap' s' Hs';
                      exact (idTail_hopeless _ id Hid pos' cap' s' Hs')
                    | now exists 0%nat ] ]|]).
    lia.
  - apply (run_dead "."); [|now right].
    replace j
      with (String.length "https://drive.google.com/uc?id=" + (j - 31))%nat
      by (cbn; lia).
    unfold ucIdFirst. rewrite drop_app_plus. now apply free_drop.
Qed.

Lemma ucIdFirst_unmatched (id : string) :
  Str.all word_dash id = true ->
  forall r, In r (map snd GOOGLE_DRIVE_PATTERNS) -> exec r (ucIdFirst id) = None.
Proof.
  intros Hid r Hin.
  assert (Htail : free "." (id +:+ "&export=download") = true).
  { unfold free. rewrite all_app. fold (free "." id).
    now rewrite (word_dash_free "." id). }
  cbn in Hin. destruct Hin as [<-|[<-|[<-|[<-|[<-|[]]]]]]; cbn [snd].
  4:{ apply search_none. intros j Hj.
      apply (directDownload_ucIdFirst _ id Hid). now exists j. }
  all: apply (exec_fails_after "." _ "https://drive.google.com/uc?id=");
    [reflexivity | exact Htail |];
    intros j Hj; do 31 (destruct j as [|j]; [reflexivity|]); cbn in Hj; lia.
Qed.

Lemma word_dash_not_amp (c : ascii) : word_dash c = true -> amp_or_qmark c = false.
Proof.
  destruct c as [[] [] [] [] [] [] [] []]; intros H; try reflexivity; discriminate H.
Qed.

Lemma idTail_in_id {R} (k : cont R) (id : string) :
  Str.all word_dash id = true ->
  forall i pos cap, run idTail k pos cap (Str.drop i id) = None.
Proof.
  induction id as [|c id IH]; intros Hid i pos cap.
  - now rewrite drop_nil.
  - cbn [Str.all] in Hid. apply andb_true_iff in Hid as [Hc Hid].
    destruct i as [|i]; [|now apply IH].
    unfold idTail. cbn [Str.drop]. rewrite run_Seq, run_one.
    now rewrite word_dash_not_amp.
Qed.

Lemma exec_at_start (r : regex) (s : string) (m : Match) :
  run r (accept 0) 0 None s = Some m -> exec r s = Some m.
Proof. intros H. unfold exec. rewrite search_eq. now rewrite H. Qed.

Section Shapes.
Variable id : string.
Hypothesis id_chars : Str.all word_dash id = true.
Hypothesis id_nonempty : id <> EmptyString.

Lemma id_free : free "." id = true.
Proof. now apply word_dash_free. Qed.

Lemma hit_at_start (r : regex) (s : string) :
  (exists m, run r (accept 0) 0 None s = Some m /\ m_1 m = Some id) ->
  group1 (exec r s) = Some id.
Proof.
  intros [m [H Hm]]. rewrite (exec_at_start r s m H). now apply group1_hit.
Qed.

Lemma standardView_file (rest : string) :
  stops word_dash rest = true ->
  group1 (exec standardView ("https://drive.google.com/file/d/" +:+ id +:+ rest))
  = Some id.
Proof.
  intros Hrest. apply hit_at_start.
  unfold standardView. cbn [scheme_www app seq].
  change ("https://drive.google.com/file/d/" +:+ id +:+ rest)
    with ("http" +:+ "s" +:+ "://" +:+ "drive.google.com/file/d/" +:+ id +:+ rest).
  destruct (Str.strip_prefix "/view" rest) as [rest'|] eqn:Hview;
    (eexists; split;
     [ rewrite run_Seq; apply run_Opt_hit;
       rewrite run_Seq, run_Lit_app, run_Seq; apply run_Opt_hit;
       rewrite run_Lit_app, run_Lit_app, run_Seq, run_Opt_miss by reflexivity;
       rewrite run_Seq, run_Lit_app, run_Seq;
       apply run_group_plus; auto;
       cbn [run]; rewrite Hview; reflexivity
     | reflexivity ]).
Qed.

Lemma openFormat_open :
  group1 (exec openFormat (openLink id)) = Some id.
Proof.
  apply hit_at_start. unfold openFormat. cbn [scheme_www app seq].
  replace (openLink id)
    with ("http" +:+ "s" +:+ "://" +:+ "drive.google.com/open?id=" +:+ id +:+ "")
    by (now rewrite append_nil_r).
  eexists; split;
    [ rewrite run_Seq; apply run_Opt_hit;
      rewrite run_Seq, run_Lit_app, run_Seq; apply run_Opt_hit;
      rewrite run_Lit_app, run_Lit_app, run_Seq, run_Opt_miss by reflexivity;
      rewrite run_Seq, run_Lit_app;
      apply run_group_plus; auto; reflexivity
    | reflexivity ].
Qed.

Lemma docsFormat_docs :
  group1 (exec docsFormat (docsLink id)) = Some id.
Proof.
  apply hit_at_start. unfold docsFormat, docsLink. cbn [scheme_www app seq].
  change ("https://docs.google.com/document/d/" +:+ id +:+ "/edit")
    with ("http" +:+ "s" +:+ "://" +:+ "docs.google.com/" +:+ "document" +:+ "/d/"
          +:+ id +:+ "/edit").
  eexists; split.
  - rewrite run_Seq. apply run_Opt_hit.
    rewrite run_Seq, run_Lit_app, run_Seq. apply run_Opt_hit.
    rewrite run_Lit_app, run_Lit_app, run_Seq, run_Opt_miss by reflexivity.
    rewrite run_Seq, run_Lit_app, run_Seq. apply run_Alt_hit.
    rewrite run_Lit_app, run_Seq, run_Lit_app.
    apply run_group_plus; auto; reflexivity.
  - reflexivity.
Qed.

Lemma directDownload_download :
  group1 (exec directDownload (downloadLink id)) = Some id.
Proof.
  apply hit_at_start. unfold directDownload. cbn [scheme_www app seq].
  replace (downloadLink id)
    with ("http" +:+ "s" +:+ "://" +:+ "drive.google.com/uc?" +:+ "export=download"
          +:+ "&id=" +:+ id)
    by reflexivity.
  eexists; split.
  - rewrite run_Seq. apply run_Opt_hit.
    rewrite run_Seq, run_Lit_app, run_Seq. apply run_Opt_hit.
    rewrite run_Lit_app, run_Lit_app, run_Seq, run_Opt_miss by reflexivity.
    rewrite run_Seq, run_Lit_app, run_Seq.
    change (run (star dot) ?k ?pos ?cap ?s) with (rep dot 0 None k pos cap s).
    apply rep_gives_back; [reflexivity | |].
    + intros i Hi. do 4 (destruct i as [|i]; [first [lia | reflexivity]|]).
      cbn [String.append Str.drop]. apply (idTail_in_id _ id id_chars).
    + cbn [String.append]. rewrite run_Seq, run_one.
      change (amp_or_qmark "&") with true. cbn iota.
      replace (String "i" (String "d" (String "=" id))) with ("id=" +:+ id +:+ "")
        by (now rewrite append_nil_r).
      rewrite run_Seq, run_Lit_app. apply run_group_plus; auto; reflexivity.
  - reflexivity.
Qed.

(** The patterns tried before the one a link is written for fail on that
    link. *)
Lemma unmatched_before (r : regex) (first rest : string) (n : nat) :
  needs "." r = true ->
  free "." rest = true ->
  String.length first = n ->
  (forall j, (j < n)%nat ->
      run r (accept j) j None (Str.drop j (first +:+ rest)) = None) ->
  group1 (exec r (first +:+ rest)) = None.
Proof.
  intros Hr Hrest <- Hfirst. now rewrite (exec_fails_after "." r first rest).
Qed.

(** The identifier is returned from a link of each of the five patterns:
    the sharing link, the open link, a document link, the direct download
    with the identifier last, and the edit link. *)
Lemma other_links_parsed :
  parseGoogleDriveUrl (viewLink id) = Some id /\
  parseGoogleDriveUrl (openLink id) = Some id /\
  parseGoogleDriveUrl (docsLink id) = Some id /\
  parseGoogleDriveUrl (downloadLink id) = Some id /\
  parseGoogleDriveUrl (editLink id) = Some id.
Proof.
  pose proof id_free as Hfree.
  assert (Hedit : free "." (id +:+ "/edit") = true)
    by (unfold free in *; rewrite all_app, Hfree; reflexivity).
  unfold parseGoogleDriveUrl.
  cbn [GOOGLE_DRIVE_PATTERNS map snd first_capture].
  repeat split.
  - change (Str.truthy (viewLink id)) with true. cbn [negb].
    unfold viewLink. now rewrite standardView_file.
  - change (Str.truthy (openLink id)) with true. cbn [negb].
    rewrite openFormat_open. unfold openLink.
    rewrite (unmatched_before standardView _ _ 33); auto.
    intros j Hj. do 33 (destruct j as [|j]; [reflexivity|]). lia.
  - change (Str.truthy (docsLink id)) with true. cbn [negb].
    rewrite docsFormat_docs. unfold docsLink.
    rewrite (unmatched_before standardView _ _ 35),
      (unmatched_before openFormat _ _ 35); auto;
      intros j Hj; do 35 (destruct j as [|j]; [reflexivity|]); lia.
  - change (Str.truthy (downloadLink id)) with true. cbn [negb].
    rewrite directDownload_download. unfold downloadLink.
    rewrite (unmatched_before standardView _ _ 47),
      (unmatched_before openFormat _ _ 47),
      (unmatched_before docsFormat _ _ 47); auto;
      intros j Hj; do 47 (destruct j as [|j]; [reflexivity|]); lia.
  - change (Str.truthy (editLink id)) with true. cbn [negb].
    unfold editLink. now rewrite standardView_file.
Qed.

End Shapes.

End UrlParserFacts.

(* ===================================================================== *)
(** * The URL resolver *)
(* ===================================================================== *)

Module UrlParserProps.
Import Regex RegexFacts UrlParser UrlParserFacts Links TokenPage.
#[local] Arguments String.append _ _ : simpl nomatch.

(** C3 at the link that fails. For every identifier, the direct-download
    link with the identifier first, uc?id=ID&export=download, the very
    link of the comment on [directDownload], matches none of the patterns:
    [parseGoogleDriveUrl] returns null and [isValidGoogleDriveUrl] false. *)
Theorem uc_id_first_not_parsed (id : string) :
  Str.all word_dash id = true ->
  parseGoogleDriveUrl (ucIdFirst id) = None /\
  isValidGoogleDriveUrl (ucIdFirst id) = false.
Proof.
  intros Hid. pose proof (ucIdFirst_unmatched id Hid) as H.
  unfold parseGoogleDriveUrl, isValidGoogleDriveUrl, test.
  change (Str.truthy (ucIdFirst id)) with true. cbn [negb].
  cbn [GOOGLE_DRIVE_PATTERNS map snd first_capture existsb].
  rewrite (H standardView), (H openFormat), (H docsFormat), (H directDownload),
    (H editFormat) by (cbn; auto 10).
  split; reflexivity.
Qed.


Lemma uc_id_first_not_parsed_witness :
  parseGoogleDriveUrl
    "https://drive.google.com/uc?id=1BxiMVs0XRA5nFMdKvBdBZjgmUUqptlbs74OgvE2upms&export=download"
  = None.
Proof.
  apply (proj1 (uc_id_first_not_parsed
                  "1BxiMVs0XRA5nFMdKvBdBZjgmUUqptlbs74OgvE2upms" eq_refl)).
Defined.

(** C9. [isValidFileId] rejects every string shorter than 25 or longer
    than 50 characters, and accepts a string exactly when its length is
    between 25 and 50 inclusive and all its characters are in
    [a-zA-Z0-9_-]. *)
Theorem isValidFileId_bounds (fileId : string) :
  ((String.length fileId < 25)%nat -> isValidFileId fileId = false) /\
  ((50 < String.length fileId)%nat -> isValidFileId fileId = false) /\
  (isValidFileId fileId = true <->
   (25 <= String.length fileId <= 50)%nat /\ Str.all word_dash fileId = true).
Proof.
  rewrite isValidFileId_bool. unfold within.
  repeat split.
  - intros H. apply andb_false_iff; right. apply andb_false_iff; left.
    apply Nat.leb_gt. exact H.
  - intros H. apply andb_false_iff; right. apply andb_false_iff; right.
    apply Nat.leb_gt. exact H.
  - apply andb_true_iff in H as [_ H]. apply andb_true_iff in H as [H _].
    now apply Nat.leb_le.
  - apply andb_true_iff in H as [_ H]. apply andb_true_iff in H as [_ H].
    now apply Nat.leb_le.
  - now apply andb_true_iff in H as [H _].
  - intros [[H1 H2] H3]. rewrite H3. cbn [andb].
    apply andb_true_iff; split; now apply Nat.leb_le.
Qed.

Lemma isValidFileId_bounds_witness :
  isValidFileId "short" = false /\
  isValidFileId "0123456789abcdefghijABCDEFGHIJ_-" = true.
Proof.
  split.
  - apply (proj1 (isValidFileId_bounds "short")). vm_compute. lia.
  - apply (proj2 (proj2 (isValidFileId_bounds "0123456789abcdefghijABCDEFGHIJ_-"))).
    vm_compute. split; [lia | reflexivity].
Defined.

(** C10. The patterns capture identifiers of any positive length, so some
    URL is accepted by [isValidGoogleDriveUrl] although the identifier
    [parseGoogleDriveUrl] extracts from it fails [isValidFileId]; for every
    such URL [generateDownloadUrl] on the identifier throws 'Invalid file
    ID provided', and so does [analyzeGoogleDriveUrl] on the URL, instead
    of returning null. *)
Theorem parser_validator_gap :
  (forall id,
      id <> EmptyString -> Str.all word_dash id = true ->
      isValidGoogleDriveUrl (viewLink id) = true /\
      parseGoogleDriveUrl (viewLink id) = Some id) /\
  (exists url fileId,
      isValidGoogleDriveUrl url = true /\
      parseGoogleDriveUrl url = Some fileId /\
      (String.length fileId < 25)%nat /\
      isValidFileId fileId = false) /\
  (forall url fileId,
      isValidGoogleDriveUrl url = true ->
      parseGoogleDriveUrl url = Some fileId ->
      isValidFileId fileId = false ->
      generateDownloadUrl fileId = Throw InvalidFileIdProvided /\
      analyzeGoogleDriveUrl url = Throw InvalidFileIdProvided).
Proof.
  split; [|split].
  - intros id Hne Hid. split; [|now apply other_links_parsed].
    unfold isValidGoogleDriveUrl, test. change (Str.truthy (viewLink id)) with true.
    cbn [negb GOOGLE_DRIVE_PATTERNS existsb snd].
    pose proof (standardView_file id Hid Hne "/view" eq_refl) as H.
    fold (viewLink id) in H. now destruct (exec standardView (viewLink id)).
  - exists "https://drive.google.com/file/d/abc/view"%string, "abc"%string.
    vm_compute. repeat split; lia.
  - intros url fileId Hvalid Hparse Hid.
    assert (Hgen : generateDownloadUrl fileId = Throw InvalidFileIdProvided)
      by (unfold generateDownloadUrl; now rewrite Hid).
    split; [exact Hgen|].
    unfold analyzeGoogleDriveUrl. now rewrite Hvalid, Hparse, Hgen.
Qed.

Lemma parser_validator_gap_witness :
  analyzeGoogleDriveUrl "https://drive.google.com/open?id=abc"
  = Throw InvalidFileIdProvided.
Proof.
  apply (proj2 (proj2 parser_validator_gap)
           "https://drive.google.com/open?id=abc"%string "abc"%string);
    reflexivity.
Defined.

(** C7, as the code has it. For every token of one or more characters
    that the pattern it is written in admits ([a-zA-Z0-9_-] for the query
    parameter confirm=token and for the same after an ampersand, anything
    but a double quote for the hidden form field and for the JSON field)
    and every body that carries it in exactly one of the four recognized
    patterns, [extractConfirmationToken] returns that token, whichever
    pattern the body used. *)
Theorem token_found (st : Style) (token pre post : string) :
  token <> EmptyString ->
  Str.all (admits st) token = true ->
  delimited st post = true ->
  sole_embedding st pre (pre +:+ embed st token +:+ post) ->
  extractConfirmationToken (pre +:+ embed st token +:+ post) = Some token.
Proof.
  intros Hne Hall Hdel (Hquery & Hfield & Hjson). unfold extractConfirmationToken.
  rewrite truthy_app by (now destruct st). cbn [negb].
  unfold tokenPatterns. cbn [first_capture].
  set (body := pre +:+ embed st token +:+ post) in *.
  assert (Hlen : forall n, (n <= String.length (embed st token))%nat ->
                           (String.length pre + n <= String.length body)%nat).
  { intros n Hn. unfold body. rewrite !length_append. lia. }
  assert (Hdrop : forall n, Str.drop (String.length pre + n) body
                            = Str.drop n (embed st token +:+ post)).
  { intros n. unfold body. apply drop_app_plus. }
  destruct st; cbn [embed admits] in *.
  - rewrite (exec_param body token post (String.length pre)); auto.
    + specialize (Hlen 0%nat). rewrite Nat.add_0_r in Hlen. apply Hlen. lia.
    + specialize (Hdrop 0%nat). rewrite Nat.add_0_r in Hdrop. rewrite Hdrop.
      cbn [Str.drop]. now rewrite append_assoc.
  - unfold paramPattern at 1. cbn [seq].
    rewrite (search_absent "" queryHead) by assumption.
    cbn [group1].
    rewrite (exec_field body token post (String.length pre)); auto.
    + specialize (Hlen 0%nat). rewrite Nat.add_0_r in Hlen. apply Hlen. lia.
    + specialize (Hdrop 0%nat). rewrite Nat.add_0_r in Hdrop. rewrite Hdrop.
      cbn [Str.drop]. now rewrite !append_assoc.
  - rewrite (exec_param body token post (S (String.length pre))); auto.
    + rewrite <- Nat.add_1_r. apply Hlen. cbn. lia.
    + rewrite <- Nat.add_1_r, Hdrop, append_assoc.
      change 1%nat with (String.length "&"). apply drop_app.
  - unfold paramPattern, fieldPattern, ampPattern. cbn [seq].
    rewrite (search_absent "" queryHead), (search_absent "" fieldHead),
      (search_absent "&" queryHead) by assumption.
    cbn [group1].
    rewrite (exec_json body token post (String.length pre)); auto.
    + specialize (Hlen 0%nat). rewrite Nat.add_0_r in Hlen. apply Hlen. lia.
    + specialize (Hdrop 0%nat). rewrite Nat.add_0_r in Hdrop. rewrite Hdrop.
      cbn [Str.drop]. now rewrite !append_assoc.
Qed.

Lemma token_found_witness :
  extractConfirmationToken
    ("<a href=/uc?export=download" +:+ embed AmpParam "t0K_n" +:+ "&id=abc>")
  = Some "t0K_n"%string /\
  extractConfirmationToken
    ("<input type=hidden " +:+ embed HiddenField "t0K_n" +:+ ">")
  = Some "t0K_n"%string /\
  extractConfirmationToken ("{" +:+ embed JsonField "a.b" +:+ "}")
  = Some "a.b"%string.
Proof.
  split; [|split]; apply token_found;
    first [discriminate | reflexivity | repeat split; reflexivity].
Defined.

(** C7, as stated: the token a.b written as a JSON field is returned
    whole, written as a query parameter it is returned cut at the dot,
    each body carrying it in one pattern only. *)
Lemma token_patterns_disagree :
  sole_embedding JsonField "" (embed JsonField "a.b") /\
  extractConfirmationToken (embed JsonField "a.b") = Some "a.b"%string /\
  sole_embedding QueryParam "" (embed QueryParam "a.b") /\
  extractConfirmationToken (embed QueryParam "a.b") = Some "a"%string.
Proof. repeat split. Qed.

End UrlParserProps.

(* ===================================================================== *)
(** * The type classifier *)
(* ===================================================================== *)

Module FileHandlerProps.
Import FileHandler.

Lemma eqb_of_includes (l : list string) (x y : string) :
  includes l x = false -> In y l -> String.eqb x y = false.
Proof.
  unfold includes. intros H Hin.
  destruct (String.eqb x y) eqn:E; [|reflexivity].
  rewrite <- H. symmetry. apply existsb_exists. eauto.
Qed.

(** C5, as the code has it. For every MIME type and file name the
    send-method mapping returns exactly one of five methods: sendVideo,
    sendPhoto, sendAudio, sendDocument, or sendAnimation. sendAnimation is
    returned exactly for a file name that ends in .gif, whatever its case,
    with a MIME type that is in neither supported list and does not start
    with audio/; the other four are returned as the tests before theirs
    fail and theirs holds: the list of video types, the list of image
    types, the prefix audio/, and nothing of all these for sendDocument. *)
Theorem determineSendMethod_methods (fileType : option FileType) (fileName : string) :
  let mimeType := mimeOf fileType in
  let video := includes Config.SUPPORTED_VIDEO_TYPES mimeType in
  let image := includes Config.SUPPORTED_IMAGE_TYPES mimeType in
  let audio := Str.startsWith mimeType "audio/" in
  let gif := Str.endsWith (Str.toLowerCase fileName) ".gif" in
  let m := send_method (determineSendMethod fileType fileName) in
  In m ["sendVideo"; "sendPhoto"; "sendAudio"; "sendAnimation"; "sendDocument"]%string
  /\ (m = "sendVideo"%string <-> video = true)
  /\ (m = "sendPhoto"%string <-> video = false /\ image = true)
  /\ (m = "sendAudio"%string <-> video = false /\ image = false /\ audio = true)
  /\ (m = "sendAnimation"%string <->
      video = false /\ image = false /\ audio = false /\ gif = true)
  /\ (m = "sendDocument"%string <->
      video = false /\ image = false /\ audio = false /\ gif = false).
Proof.
  unfold determineSendMethod. fold (mimeOf fileType).
  set (mimeType := mimeOf fileType). cbv zeta.
  destruct (includes Config.SUPPORTED_VIDEO_TYPES mimeType);
    [cbn; intuition (auto 10; discriminate)|].
  destruct (includes Config.SUPPORTED_IMAGE_TYPES mimeType) eqn:Himg;
    [cbn; intuition (auto 10; discriminate)|].
  destruct (Str.startsWith mimeType "audio/");
    [cbn; intuition (auto 10; discriminate)|].
  rewrite (eqb_of_includes _ _ "image/gif"%string Himg) by (cbn; auto 10).
  cbn [orb].
  destruct (Str.endsWith (Str.toLowerCase fileName) ".gif");
    cbn; intuition (auto 10; discriminate).
Qed.

(** C5, as stated: a file name ending in .gif with an unlisted MIME type
    is mapped to a fifth method, sendAnimation. *)
Lemma determineSendMethod_fifth_method :
  ~ In (send_method (determineSendMethod None "clip.GIF"))
      ["sendVideo"; "sendPhoto"; "sendAudio"; "sendDocument"]%string.
Proof. vm_compute. intros [H|[H|[H|[H|[]]]]]; discriminate H. Qed.

Section Tiers.
Variable Buffer : Type.
Variable fileTypeFromFile : string -> result (option Detected).
Variable path_extname : string -> string.
Variable mime_getType : string -> option string.
Variable fs_readFile : string -> Z -> Z -> result Buffer.
Variable fileTypeFromBuffer : Buffer -> result (option Detected).

Let classify : string -> FileType :=
  getFileType Buffer fileTypeFromFile path_extname mime_getType fs_readFile
    fileTypeFromBuffer.
Let extensionMime : string -> option string :=
  FileHandler.extensionMime path_extname mime_getType.
Let bufferType : string -> result (option Detected) :=
  FileHandler.bufferType Buffer fs_readFile fileTypeFromBuffer.


(** [getFileType] in terms of its three tiers. *)
Lemma getFileType_by_tier (filePath : string) :
  classify filePath =
  match fileTypeFromFile filePath with
  | Throw e => errorFallback e
  | Return (Some d) =>
      {| ext := d_ext d; mime := d_mime d; method := "magic-numbers";
         confidence := "high"; error := None |}
  | Return None =>
      match extensionMime filePath with
      | Some m =>
          {| ext := Str.drop 1 (Str.toLowerCase (path_extname filePath));
             mime := m; method := "extension"; confidence := "medium";
             error := None |}
      | None =>
          match bufferType filePath with
          | Throw e => errorFallback e
          | Return (Some d) =>
              {| ext := d_ext d; mime := d_mime d; method := "buffer-analysis";
                 confidence := "high"; error := None |}
          | Return None =>
              {| ext := "bin"; mime := "application/octet-stream";
                 method := "default"; confidence := "low"; error := None |}
          end
      end
  end.
Proof.
  unfold classify, getFileType, extensionMime, bufferType,
    FileHandler.extensionMime, FileHandler.bufferType.
  destruct (fileTypeFromFile filePath) as [[d|]|e]; try reflexivity.
  destruct (Str.truthy (Str.toLowerCase (path_extname filePath)));
    [destruct (mime_getType _) as [m|]; [destruct (Str.truthy m)|]|];
    try reflexivity;
    destruct (fs_readFile filePath 0 4100) as [buffer|e]; reflexivity.
Qed.

(** C8, as the code has it. [getFileType] returns the full-file
    magic-number result when there is one. When that detection resolves
    without a result, it returns the extension lookup result if the
    extension maps to a MIME type; otherwise the result of sniffing the
    first bytes when there is one; and when all three tiers find nothing,
    extension bin with MIME application/octet-stream at confidence low,
    the lowest of the three levels it uses. When a call of a tier that is
    reached rejects (the full-file detection, or the reading or sniffing
    of the first bytes) the remaining tiers are not tried: the catch block
    returns the same generic type, with method error-fallback. *)
Theorem getFileType_tiers (filePath : string) :
  (forall d, fileTypeFromFile filePath = Return (Some d) ->
     classify filePath =
     {| ext := d_ext d; mime := d_mime d; method := "magic-numbers";
        confidence := "high"; error := None |}) /\
  (forall m, fileTypeFromFile filePath = Return None ->
     extensionMime filePath = Some m ->
     classify filePath =
     {| ext := Str.drop 1 (Str.toLowerCase (path_extname filePath));
        mime := m; method := "extension"; confidence := "medium";
        error := None |}) /\
  (forall d, fileTypeFromFile filePath = Return None ->
     extensionMime filePath = None ->
     bufferType filePath = Return (Some d) ->
     classify filePath =
     {| ext := d_ext d; mime := d_mime d; method := "buffer-analysis";
        confidence := "high"; error := None |}) /\
  (fileTypeFromFile filePath = Return None ->
   extensionMime filePath = None ->
   bufferType filePath = Return None ->
   classify filePath =
   {| ext := "bin"; mime := "application/octet-stream"; method := "default";
      confidence := "low"; error := None |}) /\
  (forall e, fileTypeFromFile filePath = Throw e ->
     classify filePath = errorFallback e) /\
  (forall e, fileTypeFromFile filePath = Return None ->
     extensionMime filePath = None ->
     bufferType filePath = Throw e ->
     classify filePath = errorFallback e) /\
  (forall e,
     ext (errorFallback e) = "bin"%string /\
     mime (errorFallback e) = "application/octet-stream"%string /\
     method (errorFallback e) = "error-fallback"%string /\
     confidence (errorFallback e) = "low"%string).
Proof.
  rewrite getFileType_by_tier. repeat apply conj.
  - now intros d ->.
  - now intros m -> ->.
  - now intros d -> -> ->.
  - now intros -> -> ->.
  - now intros e ->.
  - now intros e -> -> ->.
  - intros e. repeat split.
Qed.

End Tiers.

(** C8, as stated: the file report.pdf cannot be opened, so the full-file
    detection rejects and no magic-number result exists; its extension
    maps to application/pdf; yet what [getFileType] returns is not the
    extension lookup result but the generic type of the catch block. *)
Lemma getFileType_rejection_skips_extension :
  Scenarios.unreadable "report.pdf" = Throw Scenarios.denied /\
  extensionMime Scenarios.extname_of_pdf Scenarios.mime_of_pdf "report.pdf"
  = Some "application/pdf"%string /\
  mime (getFileType unit Scenarios.unreadable Scenarios.extname_of_pdf
          Scenarios.mime_of_pdf Scenarios.unreadable_bytes
          Scenarios.nothing_sniffed "report.pdf")
  = "application/octet-stream"%string /\
  method (getFileType unit Scenarios.unreadable Scenarios.extname_of_pdf
            Scenarios.mime_of_pdf Scenarios.unreadable_bytes
            Scenarios.nothing_sniffed "report.pdf")
  = "error-fallback"%string.
Proof. repeat split. Qed.

End FileHandlerProps.


(* ===================================================================== *)
(** * The retry wrapper *)
(* ===================================================================== *)

Module ErrorHandlerProps.
Import ErrorHandler.

Section Facts.
Context {S A E : Type}.
Variable operation : S -> (A + E) * S.
Variable o : Options E.

Lemma invocations_call (w : World S) :
  invocations (snd (call operation w)) = Datatypes.S (invocations w).
Proof.
  unfold call, invocations. destruct (operation (state w)) as [r s']. cbn.
  rewrite List.filter_app, List.length_app. cbn. lia.
Qed.

Lemma state_call (w : World S) :
  state (snd (call operation w)) = snd (operation (state w)) /\
  fst (call operation w) = fst (operation (state w)).
Proof. unfold call. now destruct (operation (state w)). Qed.

Lemma invocations_wait (ms : Z) (w : World S) :
  invocations (note (Wait ms) w) = invocations w.
Proof.
  unfold note, invocations. cbn.
  rewrite List.filter_app, List.length_app. cbn. lia.
Qed.

Lemma retry_loop_success (n : nat) attempt lastError (w : World S) (a : A) :
  fst (operation (state w)) = inl a ->
  retry_loop operation o (Datatypes.S n) attempt lastError w
  = (inl a, snd (call operation w)).
Proof.
  intros H. cbn [retry_loop]. destruct (state_call w) as [_ Hfst].
  rewrite H in Hfst. destruct (call operation w) as [r w1].
  cbn in Hfst |- *. now subst r.
Qed.

Lemma retry_loop_failure (n : nat) attempt lastError (w : World S) (e : E) :
  fst (operation (state w)) = inr e ->
  the_retryCondition o e = true ->
  attempt <> the_maxRetries o ->
  retry_loop operation o (Datatypes.S n) attempt lastError w
  = retry_loop operation o n (attempt + 1) (Some e)
      (note (Wait (Z.min (the_baseDelay o * 2 ^ (attempt - 1)) (the_maxDelay o)))
         (snd (call operation w))).
Proof.
  intros H Hcond Hne. cbn [retry_loop]. destruct (state_call w) as [_ Hfst].
  rewrite H in Hfst. destruct (call operation w) as [r w1].
  cbn in Hfst |- *. subst r. rewrite Hcond.
  now replace (attempt =? the_maxRetries o) with false
    by (symmetry; apply Z.eqb_neq; lia).
Qed.

(** The loop on an operation that keeps failing, under a condition that
    retries every error: it runs all its iterations and rejects with the
    error of the last call. *)
Lemma retry_loop_all_fail (n : nat) :
  forall attempt lastError (w : World S),
    (forall e, the_retryCondition o e = true) ->
    (forall k, exists e, fst (operation (after operation k (state w))) = inr e) ->
    attempt + Z.of_nat n = the_maxRetries o ->
    exists e,
      fst (retry_loop operation o (Datatypes.S n) attempt lastError w) = inr (Some e) /\
      invocations (snd (retry_loop operation o (Datatypes.S n) attempt lastError w))
      = (invocations w + Datatypes.S n)%nat /\
      fst (operation (after operation n (state w))) = inr e.
Proof.
  induction n as [|n IH]; intros attempt lastError w Hcond Hfail Hlast.
  - destruct (Hfail 0%nat) as [e He]. cbn [after] in He.
    exists e. cbn [retry_loop].
    pose proof (invocations_call w) as Hinv.
    destruct (state_call w) as [_ Hfst]. rewrite He in Hfst.
    destruct (call operation w) as [r w1]. cbn in Hfst, Hinv. subst r.
    rewrite Hcond. replace (attempt =? the_maxRetries o) with true
      by (symmetry; apply Z.eqb_eq; lia).
    cbn. repeat split; [lia | exact He].
  - destruct (Hfail 0%nat) as [e He]. cbn [after] in He.
    pose proof (invocations_call w) as Hinv.
    destruct (state_call w) as [Hst Hfst]. rewrite He in Hfst.
    remember (Datatypes.S n) as m eqn:Hm.
    cbn [retry_loop].
    destruct (call operation w) as [r w1]. cbn in Hfst, Hinv, Hst. subst r.
    rewrite Hcond. replace (attempt =? the_maxRetries o) with false
      by (symmetry; apply Z.eqb_neq; lia).
    cbn [negb orb].
    set (w2 := note (Wait _) w1).
    destruct (IH (attempt + 1) (Some e) w2 Hcond) as [e' (H1 & H2 & H3)].
    + intros k. destruct (Hfail (Datatypes.S k)) as [ek Hk].
      exists ek. cbn [after] in Hk. unfold w2. cbn [note state]. now rewrite Hst.
    + lia.
    + subst m. exists e'. repeat split.
      * exact H1.
      * rewrite H2. unfold w2. rewrite invocations_wait, Hinv. lia.
      * cbn [after]. unfold w2 in H3. cbn [note state] in H3. now rewrite <- Hst.
Qed.

End Facts.

(** The counts of the wrapper under any retry condition that retries every
    error. *)
Lemma retryOperation_counts {S A E : Type}
    (operation : S -> (A + E) * S) (o : Options E) (s0 : S) :
  (forall e, the_retryCondition o e = true) ->
  1 <= the_maxRetries o ->
  let run := retryOperation operation o {| state := s0; events := [] |} in
  (forall e1 e2 a,
      3 <= the_maxRetries o ->
      fst (operation (after operation 0 s0)) = inr e1 ->
      fst (operation (after operation 1 s0)) = inr e2 ->
      fst (operation (after operation 2 s0)) = inl a ->
      fst run = inl a /\ invocations (snd run) = 3%nat) /\
  ((forall k, exists e, fst (operation (after operation k s0)) = inr e) ->
   exists e,
     fst run = inr (Some e) /\
     invocations (snd run) = Z.to_nat (the_maxRetries o) /\
     fst (operation (after operation (Z.to_nat (the_maxRetries o) - 1) s0)) = inr e).
Proof.
  intros Hcond Hmax run. subst run. unfold retryOperation. split.
  - intros e1 e2 a H3 F1 F2 F3.
    destruct (Z.to_nat (the_maxRetries o)) as [|[|[|n]]] eqn:Hn; try lia.
    cbn [after] in F1, F2, F3.
    rewrite (retry_loop_failure _ _ _ _ _ _ e1) by (auto; cbn; lia).
    set (w1 := note _ _).
    assert (Hs1 : state w1 = snd (operation s0))
      by (unfold w1; cbn [note state]; apply state_call).
    rewrite (retry_loop_failure _ _ _ _ _ _ e2)
      by (rewrite ?Hs1; auto; cbn; lia).
    set (w2 := note _ _).
    assert (Hs2 : state w2 = snd (operation (snd (operation s0))))
      by (unfold w2; cbn [note state];
          rewrite (proj1 (state_call _ _)); now rewrite Hs1).
    rewrite (retry_loop_success _ _ _ _ _ _ a) by (now rewrite Hs2).
    split; [reflexivity|]. cbn [snd].
    rewrite invocations_call. unfold w2. rewrite invocations_wait.
    rewrite invocations_call. unfold w1. rewrite invocations_wait.
    rewrite invocations_call. reflexivity.
  - intros Hfail.
    destruct (Z.to_nat (the_maxRetries o)) as [|n] eqn:Hn; [lia|].
    destruct (retry_loop_all_fail operation o n 1 None
                {| state := s0; events := [] |} Hcond Hfail) as [e (H1 & H2 & H3)];
      [lia|].
    exists e. repeat split; [exact H1 | rewrite H2; reflexivity |].
    replace (Datatypes.S n - 1)%nat with n by lia. exact H3.
Qed.

(** C6. For every operation and maxRetries >= 1 (whatever the delays, the
    retry condition being the default one): if the operation fails on its
    first two invocations and succeeds on the third, with maxRetries >= 3,
    the wrapper returns the success result and invokes the operation
    exactly three times; if the operation fails on every invocation, the
    wrapper invokes it exactly maxRetries times and then throws the error
    of the last invocation. *)
Theorem retryOperation_invocations {S A E : Type}
    (operation : S -> (A + E) * S) (n : Z) (base cap : option Z) (s0 : S) :
  1 <= n ->
  let o := {| maxRetries := Some n; baseDelay := base; maxDelay := cap;
              retryCondition := None |} in
  let run := retryOperation operation o {| state := s0; events := [] |} in
  (forall e1 e2 a,
      3 <= n ->
      fst (operation (after operation 0 s0)) = inr e1 ->
      fst (operation (after operation 1 s0)) = inr e2 ->
      fst (operation (after operation 2 s0)) = inl a ->
      fst run = inl a /\ invocations (snd run) = 3%nat) /\
  ((forall k, exists e, fst (operation (after operation k s0)) = inr e) ->
   exists e,
     fst run = inr (Some e) /\
     invocations (snd run) = Z.to_nat n /\
     fst (operation (after operation (Z.to_nat n - 1) s0)) = inr e).
Proof.
  intros Hn o.
  exact (retryOperation_counts operation o s0 (fun _ => eq_refl) Hn).
Qed.

(** A counter as the operation: call number [k] fails with [k] while
    [k < 2], then succeeds; and one that fails at every call. *)
Lemma retryOperation_invocations_witness :
  let flaky (k : nat) : (string + nat) * nat :=
    (if (k <? 2)%nat then inr k else inl "done"%string, Datatypes.S k) in
  let broken (k : nat) : (string + nat) * nat := (inr k, Datatypes.S k) in
  let o := {| maxRetries := Some 3; baseDelay := None; maxDelay := None;
              retryCondition := None |} in
  let run1 := retryOperation flaky o {| state := 0%nat; events := [] |} in
  let run2 := retryOperation broken o {| state := 0%nat; events := [] |} in
  (fst run1 = inl "done"%string /\ invocations (snd run1) = 3%nat) /\
  (exists e, fst run2 = inr (Some e) /\ invocations (snd run2) = 3%nat /\ e = 2%nat).
Proof.
  intros flaky broken o. split.
  - exact (proj1 (retryOperation_invocations flaky 3 None None 0%nat
                    ltac:(discriminate))
             0%nat 1%nat "done"%string ltac:(discriminate) eq_refl eq_refl eq_refl).
  - destruct (proj2 (retryOperation_invocations broken 3 None None 0%nat
                       ltac:(discriminate))
                (fun k => ex_intro _ _ eq_refl)) as [e (H1 & H2 & H3)].
    exists e. split; [exact H1 | split; [exact H2|]].
    cbn in H3. now injection H3.
Defined.

End ErrorHandlerProps.


(* ===================================================================== *)
(** * The downloader *)
(* ===================================================================== *)

Module GoogleDriveFacts.
Import Config GoogleDrive.

Section Facts.
Variable config : Config.
Variable network : nat -> string -> result Response.
Variable extractFileName : Response -> option string.
Variable generateUniqueFilePath : string -> gmap string string -> result string.

Local Abbreviation attempt :=
  (attempt config network extractFileName generateUniqueFilePath).
Local Abbreviation attempts :=
  (attempts config network extractFileName generateUniqueFilePath).
Local Abbreviation attemptDownload :=
  (attemptDownload config network extractFileName generateUniqueFilePath).
Local Abbreviation downloadGoogleDriveFile :=
  (downloadGoogleDriveFile config network extractFileName generateUniqueFilePath).

(** ** Streaming to a file *)

Lemma total_nonneg (chunks : list string) : 0 <= total chunks.
Proof. induction chunks as [|c cs IH]; cbn [total]; lia. Qed.

Lemma pump_return chunks ending filePath : forall fileSize f n f',
  pump config chunks ending filePath fileSize f = (Return n, f') ->
  n = fileSize + total chunks /\
  (fileSize <= MAX_FILE_SIZE_BYTES config -> n <= MAX_FILE_SIZE_BYTES config).
Proof.
  induction chunks as [|c cs IH]; intros fileSize f n f' H; cbn in H.
  - destruct ending; [|discriminate]. injection H as <- <-. cbn. lia.
  - destruct (_ >? _) eqn:Hgt; [discriminate|].
    apply IH in H as [-> H]. cbn [total]. split; [lia|].
    intros _. apply H. lia.
Qed.

Lemma pump_over chunks ending filePath : forall fileSize f,
  0 <= fileSize ->
  fileSize + total chunks > MAX_FILE_SIZE_BYTES config ->
  fileSize <= MAX_FILE_SIZE_BYTES config ->
  exists f',
    pump config chunks ending filePath fileSize f = (Throw StreamExceedsLimit, f')
    /\ f' !! filePath = None.
Proof.
  induction chunks as [|c cs IH]; intros fileSize f H0 Hover Hle; cbn in *.
  - lia.
  - destruct (_ >? _) eqn:Hgt.
    + eexists; split; [reflexivity | apply lookup_delete_eq].
    + apply IH; lia.
Qed.

Lemma validate_cap : validate config = true -> 0 <= MAX_FILE_SIZE_BYTES config.
Proof.
  unfold validate, MAX_FILE_SIZE_BYTES. intros H.
  apply andb_true_iff in H as [H _]. apply negb_true_iff in H.
  apply orb_false_iff in H as [H _]. apply Z.leb_gt in H. lia.
Qed.

Lemma streamToFile_return stream filePath w n w' :
  0 <= MAX_FILE_SIZE_BYTES config ->
  streamToFile config stream filePath w = (Return n, w') ->
  n <= MAX_FILE_SIZE_BYTES config /\ requests w' = requests w /\ timers w' = timers w.
Proof.
  unfold streamToFile. intros Hcap H.
  destruct (pump _ _ _ _ _ _) as [r f] eqn:Hp. injection H as -> <-.
  apply pump_return in Hp as [_ Hp]. auto.
Qed.

Lemma streamToFile_logs stream filePath w r w' :
  streamToFile config stream filePath w = (r, w') ->
  requests w' = requests w /\ timers w' = timers w.
Proof.
  unfold streamToFile. intros H.
  destruct (pump _ _ _ _ _ _) as [r0 f]. injection H as <- <-. auto.
Qed.

Section Loop.
Variable again :
  string -> string -> Options -> World -> option (result Download * World).

Lemma handleVirusScanPage_capped response fileId options w d w' :
  capped config again ->
  handleVirusScanPage again response fileId options w = Some (Return d, w') ->
  fileSize d <= MAX_FILE_SIZE_BYTES config.
Proof.
  unfold handleVirusScanPage. intros Hagain H.
  destruct (streamToString _); [|discriminate].
  destruct (UrlParser.extractConfirmationToken _); [|discriminate].
  destruct (UrlParser.generateConfirmationUrl _ _) as [confirmUrl|]; [|discriminate].
  destruct (again confirmUrl fileId _ w) as [[[d0|e] w0]|] eqn:Hrec; try discriminate.
  injection H as <- <-. eapply Hagain, Hrec.
Qed.

Lemma attempt_capped url fileId options w d w' :
  0 <= MAX_FILE_SIZE_BYTES config ->
  capped config again ->
  attempt again url fileId options w = Some (Return d, w') ->
  fileSize d <= MAX_FILE_SIZE_BYTES config.
Proof.
  unfold GoogleDrive.attempt, axios. intros Hcap Hagain H.
  destruct (network _ url) as [response|e]; [|discriminate].
  destruct (isHtml response).
  { eapply handleVirusScanPage_capped; eauto. }
  destruct (match parseInt _ with Some n => _ | None => false end); [discriminate|].
  destruct (generateUniqueFilePath _ _) as [path|e]; [|discriminate].
  destruct (streamToFile _ _ _ _) as [[n|e] w0] eqn:Hs; [|discriminate].
  injection H as <- <-. cbn [fileSize].
  now apply streamToFile_return in Hs.
Qed.

Lemma attempts_capped url fileId options maxRetries n :
  forall attempt_no lastError w d w',
    0 <= MAX_FILE_SIZE_BYTES config ->
    capped config again ->
    attempts again url fileId options maxRetries n attempt_no lastError w
    = Some (Return d, w') ->
    fileSize d <= MAX_FILE_SIZE_BYTES config.
Proof.
  induction n as [|n IH]; intros attempt_no lastError w d w' Hcap Hagain H;
    cbn [GoogleDrive.attempts] in H; [discriminate|].
  destruct (attempt again url fileId options w) as [[[d0|e] w0]|] eqn:Ha;
    [|eapply IH; eauto|discriminate].
  injection H as <- <-. eapply attempt_capped; eauto.
Qed.




End Loop.

Lemma attemptDownload_capped budget :
  0 <= MAX_FILE_SIZE_BYTES config -> capped config (attemptDownload budget).
Proof.
  intros Hcap. induction budget as [|budget IH]; intros u f o w d w' H;
    cbn [GoogleDrive.attemptDownload] in H; [discriminate|].
  eapply attempts_capped; eauto.
Qed.


Lemma handleVirusScanPage_quiet again response fileId options w r w' :
  quiet again ->
  handleVirusScanPage again response fileId options w = Some (r, w') ->
  timers w' = timers w.
Proof.
  unfold handleVirusScanPage. intros Hagain H.
  destruct (streamToString _); [|now injection H as <- <-].
  destruct (UrlParser.extractConfirmationToken _); [|now injection H as <- <-].
  destruct (UrlParser.generateConfirmationUrl _ _) as [confirmUrl|];
    [|now injection H as <- <-].
  destruct (again confirmUrl fileId _ w) as [[[d0|e] w0]|] eqn:Hrec;
    try discriminate; injection H as <- <-; eapply Hagain, Hrec.
Qed.

Lemma attempt_quiet again url fileId options w r w' :
  quiet again ->
  attempt again url fileId options w = Some (r, w') ->
  timers w' = timers w.
Proof.
  unfold GoogleDrive.attempt, axios. intros Hagain H.
  destruct (network _ url) as [response|e]; [|now injection H as <- <-].
  destruct (isHtml response).
  { now apply handleVirusScanPage_quiet in H. }
  destruct (match parseInt _ with Some n => _ | None => false end);
    [now injection H as <- <-|].
  destruct (generateUniqueFilePath _ _) as [path|e]; [|now injection H as <- <-].
  destruct (streamToFile _ _ _ _) as [[n|e] w0] eqn:Hs;
    injection H as <- <-; now apply streamToFile_logs in Hs as [_ Hs].
Qed.

Lemma attemptDownload_quiet budget : quiet (attemptDownload budget).
Proof.
  induction budget as [|budget IH]; intros u f w r w' H;
    cbn [GoogleDrive.attemptDownload] in H; [discriminate|].
  change (the_maxRetries {| maxRetries := Some 1 |}) with 1 in H.
  change (Z.to_nat 1) with 1%nat in H. cbn [GoogleDrive.attempts] in H.
  destruct (attempt (attemptDownload budget) u f _ w) as [[[d0|e] w0]|] eqn:Ha;
    [| |discriminate]; apply attempt_quiet in Ha; try assumption.
  - now injection H as <- <-.
  - change (1 <? 1) with false in H. now injection H as <- <-.
Qed.

(** An attempt whose response is not a confirmation page issues one
    request and sets no timer. *)
Lemma attempt_plain again url fileId options w :
  (forall response,
      network (List.length (requests w)) url = Return response ->
      isHtml response = false) ->
  exists r w',
    attempt again url fileId options w = Some (r, w') /\
    requests w' = requests w ++ [url] /\ timers w' = timers w.
Proof.
  unfold GoogleDrive.attempt, axios. intros Hplain.
  destruct (network _ url) as [response|e]; [|eauto].
  rewrite (Hplain response eq_refl).
  destruct (match parseInt _ with Some n => _ | None => false end); [eauto|].
  destruct (generateUniqueFilePath _ _) as [path|e]; [|eauto].
  destruct (streamToFile _ _ _ _) as [[n|e] w0] eqn:Hs;
    apply streamToFile_logs in Hs as [Hr Ht]; eauto.
Qed.

(** The loop of [attemptDownload] counts as the wrapper does: when every
    request is rejected it makes maxRetries requests and throws the last
    rejection. *)
Lemma attempts_rejected again url fileId options maxRetries (n : nat)
    attempt_no lastError w e :
  network (List.length (requests w)) url = Throw e ->
  attempts again url fileId options maxRetries (S n) attempt_no lastError w
  = attempts again url fileId options maxRetries n (attempt_no + 1) (Some e)
      (let w1 := snd (axios network url w) in
       if attempt_no <? maxRetries
       then setTimeout (Z.min (1000 * 2 ^ (attempt_no - 1)) 5000) w1
       else w1).
Proof.
  intros He. cbn [GoogleDrive.attempts].
  unfold GoogleDrive.attempt at 1, axios. now rewrite He.
Qed.

Lemma attempts_all_rejected again url fileId options maxRetries (n : nat) :
  forall attempt_no lastError w,
    (forall i, exists e, network i url = Throw e) ->
    exists e w',
      attempts again url fileId options maxRetries (S n) attempt_no lastError w
      = Some (Throw e, w') /\
      requests w' = requests w ++ repeat url (S n) /\
      network (List.length (requests w) + n) url = Throw e.
Proof.
  induction n as [|n IH]; intros attempt_no lastError w Hnet;
    destruct (Hnet (List.length (requests w))) as [e He];
    rewrite (attempts_rejected _ _ _ _ _ _ _ _ _ e He).
  - exists e. rewrite Nat.add_0_r. eexists.
    split; [reflexivity|]. split; [|exact He].
    cbn. now destruct (attempt_no <? maxRetries).
  - match goal with
    | |- context [GoogleDrive.attempts _ _ _ _ _ _ _ _ _ (S n) ?a ?l ?w0] =>
        destruct (IH a l w0 Hnet) as [e' [w' (H1 & H2 & H3)]];
        assert (Hw0 : requests w0 = requests w ++ [url])
          by (cbn; now destruct (attempt_no <? maxRetries))
    end.
    exists e', w'. split; [exact H1|]. rewrite Hw0 in H2, H3.
    split; [rewrite H2, <- app_assoc; reflexivity|].
    rewrite <- H3. f_equal. rewrite List.length_app. cbn. lia.
Qed.

Lemma attemptDownload_all_rejected budget url fileId options w :
  (forall i, exists e, network i url = Throw e) ->
  1 <= the_maxRetries options ->
  exists e w',
    attemptDownload (S budget) url fileId options w = Some (Throw e, w') /\
    requests w' = requests w ++ repeat url (Z.to_nat (the_maxRetries options)) /\
    network (List.length (requests w) + (Z.to_nat (the_maxRetries options) - 1)) url
    = Throw e.
Proof.
  intros Hnet Hmax. cbn [GoogleDrive.attemptDownload].
  destruct (Z.to_nat (the_maxRetries options)) as [|n] eqn:Hn; [lia|].
  replace (S n - 1)%nat with n by lia. now apply attempts_all_rejected.
Qed.

(** ** Failures in a row *)







(** ** The claims *)

(** C1, as the code has it. For every download attempt whose response is
    not an HTML confirmation page: if the response declares a
    Content-Length greater than MAX_FILE_SIZE_BYTES the attempt fails with
    a file-size error and the files on disk are what they were; if the
    bytes streamed exceed MAX_FILE_SIZE_BYTES the attempt fails with a
    file-size error and the partial file does not exist afterward. No
    successful download result has a size above the limit. *)
Theorem size_cap_enforced :
  validate config = true ->
  (forall again url fileId options w response n,
      network (List.length (requests w)) url = Return response ->
      isHtml response = false ->
      parseInt (or_else (content_length response) "0") = Some n ->
      n > MAX_FILE_SIZE_BYTES config ->
      exists w',
        attempt again url fileId options w
        = Some (Throw (FileSizeExceedsLimit n), w') /\
        files w' = files w) /\
  (forall again url fileId options w response filePath,
      network (List.length (requests w)) url = Return response ->
      isHtml response = false ->
      match parseInt (or_else (content_length response) "0") with
      | Some n => n <= MAX_FILE_SIZE_BYTES config
      | None => True
      end ->
      generateUniqueFilePath
        (or_else (extractFileName response) ("file_" +:+ fileId +:+ ".bin"))
        (files w) = Return filePath ->
      total (chunks (data response)) > MAX_FILE_SIZE_BYTES config ->
      exists w',
        attempt again url fileId options w = Some (Throw StreamExceedsLimit, w') /\
        files w' !! filePath = None) /\
  (forall budget fileId options w d w',
      downloadGoogleDriveFile budget fileId options w = Some (Success d, w') ->
      fileSize d <= MAX_FILE_SIZE_BYTES config).
Proof.
  intros Hvalid. apply validate_cap in Hvalid. repeat split.
  - intros again url fileId options w response n Hnet Hhtml Hlen Hn.
    unfold GoogleDrive.attempt, axios. rewrite Hnet, Hhtml, Hlen.
    replace (n >? MAX_FILE_SIZE_BYTES config) with true
      by (symmetry; apply Z.gtb_gt; lia).
    eexists; split; reflexivity.
  - intros again url fileId options w response filePath Hnet Hhtml Hlen Hpath Hover.
    unfold GoogleDrive.attempt, axios. rewrite Hnet, Hhtml.
    replace (match parseInt (or_else (content_length response) "0") with
             | Some n => n >? MAX_FILE_SIZE_BYTES config
             | None => false
             end) with false.
    2:{ destruct (parseInt _) as [n|]; [|reflexivity].
        symmetry. rewrite Z.gtb_ltb. apply Z.ltb_ge. lia. }
    cbn [files]. rewrite Hpath. unfold streamToFile. cbn [files].
    destruct (pump_over (chunks (data response)) (ending (data response))
                filePath 0 (<[filePath := ""%string]> (files w)))
      as [f' [Hp Hf]]; [lia | lia | lia |].
    rewrite Hp. eexists; split; [reflexivity | exact Hf].
  - intros budget fileId options w d w' H.
    unfold GoogleDrive.downloadGoogleDriveFile in H.
    destruct (negb (Str.truthy fileId)); [discriminate|].
    destruct (UrlParser.generateDownloadUrl fileId) as [u|e]; [|discriminate].
    destruct (attemptDownload budget u fileId options w) as [[[d0|e] w0]|] eqn:Ha;
      try discriminate.
    injection H as <- <-. eapply attemptDownload_capped; eauto.
Qed.


(** C4, as the code has it. While a confirmation page is handled no
    backoff timer is set, however deep the handling goes and whatever the
    outer retry budget; and after a token is extracted, the download
    against the confirmation URL is attempted exactly once, without being
    retried there, when what it answers is not a confirmation page again. *)
Theorem confirmation_attempted_once :
  (forall budget response fileId options w r w',
      handleVirusScanPage (attemptDownload budget) response fileId options w
      = Some (r, w') ->
      timers w' = timers w) /\
  (forall budget response fileId options w htmlContent confirmToken confirmUrl,
      streamToString (data response) = Return htmlContent ->
      UrlParser.extractConfirmationToken htmlContent = Some confirmToken ->
      UrlParser.generateConfirmationUrl fileId confirmToken = Return confirmUrl ->
      (forall answer,
          network (List.length (requests w)) confirmUrl = Return answer ->
          isHtml answer = false) ->
      exists r w',
        handleVirusScanPage (attemptDownload (S budget)) response fileId options w
        = Some (r, w') /\
        requests w' = requests w ++ [confirmUrl] /\
        timers w' = timers w).
Proof.
  split.
  - intros budget response fileId options w r w' H.
    eapply handleVirusScanPage_quiet; [apply attemptDownload_quiet | exact H].
  - intros budget response fileId options w htmlContent confirmToken confirmUrl
      Hbody Htoken Hurl Hplain.
    unfold handleVirusScanPage. rewrite Hbody, Htoken, Hurl.
    cbn [GoogleDrive.attemptDownload].
    change (the_maxRetries {| maxRetries := Some 1 |}) with 1.
    change (Z.to_nat 1) with 1%nat. cbn [GoogleDrive.attempts].
    destruct (attempt_plain (attemptDownload budget) confirmUrl fileId
                {| maxRetries := Some 1 |} w Hplain) as [r0 [w0 (Ha & Hr & Ht)]].
    rewrite Ha. destruct r0 as [d|e]; [eauto|].
    change (1 <? 1) with false. cbn iota. eauto.
Qed.

End Facts.

Import Scenarios.

Lemma size_cap_enforced_witness :
  exists w',
    attempt defaults too_large_then_file noFileName inTemp
      (attemptDownload defaults too_large_then_file noFileName inTemp 0)
      downloadUrl id44 {| maxRetries := None |} initial
    = Some (Throw (FileSizeExceedsLimit 60000000), w') /\
    files w' = files initial.
Proof.
  apply (proj1 (size_cap_enforced defaults too_large_then_file noFileName inTemp
                  eq_refl))
    with (response := declared_too_large); reflexivity.
Defined.

(** C1, as stated: a response that declares 99 999 999 999 bytes but is an
    HTML confirmation page does not fail the attempt; the attempt goes on
    to the confirmation URL and writes the file. *)
Lemma html_response_skips_size_check :
  huge_page_then_file 0 downloadUrl = Return (html (Some "99999999999")) /\
  parseInt (or_else (content_length (html (Some "99999999999"))) "0")
  = Some 99999999999 /\
  99999999999 > MAX_FILE_SIZE_BYTES defaults /\
  exists d w',
    attempt defaults huge_page_then_file noFileName inTemp
      (attemptDownload defaults huge_page_then_file noFileName inTemp 1)
      downloadUrl id44 {| maxRetries := None |} initial
    = Some (Return d, w') /\
    files w' !! filePath d = Some "%PDF"%string.
Proof.
  repeat split. eexists _, _. split; vm_compute; reflexivity.
Qed.



Lemma confirmation_attempted_once_witness :
  exists r w',
    handleVirusScanPage (attemptDownload defaults page_then_timeout noFileName inTemp 1)
      (html None) id44 {| maxRetries := None |}
      {| requests := [downloadUrl]; timers := []; files := ∅ |}
    = Some (r, w') /\
    requests w' = [downloadUrl; confirmUrl] /\
    timers w' = [].
Proof.
  apply (proj2 (confirmation_attempted_once defaults page_then_timeout noFileName
                  inTemp) 0%nat (html None) id44 {| maxRetries := None |}
           {| requests := [downloadUrl]; timers := []; files := ∅ |}
           scan_page "t0K_n"%string confirmUrl eq_refl eq_refl eq_refl).
  intros answer H. discriminate H.
Defined.

(** C4, as stated: with the default budget of three attempts, a
    confirmation request that times out is made again after each repeat of
    the initial request, three times in the run. *)
Lemma confirmation_attempted_thrice :
  exists r w,
    run page_then_timeout 2 {| maxRetries := None |} = Some (r, w) /\
    count_occ string_dec (requests w) confirmUrl = 3%nat.
Proof. eexists _, _. split; vm_compute; reflexivity. Qed.

End GoogleDriveFacts.

(* ===================================================================== *)
(** * Properties of the declarative matcher *)
(* ===================================================================== *)

Module RegexSpecFacts.
Import Regex RegexFacts RegexSpec.
#[local] Arguments String.append _ _ : simpl nomatch.

Lemma strip_prefix_drop (l s s' : string) :
  Str.strip_prefix l s = Some s' -> s' = Str.drop (String.length l) s.
Proof.
  revert s. induction l as [|a l IH]; intros s H; cbn in *.
  - now injection H as <-.
  - destruct s as [|b s]; [discriminate|].
    destruct (Ascii.eqb a b); [|discriminate]. now apply IH.
Qed.

Lemma strip_prefix_length (l s s' : string) :
  Str.strip_prefix l s = Some s' ->
  String.length s = (String.length l + String.length s')%nat.
Proof.
  revert s. induction l as [|a l IH]; intros s H; cbn in *.
  - now injection H as <-.
  - destruct s as [|b s]; [discriminate|].
    destruct (Ascii.eqb a b); [|discriminate]. cbn. f_equal. now apply IH.
Qed.

Lemma strip_prefix_take (l s s' : string) :
  Str.strip_prefix l s = Some s' -> Str.take (String.length l) s = l.
Proof.
  revert s. induction l as [|a l IH]; intros s H; cbn in *.
  - reflexivity.
  - destruct s as [|b s]; [discriminate|].
    destruct (Ascii.eqb a b) eqn:E; [|discriminate].
    apply Ascii.eqb_eq in E as <-. f_equal. now apply IH.
Qed.

Lemma rep_sound {R} (p : ascii -> bool) (k : cont R) (s : string) :
  forall lo hi pos cap x,
    rep p lo hi k pos cap s = Some x ->
    exists n, (n <= String.length s)%nat /\ Str.all p (Str.take n s) = true /\
              within lo hi n = true /\ k (pos + n)%nat cap (Str.drop n s) = Some x.
Proof.
  induction s as [|c s IH]; intros lo hi pos cap x H; cbn [rep] in H.
  - destruct lo; [|discriminate]. exists 0%nat. rewrite Nat.add_0_r.
    repeat split; auto. unfold within. now destruct hi.
  - assert (Hstop : match lo with O => k pos cap (String c s) | S _ => None end = Some x ->
                    exists n, (n <= String.length (String c s))%nat /\
                              Str.all p (Str.take n (String c s)) = true /\
                              within lo hi n = true /\
                              k (pos + n)%nat cap (Str.drop n (String c s)) = Some x).
    { intros H0. destruct lo; [|discriminate]. exists 0%nat. rewrite Nat.add_0_r.
      repeat split; auto; [cbn; lia|]. unfold within. now destruct hi. }
    destruct (p c && room hi) eqn:Hc; [|auto].
    destruct (rep p (Nat.pred lo) (option_map Nat.pred hi) k (S pos) cap s)
      as [y|] eqn:Hrec; [|auto].
    injection H as ->. apply IH in Hrec as [n (H1 & H2 & H3 & H4)].
    apply andb_true_iff in Hc as [Hp Hroom].
    exists (S n). cbn [Str.take Str.all Str.drop String.length].
    rewrite Hp, H2, Nat.add_succ_r. repeat split; auto; [lia|].
    unfold within in *. apply andb_true_iff in H3 as [Hlo Hhi].
    apply andb_true_iff; split.
    + apply Nat.leb_le. apply Nat.leb_le in Hlo. lia.
    + destruct hi as [[|h]|]; [discriminate| |reflexivity].
      cbn in Hhi. apply Nat.leb_le. apply Nat.leb_le in Hhi. lia.
Qed.

Lemma rep_complete {R} (p : ascii -> bool) (k : cont R) (s : string) :
  forall n lo hi pos cap,
    (n <= String.length s)%nat -> Str.all p (Str.take n s) = true ->
    within lo hi n = true ->
    k (pos + n)%nat cap (Str.drop n s) <> None ->
    rep p lo hi k pos cap s <> None.
Proof.
  induction s as [|c s IH]; intros n lo hi pos cap Hn Hall Hin Hk.
  - cbn in Hn. assert (n = 0)%nat as -> by lia.
    unfold within in Hin. apply andb_true_iff in Hin as [Hlo _].
    apply Nat.leb_le in Hlo. assert (lo = 0)%nat as -> by lia.
    cbn. now rewrite Nat.add_0_r in Hk.
  - destruct n as [|n].
    + unfold within in Hin. apply andb_true_iff in Hin as [Hlo _].
      apply Nat.leb_le in Hlo. assert (lo = 0)%nat as -> by lia.
      rewrite Nat.add_0_r in Hk. cbn [Str.drop] in Hk. cbn [rep].
      destruct (p c && room hi); [|exact Hk].
      now destruct (rep p _ _ k (S pos) cap s).
    + cbn [Str.take Str.all Str.drop String.length] in *.
      apply andb_true_iff in Hall as [Hp Hall].
      unfold within in Hin. apply andb_true_iff in Hin as [Hlo Hhi].
      apply Nat.leb_le in Hlo.
      assert (Hroom : room hi = true) by (now destruct hi as [[|h]|]).
      cbn [rep]. rewrite Hp, Hroom. cbn [andb].
      assert (Hrec : rep p (Nat.pred lo) (option_map Nat.pred hi) k (S pos) cap s
                     <> None).
      { apply (IH n); auto; [lia| |now rewrite Nat.add_succ_r in Hk].
        unfold within. apply andb_true_iff; split; [apply Nat.leb_le; lia|].
        destruct hi as [[|h]|]; [discriminate| |reflexivity].
        cbn. apply Nat.leb_le. apply Nat.leb_le in Hhi. lia. }
      now destruct (rep p _ _ k (S pos) cap s).
Qed.

(** The matcher finds only matches... *)
Lemma run_sound {R} (r : regex) :
  forall (k : cont R) pos cap s x,
    run r k pos cap s = Some x ->
    exists n cap', matches r pos cap s n cap' /\
                   k (pos + n)%nat cap' (Str.drop n s) = Some x.
Proof.
  induction r as [l|r1 IH1 r2 IH2|r1 IH1 r2 IH2|r1 IH1|p lo hi|r1 IH1| |];
    intros k pos cap s x H; cbn [run] in H.
  - destruct (Str.strip_prefix l s) as [s'|] eqn:Hl; [|discriminate].
    exists (String.length l), cap. split; [now apply M_Lit with s'|].
    now rewrite <- (strip_prefix_drop l s s' Hl).
  - apply IH1 in H as [n1 [cap1 [M1 H]]]. apply IH2 in H as [n2 [cap2 [M2 H]]].
    exists (n1 + n2)%nat, cap2. split; [now apply M_Seq with cap1|].
    now rewrite drop_drop, <- Nat.add_assoc in H.
  - destruct (run r1 k pos cap s) as [y|] eqn:H1.
    + injection H as ->. apply IH1 in H1 as [n [cap' [M H]]].
      exists n, cap'. split; [now apply M_Alt_l | exact H].
    + apply IH2 in H as [n [cap' [M H]]].
      exists n, cap'. split; [now apply M_Alt_r | exact H].
  - destruct (run r1 k pos cap s) as [y|] eqn:H1.
    + injection H as ->. apply IH1 in H1 as [n [cap' [M H]]].
      exists n, cap'. split; [now apply M_Opt_some | exact H].
    + exists 0%nat, cap. split; [apply M_Opt_none|]. now rewrite Nat.add_0_r.
  - apply rep_sound in H as [n (H1 & H2 & H3 & H4)].
    exists n, cap. split; [now apply M_Rep | exact H4].
  - apply IH1 in H as [n [cap' [M H]]].
    exists n, (Some (Str.take n s)). split; [now apply M_Group with cap'|].
    now replace (pos + n - pos)%nat with n in H by lia.
  - destruct (pos =? 0)%nat eqn:E; [|discriminate]. apply Nat.eqb_eq in E as ->.
    exists 0%nat, cap. split; [apply M_Bol | exact H].
  - destruct s; [|discriminate].
    exists 0%nat, cap. split; [apply M_Eol|]. now rewrite Nat.add_0_r.
Qed.

(** ... and misses none. *)
Lemma run_complete {R} (r : regex) pos cap s n cap' :
  matches r pos cap s n cap' ->
  forall k : cont R,
    k (pos + n)%nat cap' (Str.drop n s) <> None -> run r k pos cap s <> None.
Proof.
  induction 1 as [l pos cap s s' Hl
                 |r1 r2 pos cap s n1 cap1 n2 cap2 M1 IH1 M2 IH2
                 |r1 r2 pos cap s n cap' M IH
                 |r1 r2 pos cap s n cap' M IH
                 |r pos cap s n cap' M IH
                 |r pos cap s
                 |p lo hi pos cap s n Hn Hall Hin
                 |r pos cap s n cap' M IH
                 |cap s
                 |pos cap]; intros k Hk; cbn [run].
  - rewrite Hl. now rewrite <- (strip_prefix_drop l s s' Hl) in Hk.
  - apply IH1, IH2. now rewrite drop_drop, <- Nat.add_assoc.
  - specialize (IH k Hk). now destruct (run r1 k pos cap s).
  - specialize (IH k Hk). now destruct (run r1 k pos cap s).
  - specialize (IH k Hk). now destruct (run r k pos cap s).
  - rewrite Nat.add_0_r in Hk. now destruct (run r k pos cap s).
  - now apply rep_complete with n.
  - apply IH. now replace (pos + n - pos)%nat with n by lia.
  - exact Hk.
  - now rewrite Nat.add_0_r in Hk.
Qed.

Lemma matches_length (r : regex) pos cap s n cap' :
  matches r pos cap s n cap' -> (n <= String.length s)%nat.
Proof.
  induction 1 as [l pos cap s s' Hl
                 |r1 r2 pos cap s n1 cap1 n2 cap2 M1 IH1 M2 IH2
                 | | | | | | | |]; try lia; try assumption.
  - rewrite (strip_prefix_length l s s' Hl). lia.
  - rewrite length_drop in IH2. lia.
Qed.

Lemma matches_min_length (r : regex) pos cap s n cap' :
  matches r pos cap s n cap' -> (min_length r <= n)%nat.
Proof.
  induction 1 as [l pos cap s s' Hl
                 |r1 r2 pos cap s n1 cap1 n2 cap2 M1 IH1 M2 IH2
                 | | | | |p lo hi pos cap s n Hn Hall Hin| | |];
    cbn [min_length]; try lia.
  unfold within in Hin. apply andb_true_iff in Hin as [Hlo _].
  now apply Nat.leb_le.
Qed.

(** [search] returns the leftmost match. *)
Lemma search_sound (r : regex) (s : string) :
  forall pos m,
    search r pos s = Some m ->
    exists i n cap',
      (i <= String.length s)%nat /\
      matches r (pos + i) None (Str.drop i s) n cap' /\
      m = {| m_index := pos + i; m_length := n; m_1 := cap' |} /\
      (forall j, (j < i)%nat ->
         run r (accept (pos + j)) (pos + j) None (Str.drop j s) = None).
Proof.
  induction s as [|c s IH]; intros pos m H; rewrite search_eq in H.
  - destruct (run r (accept pos) pos None "") as [y|] eqn:Hr; [|discriminate].
    injection H as ->. apply run_sound in Hr as [n [cap' [M Hr]]].
    exists 0%nat, n, cap'. rewrite Nat.add_0_r. cbn [Str.drop].
    repeat split; auto; [|lia].
    unfold accept in Hr. injection Hr as <-. f_equal. lia.
  - destruct (run r (accept pos) pos None (String c s)) as [y|] eqn:Hr.
    + injection H as ->. apply run_sound in Hr as [n [cap' [M Hr]]].
      exists 0%nat, n, cap'. rewrite Nat.add_0_r. cbn [Str.drop].
      repeat split; auto; [cbn; lia| |lia].
      unfold accept in Hr. injection Hr as <-. f_equal. lia.
    + apply IH in H as [i [n [cap' (H1 & H2 & H3 & H4)]]].
      exists (S i), n, cap'. rewrite Nat.add_succ_r. cbn [Str.drop String.length].
      repeat split; auto; [lia|].
      intros [|j] Hj; [now rewrite Nat.add_0_r|].
      rewrite Nat.add_succ_r. cbn [Str.drop]. apply H4. lia.
Qed.

Lemma search_complete (r : regex) (s : string) :
  forall pos i n cap',
    (i <= String.length s)%nat ->
    matches r (pos + i) None (Str.drop i s) n cap' ->
    search r pos s <> None.
Proof.
  induction s as [|c s IH]; intros pos i n cap' Hi M; rewrite search_eq.
  - cbn in Hi. assert (i = 0)%nat as -> by lia.
    rewrite Nat.add_0_r in M. cbn [Str.drop] in M.
    pose proof (run_complete r _ _ _ _ _ M (accept pos)) as Hr.
    destruct (run r (accept pos) pos None ""); [discriminate|].
    now apply Hr.
  - destruct i as [|i].
    + rewrite Nat.add_0_r in M. cbn [Str.drop] in M.
      pose proof (run_complete r _ _ _ _ _ M (accept pos)) as Hr.
      destruct (run r (accept pos) pos None (String c s)); [discriminate|].
      exfalso. now apply Hr.
    + destruct (run r (accept pos) pos None (String c s)); [discriminate|].
      apply (IH (S pos) i n cap'); [cbn in Hi; lia|].
      now rewrite Nat.add_succ_r in M.
Qed.

Lemma test_true (r : regex) (s : string) :
  test r s = true <->
  exists i n cap', (i <= String.length s)%nat /\
                   matches r i None (Str.drop i s) n cap'.
Proof.
  unfold test, exec. split.
  - destruct (search r 0 s) as [m|] eqn:H; [|discriminate]. intros _.
    apply search_sound in H as [i [n [cap' (H1 & H2 & _)]]]. eauto.
  - intros [i [n [cap' [Hi M]]]].
    pose proof (search_complete r s 0 i n cap' Hi M) as H.
    now destruct (search r 0 s).
Qed.

(** ** Inversion *)

Lemma matches_Seq_inv r1 r2 pos cap s n cap' :
  matches (Seq r1 r2) pos cap s n cap' ->
  exists n1 cap1 n2,
    matches r1 pos cap s n1 cap1 /\
    matches r2 (pos + n1) cap1 (Str.drop n1 s) n2 cap' /\ n = (n1 + n2)%nat.
Proof. intros M. inversion M; subst. eauto 10. Qed.

Lemma matches_Lit_inv l pos cap s n cap' :
  matches (Lit l) pos cap s n cap' ->
  exists s', Str.strip_prefix l s = Some s' /\ n = String.length l /\ cap' = cap.
Proof. intros M. inversion M; subst. eauto. Qed.

Lemma matches_Rep_inv p lo hi pos cap s n cap' :
  matches (Rep p lo hi) pos cap s n cap' ->
  (n <= String.length s)%nat /\ Str.all p (Str.take n s) = true /\
  within lo hi n = true /\ cap' = cap.
Proof. intros M. inversion M; subst. auto. Qed.

Lemma matches_Group_inv r pos cap s n cap' :
  matches (Group r) pos cap s n cap' ->
  (exists cap1, matches r pos cap s n cap1) /\ cap' = Some (Str.take n s).
Proof. intros M. inversion M; subst. eauto. Qed.

Lemma matches_Opt_inv r pos cap s n cap' :
  matches (Opt r) pos cap s n cap' ->
  matches r pos cap s n cap' \/ (n = 0%nat /\ cap' = cap).
Proof. intros M. inversion M; subst; auto. Qed.

Lemma matches_Alt_inv r1 r2 pos cap s n cap' :
  matches (Alt r1 r2) pos cap s n cap' ->
  matches r1 pos cap s n cap' \/ matches r2 pos cap s n cap'.
Proof. intros M. inversion M; subst; auto. Qed.

Lemma matches_Eol_inv pos cap s n cap' :
  matches Eol pos cap s n cap' -> s = EmptyString /\ n = 0%nat /\ cap' = cap.
Proof. intros M. inversion M; subst; auto. Qed.

Lemma drop_S (i : nat) (s : string) (c : ascii) (rest : string) :
  Str.drop i s = String c rest ->
  Str.drop (S i) s = rest /\ (S i <= String.length s)%nat.
Proof.
  intros H. split.
  - replace (S i) with (i + 1)%nat by lia. now rewrite <- drop_drop, H.
  - pose proof (length_drop s i) as Hd. rewrite H in Hd. cbn in Hd. lia.
Qed.

(** ** What a pattern leaves in capture 1 *)

Lemma keeps_Lit Q l : keeps Q (Lit l).
Proof. intros pos cap s n cap' M. now inversion M. Qed.

Lemma keeps_Rep Q p lo hi : keeps Q (Rep p lo hi).
Proof. intros pos cap s n cap' M. now inversion M. Qed.

Lemma keeps_Opt Q r : keeps Q r -> keeps Q (Opt r).
Proof. intros H pos cap s n cap' M. inversion M; subst; eauto. Qed.

Lemma keeps_Seq Q r1 r2 : keeps Q r1 -> keeps Q r2 -> keeps Q (Seq r1 r2).
Proof. intros H1 H2 pos cap s n cap' M. inversion M; subst; eauto. Qed.

Lemma keeps_Alt Q r1 r2 : keeps Q r1 -> keeps Q r2 -> keeps Q (Alt r1 r2).
Proof. intros H1 H2 pos cap s n cap' M. inversion M; subst; eauto. Qed.

Lemma sets_Seq_r Q r1 r2 : sets Q r2 -> sets Q (Seq r1 r2).
Proof. intros H pos cap s n cap' M. inversion M; subst; eauto. Qed.

Lemma sets_Seq_l Q r1 r2 : sets Q r1 -> keeps Q r2 -> sets Q (Seq r1 r2).
Proof. intros H1 H2 pos cap s n cap' M. inversion M; subst; eauto. Qed.

Lemma take_nonempty (n : nat) (s : string) :
  (1 <= n)%nat -> (n <= String.length s)%nat -> Str.take n s <> EmptyString.
Proof. destruct n, s; cbn; try lia; discriminate. Qed.

Lemma sets_Group_Rep p lo hi : sets (captured p) (Group (Rep p (S lo) hi)).
Proof.
  intros pos cap s n cap' M. inversion M as [| | | | | | |? ? ? ? ? ? M'| |]; subst.
  inversion M'; subst. exists (Str.take n s). repeat split; auto.
  apply take_nonempty; auto.
  match goal with H : within _ _ _ = true |- _ =>
    unfold within in H; apply andb_true_iff in H as [H _]; apply Nat.leb_le in H; lia
  end.
Qed.

Lemma sets_weaken (Q Q' : option string -> Prop) r :
  (forall cap, Q cap -> Q' cap) -> sets Q r -> sets Q' r.
Proof. intros HQ H pos cap s n cap' M. eauto. Qed.

Lemma all_weaken (p p' : ascii -> bool) (s : string) :
  (forall c, p c = true -> p' c = true) -> Str.all p s = true -> Str.all p' s = true.
Proof.
  intros Hp. induction s as [|c s IH]; cbn; [auto|].
  intros H. apply andb_true_iff in H as [H1 H2]. rewrite (Hp c H1). now apply IH.
Qed.

(** A pattern that always sets capture 1 to a non-empty text: testing it
    and reading the capture of its match succeed together. *)
Lemma group1_of_test p (r : regex) (s : string) :
  sets (captured p) r ->
  test r s = true ->
  exists g, group1 (exec r s) = Some g /\ g <> EmptyString /\ Str.all p g = true.
Proof.
  unfold test, exec. intros Hr H.
  destruct (search r 0 s) as [m|] eqn:Hs; [|discriminate].
  apply search_sound in Hs as [i [n [cap' (_ & M & -> & _)]]].
  apply Hr in M as [g (-> & Hg & Hall)]. exists g. cbn.
  destruct g; [contradiction|auto].
Qed.

Lemma group1_captured p (r : regex) (s g : string) :
  sets (captured p) r ->
  group1 (exec r s) = Some g -> g <> EmptyString /\ Str.all p g = true.
Proof.
  unfold exec. intros Hr H.
  destruct (search r 0 s) as [m|] eqn:Hs; [|discriminate].
  apply search_sound in Hs as [i [n [cap' (_ & M & -> & _)]]].
  apply Hr in M as [g' (-> & Hg & Hall)]. cbn in H.
  destruct g'; [contradiction|]. now injection H as <-.
Qed.

Lemma test_of_group1 (r : regex) (s g : string) :
  group1 (exec r s) = Some g -> test r s = true.
Proof. unfold test. now destruct (exec r s). Qed.

End RegexSpecFacts.

(* ===================================================================== *)
(** * More on the URL resolver *)
(* ===================================================================== *)

Module UrlParserMore.
Import Regex RegexFacts RegexSpec RegexSpecFacts UrlParser UrlParserFacts Links.
#[local] Arguments String.append _ _ : simpl nomatch.

Create HintDb capture discriminated.
#[local] Hint Resolve keeps_Lit keeps_Rep keeps_Opt keeps_Seq keeps_Alt
  sets_Seq_l sets_Seq_r sets_Group_Rep : capture.

Lemma link_patterns_capture :
  Forall (fun fp => sets (captured word_dash) (snd fp)) GOOGLE_DRIVE_PATTERNS.
Proof.
  unfold GOOGLE_DRIVE_PATTERNS, standardView, openFormat, docsFormat,
    directDownload, editFormat, file_id, plus.
  repeat constructor; cbn [snd scheme_www app seq]; auto 12 with capture.
Qed.

Lemma token_patterns_capture :
  Forall (sets (captured not_dquote)) tokenPatterns.
Proof.
  assert (Hw : forall r, sets (captured word_dash) r -> sets (captured not_dquote) r).
  { intros r. apply sets_weaken. intros cap [g (-> & Hg & Hall)].
    exists g. repeat split; auto. revert Hall. apply all_weaken.
    intros c Hc. destruct c as [[] [] [] [] [] [] [] []]; try reflexivity;
      discriminate Hc. }
  unfold tokenPatterns, paramPattern, fieldPattern, ampPattern, jsonPattern, plus.
  repeat constructor; cbn [seq];
    first [solve [auto 12 with capture] | solve [apply Hw; auto 12 with capture]].
Qed.

(** The loops over a list of patterns. *)
Lemma first_capture_captured p (ps : list regex) (s g : string) :
  Forall (sets (captured p)) ps ->
  first_capture ps s = Some g -> g <> EmptyString /\ Str.all p g = true.
Proof.
  induction 1 as [|r ps Hr _ IH]; cbn [first_capture]; [discriminate|].
  destruct (group1 (exec r s)) as [g'|] eqn:Hg; [|exact IH].
  intros H. injection H as ->. now apply (group1_captured p r s).
Qed.

Lemma first_capture_found p (ps : list regex) (s : string) :
  Forall (sets (captured p)) ps ->
  existsb (fun r => test r s) ps = true <-> exists g, first_capture ps s = Some g.
Proof.
  induction 1 as [|r ps Hr _ IH]; cbn [first_capture existsb].
  - split; [discriminate | now intros [g H]].
  - destruct (test r s) eqn:Ht.
    + destruct (group1_of_test p r s Hr Ht) as [g (-> & _)]. cbn. split; eauto.
    + assert (Hg : group1 (exec r s) = None).
      { destruct (group1 (exec r s)) as [g|] eqn:Hg; [|reflexivity].
        apply test_of_group1 in Hg. congruence. }
      rewrite Hg. exact IH.
Qed.

Lemma first_format_found (ps : list (string * regex)) (s : string) :
  existsb (fun fp => test (snd fp) s) ps = true <->
  exists name, first_format ps s = Some name.
Proof.
  induction ps as [|[name r] ps IH]; cbn [first_format existsb snd].
  - split; [discriminate | now intros [g H]].
  - destruct (test r s); [cbn; split; eauto | exact IH].
Qed.

(** The pattern [first_format] names is the one whose capture
    [first_capture] returns. *)
Lemma first_format_capture p (ps : list (string * regex)) (s name : string) :
  Forall (fun fp => sets (captured p) (snd fp)) ps ->
  first_format ps s = Some name ->
  exists r, In (name, r) ps /\ test r s = true /\
            first_capture (map snd ps) s = group1 (exec r s).
Proof.
  induction 1 as [|[name' r] ps Hr _ IH]; cbn [first_format first_capture map snd];
    [discriminate|].
  destruct (test r s) eqn:Ht.
  - intros H. injection H as ->. exists r.
    destruct (group1_of_test p r s Hr Ht) as [g (Hg & _)]. rewrite Hg.
    repeat split; auto. now left.
  - assert (Hg : group1 (exec r s) = None).
    { destruct (group1 (exec r s)) as [g|] eqn:Hg; [|reflexivity].
      apply test_of_group1 in Hg. congruence. }
    rewrite Hg. intros H. apply IH in H as [r' (H1 & H2 & H3)].
    exists r'. repeat split; auto. now right.
Qed.

Lemma existsb_map_snd (ps : list (string * regex)) (s : string) :
  existsb (fun fp => test (snd fp) s) ps = existsb (fun r => test r s) (map snd ps).
Proof. induction ps as [|fp ps IH]; cbn; [reflexivity | now rewrite IH]. Qed.

Lemma link_patterns_capture_snd :
  Forall (sets (captured word_dash)) (map snd GOOGLE_DRIVE_PATTERNS).
Proof. apply Forall_map. exact link_patterns_capture. Qed.

(** X1. [isValidGoogleDriveUrl], [parseGoogleDriveUrl] and [getUrlFormat]
    recognise the same texts: the first is true exactly when the second
    returns an identifier, and exactly when the third returns a name; the
    identifier is then the capture of the pattern the third names. *)
Theorem link_recognisers_agree (url : string) :
  (isValidGoogleDriveUrl url = true <-> exists id, parseGoogleDriveUrl url = Some id) /\
  (isValidGoogleDriveUrl url = true <-> exists name, getUrlFormat url = Some name) /\
  (forall name, getUrlFormat url = Some name ->
     exists pattern, In (name, pattern) GOOGLE_DRIVE_PATTERNS /\
                     parseGoogleDriveUrl url = group1 (exec pattern url)).
Proof.
  unfold isValidGoogleDriveUrl, parseGoogleDriveUrl, getUrlFormat.
  destruct (negb (Str.truthy url)).
  - repeat split; try discriminate; now intros [x H].
  - split; [|split].
    + rewrite existsb_map_snd.
      apply (first_capture_found word_dash), link_patterns_capture_snd.
    + apply first_format_found.
    + intros name H.
      destruct (first_format_capture word_dash _ _ _ link_patterns_capture H)
        as [r (H1 & _ & H3)]. eauto.
Qed.

(** X2. An identifier [parseGoogleDriveUrl] returns has one or more
    characters, all of them in [a-zA-Z0-9_-]. *)
Theorem parseGoogleDriveUrl_alphabet (url id : string) :
  parseGoogleDriveUrl url = Some id ->
  id <> EmptyString /\ Str.all word_dash id = true.
Proof.
  unfold parseGoogleDriveUrl. destruct (negb (Str.truthy url)); [discriminate|].
  apply first_capture_captured, link_patterns_capture_snd.
Qed.

Lemma parseGoogleDriveUrl_alphabet_witness :
  "abc"%string <> EmptyString /\ Str.all word_dash "abc" = true.
Proof.
  apply (parseGoogleDriveUrl_alphabet "see drive.google.com/open?id=abc&x=1" "abc").
  reflexivity.
Defined.

(** Whatever [editFormat] matches, [standardView] matches at the same
    place. *)
Lemma editFormat_within_standardView (url : string) :
  test editFormat url = true -> test standardView url = true.
Proof.
  rewrite !test_true. intros [i [n [cap' [Hi M]]]]. exists i.
  unfold editFormat, standardView in *. cbn [scheme_www app seq] in *.
  inversion M as [|? ? ? ? ? n1 cap1 n2 cap2 M1 M2| | | | | | | |]; subst.
  inversion M2 as [|? ? ? ? ? n3 cap3 n4 cap4 M3 M4| | | | | | | |]; subst.
  inversion M4 as [|? ? ? ? ? n5 cap5 n6 cap6 M5 M6| | | | | | | |]; subst.
  inversion M6 as [|? ? ? ? ? n7 cap7 n8 cap8 M7 M8| | | | | | | |]; subst.
  eexists _, _. split; [exact Hi|].
  eapply M_Seq; [exact M1|]. eapply M_Seq; [exact M3|].
  eapply M_Seq; [exact M5|]. eapply M_Seq; [exact M7|]. apply M_Opt_none.
Qed.

(** X3. [getUrlFormat] never returns editFormat: every link of that
    format is a link of the format standardView, which is tried first. *)
Theorem getUrlFormat_never_editFormat (url : string) :
  getUrlFormat url <> Some "editFormat"%string.
Proof.
  unfold getUrlFormat. destruct (negb (Str.truthy url)); [discriminate|].
  unfold GOOGLE_DRIVE_PATTERNS. cbn [first_format].
  destruct (test standardView url) eqn:Hview; [discriminate|].
  destruct (test openFormat url); [discriminate|].
  destruct (test docsFormat url); [discriminate|].
  destruct (test directDownload url); [discriminate|].
  destruct (test editFormat url) eqn:Hedit; [|discriminate].
  apply editFormat_within_standardView in Hedit. congruence.
Qed.

(** X4. [normalizeGoogleDriveUrl] is idempotent: the sharing URL it returns
    is normalised to itself, and holds the identifier of the original. *)
Theorem normalizeGoogleDriveUrl_idempotent (url sharing : string) :
  normalizeGoogleDriveUrl url = Some sharing ->
  normalizeGoogleDriveUrl sharing = Some sharing /\
  parseGoogleDriveUrl sharing = parseGoogleDriveUrl url.
Proof.
  unfold normalizeGoogleDriveUrl.
  destruct (parseGoogleDriveUrl url) as [id|] eqn:Hid; [|discriminate].
  intros H.
  assert (Hs : sharing
               = "https://drive.google.com/file/d/" +:+ id +:+ "/view?usp=sharing")
    by (now injection H).
  clear H. subst sharing.
  destruct (parseGoogleDriveUrl_alphabet url id Hid) as [Hne Hall].
  assert (Hparse : parseGoogleDriveUrl
                     ("https://drive.google.com/file/d/" +:+ id +:+ "/view?usp=sharing")
                   = Some id).
  { unfold parseGoogleDriveUrl. cbn [GOOGLE_DRIVE_PATTERNS map snd first_capture].
    change (Str.truthy ("https://drive.google.com/file/d/" +:+ id +:+ "/view?usp=sharing"))
      with true. cbn [negb].
    now rewrite (standardView_file id Hall Hne "/view?usp=sharing"). }
  now rewrite Hparse.
Qed.

Lemma normalizeGoogleDriveUrl_idempotent_witness :
  normalizeGoogleDriveUrl "https://drive.google.com/file/d/abc_DEF-123/view?usp=sharing"
  = Some "https://drive.google.com/file/d/abc_DEF-123/view?usp=sharing"%string.
Proof.
  apply (normalizeGoogleDriveUrl_idempotent
           "https://docs.google.com/spreadsheets/d/abc_DEF-123/edit#gid=0").
  reflexivity.
Defined.


(** X5. The URL [generateDownloadUrl] builds for an identifier parses back
    to that identifier, and its format is directDownload. *)
Theorem generateDownloadUrl_round_trip (fileId url : string) :
  generateDownloadUrl fileId = Return url ->
  parseGoogleDriveUrl url = Some fileId /\
  getUrlFormat url = Some "directDownload"%string.
Proof.
  unfold generateDownloadUrl. destruct (isValidFileId fileId) eqn:Hid; [|discriminate].
  cbn [negb]. intros H.
  assert (Hu : url = downloadLink fileId) by (now injection H).
  clear H. subst url.
  rewrite isValidFileId_bool in Hid. apply andb_true_iff in Hid as [Hall Hlen].
  assert (Hne : fileId <> EmptyString).
  { intros ->. discriminate Hlen. }
  split; [now apply other_links_parsed|].
  pose proof (id_free fileId Hall) as Hfree.
  assert (Hmiss : forall r, needs "." r = true ->
            (forall j, (j < 47)%nat ->
               run r (accept j) j None
                 (Str.drop j ("https://drive.google.com/uc?export=download&id=" +:+ fileId))
               = None) ->
            test r (downloadLink fileId) = false).
  { intros r Hr Hj. unfold test, downloadLink.
    now rewrite (exec_fails_after "." r _ fileId Hr Hfree). }
  unfold getUrlFormat. change (Str.truthy (downloadLink fileId)) with true.
  cbn [negb GOOGLE_DRIVE_PATTERNS first_format].
  rewrite (Hmiss standardView);
    [|exact eq_refl
     |intros j Hj; do 47 (destruct j as [|j]; [reflexivity|]); lia].
  rewrite (Hmiss openFormat);
    [|exact eq_refl
     |intros j Hj; do 47 (destruct j as [|j]; [reflexivity|]); lia].
  rewrite (Hmiss docsFormat);
    [|exact eq_refl
     |intros j Hj; do 47 (destruct j as [|j]; [reflexivity|]); lia].
  rewrite (test_of_group1 _ _ _ (directDownload_download fileId Hall Hne)).
  reflexivity.
Qed.

Lemma generateDownloadUrl_round_trip_witness :
  parseGoogleDriveUrl (downloadLink Scenarios.id44) = Some Scenarios.id44 /\
  getUrlFormat (downloadLink Scenarios.id44) = Some "directDownload"%string.
Proof.
  apply (generateDownloadUrl_round_trip Scenarios.id44 (downloadLink Scenarios.id44)).
  vm_compute. reflexivity.
Defined.

(** X6. [analyzeGoogleDriveUrl] returns null only for a text no pattern
    matches; on a match it throws 'Invalid file ID provided' when the
    identifier is not valid, and otherwise returns an object whose
    isValidFileId field is true, with the download URL and the sharing URL
    of the identifier and a format that is not null. *)
Theorem analyzeGoogleDriveUrl_outcomes (url : string) :
  match analyzeGoogleDriveUrl url with
  | Return None => isValidGoogleDriveUrl url = false
  | Throw e =>
      e = InvalidFileIdProvided /\
      exists id, parseGoogleDriveUrl url = Some id /\ isValidFileId id = false
  | Return (Some info) =>
      originalUrl info = url /\
      parseGoogleDriveUrl url = Some (fileId info) /\
      isValidFileId (fileId info) = true /\
      isValidFileId_ info = true /\
      format info = getUrlFormat url /\
      format info <> None /\
      downloadUrl info = downloadLink (fileId info) /\
      sharingUrl info = Some (viewLink (fileId info) +:+ "?usp=sharing")
  end.
Proof.
  unfold analyzeGoogleDriveUrl.
  destruct (isValidGoogleDriveUrl url) eqn:Hvalid; [|reflexivity]. cbn [negb].
  destruct (proj1 (proj1 (link_recognisers_agree url)) Hvalid) as [id Hid].
  destruct (proj1 (proj1 (proj2 (link_recognisers_agree url))) Hvalid)
    as [name Hname].
  rewrite Hid. unfold generateDownloadUrl.
  destruct (isValidFileId id) eqn:Hok; cbn [negb].
  - cbn [originalUrl fileId isValidFileId_ format downloadUrl sharingUrl].
    unfold normalizeGoogleDriveUrl. rewrite Hid, Hname.
    repeat split; try reflexivity; try assumption; try discriminate.
    unfold viewLink. now rewrite !append_assoc.
  - split; [reflexivity|]. eauto.
Qed.

(** Where the third token pattern matches, the first one does. *)
Lemma ampPattern_within_paramPattern (html : string) :
  test ampPattern html = true -> test paramPattern html = true.
Proof.
  rewrite !test_true. intros [i [n [cap' [Hi M]]]].
  unfold ampPattern, paramPattern in *. cbn [seq] in *.
  apply matches_Seq_inv in M as [n1 [cap1 [n2 (M1 & M2 & ->)]]].
  apply matches_Lit_inv in M1 as [s' (Hl & -> & ->)].
  change ("&" +:+ queryHead) with (String "&" queryHead) in *.
  destruct (Str.drop i html) as [|c rest] eqn:Hdrop; [discriminate|].
  cbn [Str.strip_prefix String.length Str.drop] in Hl, M2.
  destruct (Ascii.eqb "&" c); [|discriminate].
  destruct (drop_S i html c rest Hdrop) as [Hrest Hlen].
  apply matches_Group_inv in M2 as [[cap2 M2] ->].
  apply matches_Rep_inv in M2 as (H1 & H2 & H3 & _).
  exists (S i). eexists _, _. split; [exact Hlen|].
  rewrite Hrest. eapply M_Seq; [eapply M_Lit; exact Hl|].
  apply M_Group with None. apply M_Rep; eassumption.
Qed.

(** X7. The third pattern of [extractConfirmationToken] decides no result:
    where it matches, the first pattern matches too and is tried before.
    The function computes what it would without the third pattern. *)
Theorem extractConfirmationToken_third_pattern_unused (htmlContent : string) :
  extractConfirmationToken htmlContent
  = if negb (Str.truthy htmlContent) then None
    else first_capture [paramPattern; fieldPattern; jsonPattern] htmlContent.
Proof.
  unfold extractConfirmationToken, tokenPatterns.
  destruct (negb (Str.truthy htmlContent)); [reflexivity|].
  cbn [first_capture].
  destruct (group1 (exec paramPattern htmlContent)) as [g|] eqn:Hparam; [reflexivity|].
  destruct (group1 (exec fieldPattern htmlContent)) as [g|]; [reflexivity|].
  destruct (group1 (exec ampPattern htmlContent)) as [g|] eqn:Hamp; [|reflexivity].
  apply test_of_group1, ampPattern_within_paramPattern in Hamp.
  pose proof token_patterns_capture as Hsets. inversion Hsets as [|? ? Hp _]; subst.
  destruct (group1_of_test _ _ _ Hp Hamp) as [g' (Hg' & _)]. congruence.
Qed.

(** X8. A token [extractConfirmationToken] returns has one or more
    characters, none of them a double quote. *)
Theorem extractConfirmationToken_alphabet (htmlContent token : string) :
  extractConfirmationToken htmlContent = Some token ->
  token <> EmptyString /\ Str.all not_dquote token = true.
Proof.
  unfold extractConfirmationToken.
  destruct (negb (Str.truthy htmlContent)); [discriminate|].
  apply first_capture_captured, token_patterns_capture.
Qed.

Lemma extractConfirmationToken_alphabet_witness :
  "t0K_n"%string <> EmptyString /\ Str.all not_dquote "t0K_n" = true.
Proof.
  apply (extractConfirmationToken_alphabet Scenarios.scan_page "t0K_n").
  reflexivity.
Defined.

End UrlParserMore.

(* ===================================================================== *)
(** * The scan of a text for links *)
(* ===================================================================== *)

Module UrlScanProps.
Import Regex RegexFacts RegexSpec RegexSpecFacts UrlParser Flags UrlScan.
#[local] Arguments String.append _ _ : simpl nomatch.

Lemma keeps_letters Q (l : string) : keeps Q (letters l).
Proof.
  induction l as [|a l IH]; cbn [letters];
    [apply keeps_Lit | apply keeps_Seq; [apply keeps_Rep | exact IH]].
Qed.

Lemma min_length_letters (l : string) : min_length (letters l) = String.length l.
Proof. induction l as [|a l IH]; cbn; [reflexivity | now rewrite IH]. Qed.

#[local] Hint Resolve keeps_letters keeps_Lit keeps_Rep keeps_Opt keeps_Seq keeps_Alt
  sets_Seq_l sets_Seq_r sets_Group_Rep : capture.

Lemma global_patterns_capture :
  Forall (fun fp => sets (captured word_dash) (ignoreCase (snd fp)) /\
                    (1 <= min_length (ignoreCase (snd fp)))%nat)
    GOOGLE_DRIVE_PATTERNS.
Proof.
  unfold GOOGLE_DRIVE_PATTERNS, standardView, openFormat, docsFormat,
    directDownload, editFormat, file_id, plus.
  repeat constructor; cbn [snd scheme_www app seq ignoreCase];
    first [solve [auto 12 with capture]
          | cbn [min_length]; rewrite ?min_length_letters; cbn; lia].
Qed.

Lemma scan_total (formatName : string) (r : regex) (text : string) :
  sets (captured word_dash) r ->
  (1 <= min_length r)%nat ->
  forall budget lastIndex results processed,
    (lastIndex <= String.length text)%nat ->
    (String.length text - lastIndex < budget)%nat ->
    tidy results processed ->
    exists results' processed',
      scan budget formatName r text lastIndex results processed
      = Some (results', processed') /\
      tidy results' processed'.
Proof.
  intros Hsets Hmin. induction budget as [|budget IH];
    intros lastIndex results processed Hlast Hbudget Htidy; [lia|].
  cbn [scan].
  destruct (search r lastIndex (Str.drop lastIndex text)) as [m|] eqn:Hm; [|eauto].
  apply search_sound in Hm as [i [n [cap' (Hi & M & -> & _)]]].
  cbn [m_1 m_index m_length].
  pose proof (matches_length _ _ _ _ _ _ M) as Hn.
  pose proof (matches_min_length _ _ _ _ _ _ M) as Hn1.
  rewrite !length_drop in *.
  destruct (decide (cap' ∈ processed)) as [Hin|Hnew].
  - apply IH; [lia | lia | exact Htidy].
  - apply IH; [lia | lia |].
    destruct Htidy as (Hnodup & Hsub & Hall). unfold tidy.
    rewrite map_app, Forall_app. cbn [map fileId]. repeat split.
    + apply NoDup_app. repeat split; [exact Hnodup | | apply NoDup_singleton].
      intros x Hx Hx'. apply list_elem_of_singleton in Hx'. subst x.
      apply Hnew, Hsub. now apply list_elem_of_In.
    + intros x Hx. apply in_app_or in Hx as [Hx|[<-|[]]]; set_solver.
    + exact Hall.
    + repeat constructor. cbn [fileId]. eapply Hsets, M.
Qed.

Lemma scan_all_total (text : string) (patterns : list (string * regex)) :
  Forall (fun fp => sets (captured word_dash) (ignoreCase (snd fp)) /\
                    (1 <= min_length (ignoreCase (snd fp)))%nat) patterns ->
  forall results processed,
    tidy results processed ->
    exists results',
      scan_all (S (String.length text)) patterns text results processed
      = Some results' /\
      NoDup (map fileId results') /\
      Forall (fun r => captured word_dash (fileId r)) results'.
Proof.
  induction 1 as [|[name r] patterns [Hsets Hmin] _ IH]; intros results processed Htidy.
  - exists results. destruct Htidy as (H1 & _ & H3). auto.
  - cbn [scan_all snd] in *.
    destruct (scan_total name (ignoreCase r) text Hsets Hmin (S (String.length text))
                0 results processed) as [results' [processed' [Hscan Htidy']]];
      [lia | lia | exact Htidy |].
    rewrite Hscan. now apply IH.
Qed.

(** X9. [extractMultipleGoogleDriveUrls] returns on every text, after at
    most as many matches per pattern as the text has characters; its
    result lists no identifier twice, and every identifier it lists has one
    or more characters, all of them in [a-zA-Z0-9_-]. *)
Theorem extractMultipleGoogleDriveUrls_distinct (text : string) :
  exists results,
    extractMultipleGoogleDriveUrls (S (String.length text)) text = Some results /\
    NoDup (map fileId results) /\
    Forall (fun r => exists id, fileId r = Some id /\ id <> EmptyString /\
                                Str.all word_dash id = true) results.
Proof.
  unfold extractMultipleGoogleDriveUrls.
  destruct (negb (Str.truthy text)).
  - exists []. repeat split; constructor.
  - apply scan_all_total; [exact global_patterns_capture|].
    repeat split; [constructor | intros x [] | constructor].
Qed.

End UrlScanProps.

(* ===================================================================== *)
(** * The schedule of the retry wrapper *)
(* ===================================================================== *)

Module RetryScheduleProps.
Import ErrorHandler RetrySchedule ErrorHandlerProps.

Section Facts.
Context {S A E : Type}.
Variable operation : S -> (A + E) * S.
Variable o : Options E.

Lemma events_call (w : World S) :
  events (snd (call operation w)) = events w ++ [Invoke].
Proof. unfold call. now destruct (operation (state w)). Qed.

Lemma retry_loop_schedule (n : nat) :
  forall attempt lastError (w : World S),
    Z.of_nat n = the_maxRetries o - attempt + 1 ->
    (1 <= n)%nat ->
    exists k, (1 <= k <= n)%nat /\
      events (snd (retry_loop operation o n attempt lastError w))
      = events w ++ schedule o attempt k.
Proof.
  induction n as [|n IH]; intros attempt lastError w Hn H1; [lia|].
  cbn [retry_loop]. pose proof (events_call w) as Hev.
  destruct (call operation w) as [[a|error] w1]; cbn [snd] in Hev.
  - exists 1%nat. split; [lia|]. exact Hev.
  - destruct (negb (the_retryCondition o error) || (attempt =? the_maxRetries o))
      eqn:Hstop.
    + exists 1%nat. split; [lia|]. exact Hev.
    + apply orb_false_iff in Hstop as [_ Hlast]. apply Z.eqb_neq in Hlast.
      destruct (IH (attempt + 1) (Some error)
                  (note (Wait (Z.min (the_baseDelay o * 2 ^ (attempt - 1))
                                 (the_maxDelay o))) w1))
        as [k [Hk Hrun]]; [lia | lia |].
      exists (Datatypes.S k). split; [lia|]. rewrite Hrun.
      cbn [note events]. rewrite Hev, <- !app_assoc.
      destruct k as [|k]; [lia|]. reflexivity.
Qed.

Lemma schedule_invocations (k : nat) : forall a,
  List.length (List.filter (fun ev => match ev with Invoke => true | _ => false end)
                 (schedule o a k)) = k.
Proof.
  induction k as [|k IH]; intros a; [reflexivity|].
  destruct k as [|k]; [reflexivity|].
  change (schedule o a (Datatypes.S (Datatypes.S k)))
    with (Invoke :: Wait (delay o a) :: schedule o (a + 1) (Datatypes.S k)).
  cbn [List.filter List.length]. f_equal. apply IH.
Qed.

(** X10. Every run of [retryOperation], whatever the operation does and
    whatever the retry condition: the operation is called k times with k at
    most maxRetries, and at least once when maxRetries is 1 or more; after
    each call but the last the wrapper waits, after call number j for
    min(baseDelay * 2^(j-1), maxDelay) ms; it never waits after the last
    call. With maxRetries 0 or less the operation is not called and the
    wrapper rejects with undefined. *)
Theorem retryOperation_schedule (w : World S) :
  let run := retryOperation operation o w in
  exists k : nat,
    (k <= Z.to_nat (the_maxRetries o))%nat /\
    (1 <= the_maxRetries o -> (1 <= k)%nat) /\
    (the_maxRetries o <= 0 -> run = (inr None, w)) /\
    events (snd run) = events w ++ schedule o 1 k /\
    invocations (snd run) = (invocations w + k)%nat.
Proof.
  cbv zeta. unfold retryOperation.
  destruct (Z.to_nat (the_maxRetries o)) as [|n] eqn:Hn.
  - exists 0%nat. cbn. rewrite app_nil_r. repeat split; try lia.
  - destruct (retry_loop_schedule (Datatypes.S n) 1 None w) as [k [Hk Hrun]];
      [lia | lia |].
    exists k. repeat split; try lia; [exact Hrun|].
    unfold invocations. rewrite Hrun, List.filter_app, List.length_app.
    now rewrite schedule_invocations.
Qed.

End Facts.
End RetryScheduleProps.

(* ===================================================================== *)
(** * More on the downloader *)
(* ===================================================================== *)

Module DownloaderProps.
Import Config GoogleDrive GoogleDriveFacts.

Section Facts.
Variable config : Config.
Variable network : nat -> string -> result Response.
Variable extractFileName : Response -> option string.
Variable generateUniqueFilePath : string -> gmap string string -> result string.

Local Abbreviation attempt :=
  (attempt config network extractFileName generateUniqueFilePath).
Local Abbreviation attempts :=
  (attempts config network extractFileName generateUniqueFilePath).
Local Abbreviation attemptDownload :=
  (attemptDownload config network extractFileName generateUniqueFilePath).
Local Abbreviation downloadGoogleDriveFile :=
  (downloadGoogleDriveFile config network extractFileName generateUniqueFilePath).

Lemma total_concat (chunks : list string) :
  total chunks = Z.of_nat (String.length (String.concat "" chunks)).
Proof.
  induction chunks as [|c cs IH]; [reflexivity|].
  cbn [total]. rewrite IH. clear IH.
  destruct cs as [|c' cs].
  - cbn. lia.
  - change (String.concat "" (c :: c' :: cs))
      with (c +:+ "" +:+ String.concat "" (c' :: cs)).
    rewrite !RegexFacts.length_append. cbn [String.length]. lia.
Qed.

Lemma concat_cons (c : string) (cs : list string) :
  String.concat "" (c :: cs) = c +:+ String.concat "" cs.
Proof.
  destruct cs as [|c' cs]; cbn [String.concat].
  - now rewrite RegexFacts.append_nil_r.
  - reflexivity.
Qed.

(** The chunks written one after the other. *)
Lemma pump_closed chunks ending filePath : forall fileSize f written,
  0 <= fileSize <= MAX_FILE_SIZE_BYTES config ->
  f !! filePath = Some written ->
  pump config chunks ending filePath fileSize f
  = if fileSize + total chunks >? MAX_FILE_SIZE_BYTES config
    then (Throw StreamExceedsLimit, delete filePath f)
    else match ending with
         | Ended =>
             (Return (fileSize + total chunks),
              <[filePath := written +:+ String.concat "" chunks]> f)
         | Errored e => (Throw e, delete filePath f)
         end.
Proof.
  induction chunks as [|c cs IH]; intros fileSize f written Hsize Hf; cbn [pump total].
  - rewrite Z.add_0_r. replace (fileSize >? MAX_FILE_SIZE_BYTES config) with false
      by (symmetry; rewrite Z.gtb_ltb; apply Z.ltb_ge; lia).
    destruct ending; [|reflexivity].
    cbn [String.concat]. rewrite RegexFacts.append_nil_r.
    now rewrite insert_id.
  - pose proof (total_nonneg cs) as Hcs.
    destruct (fileSize + Z.of_nat (String.length c) >? MAX_FILE_SIZE_BYTES config)
      eqn:Hover.
    + replace (fileSize + (Z.of_nat (String.length c) + total cs)
               >? MAX_FILE_SIZE_BYTES config) with true; [reflexivity|].
      symmetry. apply Z.gtb_lt. apply Z.gtb_lt in Hover. lia.
    + rewrite Z.gtb_ltb in Hover. apply Z.ltb_ge in Hover.
      rewrite (IH _ _ (written +:+ c)); [|lia|].
      * rewrite Hf. cbn [default]. rewrite Z.add_assoc.
        rewrite delete_insert_eq, insert_insert_eq, concat_cons.
        now rewrite RegexFacts.append_assoc.
      * rewrite Hf. cbn [default]. apply lookup_insert_eq.
Qed.

(** X11. [streamToFile] under a limit that is not negative. When the
    stream delivers more bytes than the limit it rejects with the size
    error and the file does not exist; when the stream ends within the
    limit it resolves to the number of bytes delivered and the file holds
    exactly these bytes, in order; when the stream fails within the limit
    it rejects with the error of the stream and the file does not exist.
    No other file is touched, no request and no timer is added. *)
Theorem streamToFile_closed_form (stream : Stream) (filePath : string) (w : World) :
  0 <= MAX_FILE_SIZE_BYTES config ->
  streamToFile config stream filePath w
  = if total (chunks stream) >? MAX_FILE_SIZE_BYTES config
    then (Throw StreamExceedsLimit, set_files (delete filePath (files w)) w)
    else match ending stream with
         | Ended =>
             (Return (Z.of_nat (String.length (String.concat "" (chunks stream)))),
              set_files (<[filePath := String.concat "" (chunks stream)]> (files w)) w)
         | Errored e => (Throw e, set_files (delete filePath (files w)) w)
         end.
Proof.
  intros Hcap. unfold streamToFile.
  rewrite (pump_closed _ _ _ 0 _ "") by (lia || apply lookup_insert_eq).
  rewrite Z.add_0_l, total_concat.
  destruct (_ >? _); [now rewrite delete_insert_eq|].
  destruct (ending stream); [|now rewrite delete_insert_eq].
  now rewrite insert_insert_eq.
Qed.

(** X12. Nothing bounds the nesting of confirmation pages: when every
    request is answered by a page that holds a token, no nesting budget
    lets [attemptDownload] or [downloadGoogleDriveFile] return. *)
Theorem endless_confirmation_never_returns (fileId : string) :
  UrlParser.isValidFileId fileId = true ->
  (forall i u, exists response htmlContent confirmToken,
      network i u = Return response /\
      isHtml response = true /\
      streamToString (data response) = Return htmlContent /\
      UrlParser.extractConfirmationToken htmlContent = Some confirmToken) ->
  forall budget url options w,
    1 <= the_maxRetries options ->
    attemptDownload budget url fileId options w = None /\
    downloadGoogleDriveFile budget fileId options w = None.
Proof.
  intros Hid Hnet.
  assert (Hloop : forall budget url options w,
             1 <= the_maxRetries options ->
             attemptDownload budget url fileId options w = None).
  { induction budget as [|budget IH]; intros url options w Hmax; [reflexivity|].
    cbn [GoogleDrive.attemptDownload].
    destruct (Z.to_nat (the_maxRetries options)) as [|n] eqn:Hn; [lia|].
    cbn [GoogleDrive.attempts]. unfold GoogleDrive.attempt at 1, axios.
    destruct (Hnet (List.length (requests w)) url)
      as [response [html [token (-> & -> & Hbody & Htoken)]]].
    unfold handleVirusScanPage. rewrite Hbody, Htoken.
    unfold UrlParser.generateConfirmationUrl. rewrite Hid. cbn [negb].
    now rewrite IH. }
  intros budget url options w Hmax. split; [now apply Hloop|].
  unfold GoogleDrive.downloadGoogleDriveFile, UrlParser.generateDownloadUrl.
  rewrite Hid. cbn [negb].
  assert (Str.truthy fileId = true) as ->.
  { destruct fileId; [discriminate Hid | reflexivity]. }
  cbn [negb]. now rewrite Hloop.
Qed.

End Facts.

Import Scenarios.

Lemma streamToFile_closed_form_witness :
  streamToFile defaults {| chunks := ["%PD"; "F-1.7"]; ending := Ended |}
    "./temp/a.pdf" initial
  = (Return 8,
     {| requests := []; timers := []; files := {[ "./temp/a.pdf"%string := "%PDF-1.7"%string ]} |}).
Proof.
  rewrite (streamToFile_closed_form defaults) by discriminate.
  reflexivity.
Defined.

Lemma endless_confirmation_never_returns_witness :
  downloadGoogleDriveFile defaults always_page noFileName inTemp 25 id44
    {| maxRetries := None |} initial = None.
Proof.
  refine (proj2 (endless_confirmation_never_returns defaults always_page noFileName
                   inTemp id44 eq_refl _ 25%nat downloadUrl
                   {| maxRetries := None |} initial _)).
  - intros i u. exists (html None), scan_page, "t0K_n"%string.
    repeat split; reflexivity.
  - discriminate.
Defined.

End DownloaderProps.

(* ===================================================================== *)
(** * Unique file paths *)
(* ===================================================================== *)

Module UniquePathProps.
Import Config UniquePath.

Section Facts.
Variable config : Config.
Variable path_resolve : string -> string.
Variable path_join : string -> string -> string.
Variable path_extname : string -> string.
Variable path_basename : string -> string -> string.
Variable fs_ensureDir : string -> result unit.
Variable fs_pathExists : string -> bool.

Local Abbreviation candidate :=
  (candidate config path_resolve path_join path_extname path_basename).
Local Abbreviation unique_loop :=
  (unique_loop config path_resolve path_join path_extname path_basename
     fs_pathExists).
Local Abbreviation generateUniqueFilePath :=
  (generateUniqueFilePath config path_resolve path_join path_extname path_basename
     fs_ensureDir fs_pathExists).

Lemma unique_loop_first_free (fileName : string) (m : nat) :
  forall budget k,
    (forall j, (k <= j < k + m)%nat -> fs_pathExists (candidate fileName j) = true) ->
    fs_pathExists (candidate fileName (k + m)) = false ->
    (m <= budget)%nat ->
    unique_loop budget (cleanFileName fileName) (candidate fileName k) (S k)
    = Some (candidate fileName (k + m)).
Proof.
  induction m as [|m IH]; intros budget k Hbusy Hfree Hbudget.
  - rewrite Nat.add_0_r in *. destruct budget; cbn [UniquePath.unique_loop];
      now rewrite Hfree.
  - destruct budget as [|budget]; [lia|]. cbn [UniquePath.unique_loop].
    rewrite (Hbusy k) by lia.
    change (path_join _ _) with (candidate fileName (S k)).
    replace (k + S m)%nat with (S k + m)%nat in * by lia.
    apply IH; [|assumption|lia]. intros j Hj. apply Hbusy. lia.
Qed.

Lemma unique_loop_free (fileName : string) (budget : nat) :
  forall k p,
    unique_loop budget (cleanFileName fileName) (candidate fileName k) (S k) = Some p ->
    exists j, p = candidate fileName j /\ fs_pathExists p = false.
Proof.
  induction budget as [|budget IH]; intros k p H; cbn [UniquePath.unique_loop] in H.
  - destruct (fs_pathExists (candidate fileName k)) eqn:E; [discriminate|].
    injection H as <-. now exists k.
  - destruct (fs_pathExists (candidate fileName k)) eqn:E.
    + change (path_join _ _) with (candidate fileName (S k)) in H.
      now apply IH in H.
    + injection H as <-. now exists k.
Qed.

Lemma cleanFileName_safe (fileName : string) :
  Str.all (fun c => negb (dangerous c)) (cleanFileName fileName) = true /\
  String.length (cleanFileName fileName) = String.length fileName.
Proof.
  induction fileName as [|c s [IH1 IH2]]; [split; reflexivity|].
  cbn [cleanFileName Str.all String.length]. rewrite IH1, IH2. split; [|reflexivity].
  destruct (dangerous c) eqn:E; [reflexivity | now rewrite E].
Qed.

(** X13. [generateUniqueFilePath] rejects when the directory cannot be
    made. Otherwise it returns the first path that does not exist among
    the cleaned name in the temporary directory and the names with the
    suffixes _1, _2, ... before the extension, tried in this order; a path
    it returns never exists; and the cleaned name holds none of the
    characters it replaces. *)
Theorem generateUniqueFilePath_first_free (fileName : string) :
  (forall e budget,
      fs_ensureDir (the_TEMP_DIR config path_resolve) = Throw e ->
      generateUniqueFilePath budget fileName = Some (Throw e)) /\
  (forall k budget,
      fs_ensureDir (the_TEMP_DIR config path_resolve) = Return tt ->
      (forall j, (j < k)%nat -> fs_pathExists (candidate fileName j) = true) ->
      fs_pathExists (candidate fileName k) = false ->
      (k <= budget)%nat ->
      generateUniqueFilePath budget fileName = Some (Return (candidate fileName k))) /\
  (forall budget filePath,
      generateUniqueFilePath budget fileName = Some (Return filePath) ->
      fs_pathExists filePath = false /\
      exists k, filePath = candidate fileName k) /\
  Str.all (fun c => negb (dangerous c)) (cleanFileName fileName) = true.
Proof.
  unfold UniquePath.generateUniqueFilePath. repeat apply conj.
  - now intros e budget ->.
  - intros k budget -> Hbusy Hfree Hbudget.
    change (path_join _ (cleanFileName fileName)) with (candidate fileName 0).
    rewrite (unique_loop_first_free fileName k budget 0); auto.
    intros j Hj. apply Hbusy. lia.
  - intros budget filePath H.
    destruct (fs_ensureDir _); [|discriminate].
    change (path_join _ (cleanFileName fileName)) with (candidate fileName 0) in H.
    destruct (unique_loop budget _ _ 1) as [p|] eqn:Hp; [|discriminate].
    injection H as <-. apply unique_loop_free in Hp as [j [-> Hfree]]. eauto.
  - apply cleanFileName_safe.
Qed.

End Facts.

Lemma generateUniqueFilePath_first_free_witness :
  generateUniqueFilePath Config.defaults (fun dir => dir) join_slash extname_4
    basename_4 (fun _ => Return tt) two_reports 2 "report.pdf"
  = Some (Return "./temp/report_2.pdf"%string).
Proof.
  apply (proj1 (proj2 (generateUniqueFilePath_first_free Config.defaults
                         (fun dir => dir) join_slash extname_4 basename_4
                         (fun _ => Return tt) two_reports "report.pdf"))
           2%nat 2%nat).
  - reflexivity.
  - intros [|[|j]] Hj; [reflexivity | reflexivity | lia].
  - reflexivity.
  - lia.
Defined.

End UniquePathProps.

(* ===================================================================== *)
(** * The periodic cleanup *)
(* ===================================================================== *)

Module CleanupProps.
Import Cleanup.

Section Facts.
Variable tempDir : string.
Variable path_join : string -> string -> string.
Variable readdir_rejects : bool.
Variable stat_rejects : string -> bool.
Variable remove_rejects : string -> bool.
Variable now : Z.

Local Abbreviation sweep := (sweep tempDir path_join stat_rejects remove_rejects now).
Local Abbreviation cleanupTempFiles :=
  (cleanupTempFiles tempDir path_join readdir_rejects stat_rejects remove_rejects now).

Lemma remove_other (file : string) (entries : list (string * Z)) (entry : string * Z) :
  fst entry <> file -> In entry entries -> In entry (remove file entries).
Proof.
  intros Hne Hin. apply List.filter_In. split; [exact Hin|].
  apply negb_true_iff, String.eqb_neq. exact Hne.
Qed.

Lemma remove_subset (file : string) (entries : list (string * Z)) (entry : string * Z) :
  In entry (remove file entries) -> In entry entries.
Proof. intros H. now apply List.filter_In in H. Qed.

(** A sweep removes nothing but files it was given and found old. *)
Lemma sweep_keeps (maxAge : Z) (files : list (string * Z)) :
  forall entries cleaned entry,
    In entry entries ->
    (forall mtime, In (fst entry, mtime) files -> now - mtime <= maxAge) ->
    In entry (remaining (sweep maxAge files entries cleaned)).
Proof.
  induction files as [|[file mtime] rest IH]; intros entries cleaned entry Hin Hyoung;
    cbn [Cleanup.sweep]; [exact Hin|].
  destruct (stat_rejects _); [exact Hin|].
  destruct (now - mtime >? maxAge) eqn:Hold.
  - destruct (remove_rejects _); [exact Hin|].
    apply IH; [|intros t Ht; apply Hyoung; now right].
    apply remove_other; [|exact Hin]. intros <-.
    apply Z.gtb_lt in Hold. specialize (Hyoung mtime (or_introl eq_refl)). lia.
  - apply IH; [exact Hin | intros t Ht; apply Hyoung; now right].
Qed.

Lemma sweep_subset (maxAge : Z) (files : list (string * Z)) :
  forall entries cleaned entry,
    In entry (remaining (sweep maxAge files entries cleaned)) -> In entry entries.
Proof.
  induction files as [|[file mtime] rest IH]; intros entries cleaned entry H;
    cbn [Cleanup.sweep] in H; [exact H|].
  destruct (stat_rejects _); [exact H|].
  destruct (now - mtime >? maxAge).
  - destruct (remove_rejects _); [exact H|].
    apply IH in H. now apply remove_subset in H.
  - now apply IH in H.
Qed.

Lemma remove_filter (file : string) (keep : string * Z -> bool)
    (entries : list (string * Z)) :
  remove file (List.filter keep entries) = List.filter keep (remove file entries).
Proof.
  unfold remove. induction entries as [|e es IH]; [reflexivity|].
  cbn [List.filter]. destruct (keep e) eqn:K, (negb (fst e =? file)%string) eqn:N;
    cbn [List.filter]; rewrite ?K, ?N, IH; reflexivity.
Qed.

Lemma remove_absent (file : string) (entries : list (string * Z)) :
  ~ In file (map fst entries) -> remove file entries = entries.
Proof.
  unfold remove. induction entries as [|e es IH]; intros H; [reflexivity|].
  cbn [List.filter]. cbn in H.
  replace (fst e =? file)%string with false
    by (symmetry; apply String.eqb_neq; tauto).
  cbn [negb]. f_equal. apply IH. tauto.
Qed.

(** Without a rejection, over names that are distinct: the old files are
    removed and counted, the others stay in their order. *)
Lemma sweep_clean (maxAge : Z) (files : list (string * Z)) :
  forall pending cleaned,
    (forall file, stat_rejects (path_join tempDir file) = false) ->
    (forall file, remove_rejects (path_join tempDir file) = false) ->
    NoDup (map fst (pending ++ files)) ->
    sweep maxAge files (pending ++ files) cleaned
    = {| remaining := pending ++ List.filter (fun e => negb (now - snd e >? maxAge)) files;
         cleanedCount :=
           cleaned + List.length (List.filter (fun e => now - snd e >? maxAge) files);
         failed := false |}.
Proof.
  induction files as [|[file mtime] rest IH]; intros pending cleaned Hstat Hrm Hnodup;
    cbn [Cleanup.sweep List.filter snd].
  - cbn. now rewrite Nat.add_0_r.
  - rewrite Hstat. destruct (now - mtime >? maxAge) eqn:Hold; cbn [negb].
    + rewrite Hrm.
      assert (Hrem : remove file (pending ++ (file, mtime) :: rest) = pending ++ rest).
      { rewrite map_app in Hnodup. cbn [map fst] in Hnodup.
        apply NoDup_app in Hnodup as (_ & Hdisj & Hnd).
        apply NoDup_cons in Hnd as [Hnot _].
        unfold remove. rewrite List.filter_app. cbn [List.filter fst].
        rewrite String.eqb_refl. cbn [negb].
        fold (remove file pending). fold (remove file rest).
        rewrite (remove_absent file rest) by (now rewrite <- list_elem_of_In).
        rewrite (remove_absent file pending); [reflexivity|].
        intros Hin. apply list_elem_of_In in Hin. apply (Hdisj file Hin). left. }
      rewrite Hrem, IH; auto.
      * cbn [List.length]. f_equal. lia.
      * rewrite map_app in *. cbn [map fst] in Hnodup.
        apply NoDup_app in Hnodup as (H1 & H2 & H3).
        apply NoDup_cons in H3 as [H3 H4].
        apply NoDup_app. repeat split; auto.
        intros x Hx Hx'. apply (H2 x Hx). now right.
    + replace (pending ++ (file, mtime) :: rest)
        with ((pending ++ [(file, mtime)]) ++ rest) by (now rewrite <- app_assoc).
      rewrite IH; auto.
      * now rewrite <- app_assoc.
      * now rewrite <- app_assoc.
Qed.

(** X14. [cleanupTempFiles] on a directory whose names are distinct. It
    adds no file; whatever call rejects, it removes no file whose age is
    within maxAgeHours; and when no call rejects it removes exactly the
    files older than that, counts them, and leaves the others in their
    order. *)
Theorem cleanupTempFiles_removes_old (maxAgeHours : Z) (entries : list (string * Z)) :
  NoDup (map fst entries) ->
  exists swept,
    cleanupTempFiles maxAgeHours (Some entries) = Some swept /\
    (forall entry, In entry (remaining swept) -> In entry entries) /\
    (forall entry,
        In entry entries ->
        now - snd entry <= maxAgeHours * 60 * 60 * 1000 ->
        In entry (remaining swept)) /\
    (readdir_rejects = false ->
     (forall file, stat_rejects (path_join tempDir file) = false) ->
     (forall file, remove_rejects (path_join tempDir file) = false) ->
     failed swept = false /\
     remaining swept
     = List.filter (fun e => negb (now - snd e >? maxAgeHours * 60 * 60 * 1000))
         entries /\
     cleanedCount swept
     = List.length (List.filter (fun e => now - snd e >? maxAgeHours * 60 * 60 * 1000)
                      entries)).
Proof.
  intros Hnodup. unfold Cleanup.cleanupTempFiles.
  destruct readdir_rejects.
  - eexists; split; [reflexivity|]. cbn [remaining]. repeat split; auto; discriminate.
  - eexists; split; [reflexivity|]. repeat split.
    + apply sweep_subset.
    + intros entry Hin Hyoung. apply sweep_keeps; [exact Hin|].
      intros mtime Hm. destruct entry as [file t]. cbn [fst snd] in *.
      assert (mtime = t) as ->; [|exact Hyoung].
      clear Hyoung. induction entries as [|[f u] es IH]; [destruct Hin|].
      cbn [map fst] in Hnodup. apply NoDup_cons in Hnodup as [Hnot Hnd].
      assert (Hname : forall x y, In (x, y) es -> x ∈ map fst es).
      { intros x y Hxy. apply list_elem_of_In, in_map_iff. now exists (x, y). }
      destruct Hin as [Hin|Hin], Hm as [Hm|Hm].
      * congruence.
      * injection Hin as -> ->. destruct Hnot. eauto.
      * injection Hm as -> ->. destruct Hnot. eauto.
      * auto.
    + rewrite (sweep_clean _ entries [] 0) by auto. reflexivity.
    + rewrite (sweep_clean _ entries [] 0) by auto. reflexivity.
    + rewrite (sweep_clean _ entries [] 0) by auto. reflexivity.
Qed.

End Facts.

Lemma cleanupTempFiles_removes_old_witness :
  exists swept,
    cleanupTempFiles "./temp" (fun dir name => dir +:+ "/" +:+ name) false
      (fun _ => false) (fun _ => false) 10000000 1 (Some two_files) = Some swept /\
    remaining swept = [("new.bin"%string, 9940000)].
Proof.
  destruct (cleanupTempFiles_removes_old "./temp" (fun dir name => dir +:+ "/" +:+ name)
              false (fun _ => false) (fun _ => false) 10000000 1 two_files)
    as [swept (Hrun & _ & _ & Hclean)].
  - apply (bool_decide_unpack _). vm_compute. reflexivity.
  - exists swept. split; [exact Hrun|].
    destruct Hclean as (_ & Hleft & _); auto.
Defined.

End CleanupProps.

(* ===================================================================== *)
(** * The bot and the classifier *)
(* ===================================================================== *)

Module BotProps.
Import FileHandler Bot.

Lemma includes_In (l : list string) (x : string) :
  includes l x = true -> In x l.
Proof.
  unfold includes. intros H. apply existsb_exists in H as [y [Hy He]].
  apply String.eqb_eq in He. now subst.
Qed.

Section Facts.
Variable Buffer : Type.
Variable fs_readFile : string -> result Buffer.
Variable telegram : Reply -> result unit.

(** X15. [sendFileByType] of the bot against [determineSendMethod], for
    a file that can be read: what is recommended as sendVideo is sent with
    replyWithVideo and what is recommended as sendPhoto with
    replyWithPhoto; what is recommended as sendAudio is sent as a
    document; what is recommended as sendDocument is sent as a document,
    unless its MIME type starts with video/ or image/. *)
Theorem sendFileByType_and_determineSendMethod
    (filePath fileName : string) (fileType : option FileType) (fileBuffer : Buffer) :
  fs_readFile filePath = Return fileBuffer ->
  let recommended := send_method (determineSendMethod fileType fileName) in
  let calls := fst (sendFileByType Buffer fs_readFile telegram filePath fileName
                      fileType) in
  (recommended = "sendVideo"%string -> calls = [ReplyWithVideo fileName true]) /\
  (recommended = "sendPhoto"%string -> calls = [ReplyWithPhoto fileName]) /\
  (recommended = "sendAudio"%string -> calls = [ReplyWithDocument fileName]) /\
  (recommended = "sendDocument"%string ->
   calls = [ReplyWithDocument fileName] \/
   exists ft, fileType = Some ft /\
              (Str.startsWith (mime ft) "video/" = true \/
               Str.startsWith (mime ft) "image/" = true)).
Proof.
  intros Hread. cbv zeta. unfold sendFileByType, determineSendMethod. rewrite Hread.
  cbn [fst].
  destruct fileType as [ft|];
    [|cbn; destruct (Str.endsWith (Str.toLowerCase fileName) ".gif"); cbn;
      repeat split; first [discriminate | auto]].
  destruct (Str.truthy (mime ft)) eqn:Hm;
    [|cbn; destruct (Str.endsWith (Str.toLowerCase fileName) ".gif"); cbn;
      repeat split; first [discriminate | auto]].
  destruct (includes Config.SUPPORTED_VIDEO_TYPES (mime ft)) eqn:Hvideo.
  { apply includes_In in Hvideo. cbn in Hvideo.
    repeat split; try discriminate. intros _.
    repeat (destruct Hvideo as [<-|Hvideo]; [reflexivity|]). destruct Hvideo. }
  destruct (includes Config.SUPPORTED_IMAGE_TYPES (mime ft)) eqn:Himage.
  { apply includes_In in Himage. cbn in Himage.
    repeat split; try discriminate. intros _.
    repeat (destruct Himage as [<-|Himage]; [reflexivity|]). destruct Himage. }
  destruct (Str.startsWith (mime ft) "audio/") eqn:Haudio.
  { repeat split; try discriminate. intros _.
    unfold Str.startsWith in Haudio |- *.
    destruct (Str.strip_prefix "audio/" (mime ft)) as [rest|] eqn:Hp; [|discriminate].
    apply RegexFacts.strip_prefix_inv in Hp. rewrite Hp. reflexivity. }

  destruct (String.eqb (mime ft) "image/gif" ||
            Str.endsWith (Str.toLowerCase fileName) ".gif");
    cbn [send_method]; repeat split; try discriminate.
  intros _. destruct (Str.startsWith (mime ft) "video/") eqn:Hv;
    [right; exists ft; auto|].
  destruct (Str.startsWith (mime ft) "image/") eqn:Hi;
    [right; exists ft; auto|]. now left.
Qed.

End Facts.

Lemma sendFileByType_and_determineSendMethod_witness :
  fst (sendFileByType unit (fun _ => Return tt) (fun _ => Return tt)
         "./temp/song.mp3" "song.mp3"
         (Some {| ext := "mp3"; mime := "audio/mpeg"; method := "magic-numbers";
                  confidence := "high"; error := None |}))
  = [ReplyWithDocument "song.mp3"].
Proof.
  apply (proj1 (proj2 (proj2
           (sendFileByType_and_determineSendMethod unit (fun _ => Return tt)
              (fun _ => Return tt) "./temp/song.mp3" "song.mp3"
              (Some {| ext := "mp3"; mime := "audio/mpeg"; method := "magic-numbers";
                       confidence := "high"; error := None |}) tt eq_refl)))).
  reflexivity.
Defined.

End BotProps.

(* ===================================================================== *)
(** * The file history *)
(* ===================================================================== *)

Module HistoryProps.
Import History.

Section Facts.
Variable FileData : Type.

Lemma getUserFiles_add (h : gmap Z (list FileData)) (userId other : Z)
    (fileData : FileData) :
  getUserFiles FileData (addToUserFileHistory FileData userId fileData h) other
  = if decide (other = userId)
    then List.firstn 50 (fileData :: getUserFiles FileData h userId)
    else getUserFiles FileData h other.
Proof.
  unfold addToUserFileHistory. cbv zeta. unfold getUserFiles at 1.
  destruct (decide (other = userId)) as [->|Hne].
  - rewrite lookup_insert_eq. cbn [default].
    destruct (50 <? _)%nat eqn:E; [reflexivity|].
    apply Nat.ltb_ge in E. symmetry. now apply List.firstn_all2.
  - now rewrite lookup_insert_ne by congruence.
Qed.

(** X16. After any sequence of recorded downloads the history of a user
    holds at most 50 entries: the 50 latest downloads of this user, the
    latest first. *)
Theorem fileHistory_bounded (downloads : list (Z * FileData)) (userId : Z) :
  let files := getUserFiles FileData (record FileData downloads) userId in
  (List.length files <= 50)%nat /\
  files = List.firstn 50
            (List.map snd (List.filter (fun d => Z.eqb (fst d) userId)
                             (List.rev downloads))).
Proof.
  cbv zeta.
  assert (H : getUserFiles FileData (record FileData downloads) userId
              = List.firstn 50 (List.map snd
                   (List.filter (fun d => Z.eqb (fst d) userId) (List.rev downloads)))).
  { unfold record. induction downloads as [|[u f] ds IH] using List.rev_ind;
      [reflexivity|].
    rewrite List.fold_left_app. cbn [fold_left fst snd].
    rewrite getUserFiles_add, List.rev_unit. cbn [List.filter fst].
    destruct (decide (userId = u)) as [->|Hne].
    - rewrite Z.eqb_refl, IH. cbn [List.map snd].
      change 50%nat with (S 49) at 1 3. cbn [List.firstn]. f_equal.
      rewrite List.firstn_firstn. reflexivity.
    - replace (u =? userId) with false by (symmetry; apply Z.eqb_neq; congruence).
      exact IH. }
  rewrite H. split; [apply List.firstn_le_length | reflexivity].
Qed.

End Facts.
End HistoryProps.

(* ===================================================================== *)
(** * The size errors and their user messages *)
(* ===================================================================== *)

Module UserMessagesProps.
Import Config UserMessages.









Lemma number_truthy n : number n <> EmptyString.
Proof.
  unfold number, NilZero.string_of_int, NilZero.string_of_uint.
  destruct (Z.to_int n) as [d|d]; destruct d; discriminate.
Qed.





End UserMessagesProps.

(* ===================================================================== *)
(** * The cooldown of actions *)
(* ===================================================================== *)

Module CooldownProps.
Import UserMessages Cooldown.

Lemma ceil_seconds_bounds x :
  1000 * (ceil_seconds x - 1) < x <= 1000 * ceil_seconds x.
Proof.
  unfold ceil_seconds.
  pose proof (Z.div_mod (- x) 1000 ltac:(lia)).
  pose proof (Z.mod_pos_bound (- x) 1000 ltac:(lia)). lia.
Qed.

(** X18. [checkCooldown] for one user and one action, the last action
    counting as made at time 0 when none is recorded. An action made when
    cooldownTime ms or more have passed is let through, with 0, and its
    time recorded; an earlier one is refused, the record is left as it is,
    and the result is the time that is left in seconds, rounded up, which
    is 1 or more. So the result is 0 exactly when the action is let
    through, and after an action let through at time now the next one is
    let through exactly from now + cooldownTime on. The record of no other
    key changes. *)
Theorem checkCooldown_spacing (userId : Z) (action : string) (cooldownTime now : Z)
    (cooldowns : gmap string Z) :
  let key := number userId +:+ "_" +:+ action in
  let lastAction := default 0 (cooldowns !! key) in
  let r := fst (checkCooldown userId action cooldownTime now cooldowns) in
  let cooldowns' := snd (checkCooldown userId action cooldownTime now cooldowns) in
  (cooldownTime <= now - lastAction -> r = 0 /\ cooldowns' = <[key := now]> cooldowns) /\
  (now - lastAction < cooldownTime ->
   cooldowns' = cooldowns /\ 1 <= r /\
   1000 * (r - 1) < cooldownTime - (now - lastAction) <= 1000 * r) /\
  (r = 0 <-> cooldownTime <= now - lastAction) /\
  (forall now',
      r = 0 ->
      fst (checkCooldown userId action cooldownTime now' cooldowns') = 0
      <-> cooldownTime <= now' - now) /\
  (forall key', key' <> key -> cooldowns' !! key' = cooldowns !! key').
Proof.
  cbv zeta.
  assert (Hstep : forall t c,
    let last := default 0 (c !! (number userId +:+ "_" +:+ action)) in
    checkCooldown userId action cooldownTime t c
    = if Z.ltb (t - last) cooldownTime
      then (ceil_seconds (cooldownTime - (t - last)), c)
      else (0, <[number userId +:+ "_" +:+ action := t]> c)).
  { intros t c. cbv zeta. unfold checkCooldown.
    destruct (c !! _) as [t0|]; cbn [default]; [|reflexivity].
    destruct (Z.eqb_spec t0 0) as [->|]; reflexivity. }
  cbv zeta in Hstep.
  assert (Hzero : forall t c,
    let last := default 0 (c !! (number userId +:+ "_" +:+ action)) in
    fst (checkCooldown userId action cooldownTime t c) = 0 <-> cooldownTime <= t - last).
  { intros t c. cbv zeta. rewrite Hstep.
    destruct (Z.ltb_spec (t - default 0 (c !! (number userId +:+ "_" +:+ action)))
                cooldownTime) as [Hlt|Hge]; cbn [fst].
    - pose proof (ceil_seconds_bounds
                    (cooldownTime - (t - default 0 (c !! (number userId +:+ "_" +:+ action))))).
      lia.
    - lia. }
  cbv zeta in Hzero.
  split; [|split; [|split; [|split]]].
  - intros Hge. rewrite Hstep.
    destruct (Z.ltb_spec (now - default 0 (cooldowns !! (number userId +:+ "_" +:+ action)))
                cooldownTime); [lia|]. now split.
  - intros Hlt. rewrite Hstep.
    destruct (Z.ltb_spec (now - default 0 (cooldowns !! (number userId +:+ "_" +:+ action)))
                cooldownTime); [|lia]. cbn [fst snd].
    pose proof (ceil_seconds_bounds
                  (cooldownTime - (now - default 0 (cooldowns !! (number userId +:+ "_" +:+ action))))).
    split; [reflexivity|]. lia.
  - apply Hzero.
  - intros now' Hr. apply Hzero in Hr.
    rewrite Hzero, Hstep.
    destruct (Z.ltb_spec (now - default 0 (cooldowns !! (number userId +:+ "_" +:+ action)))
                cooldownTime); [lia|]. cbn [snd].
    now rewrite lookup_insert_eq.
  - intros key' Hkey. rewrite Hstep.
    destruct (Z.ltb_spec (now - default 0 (cooldowns !! (number userId +:+ "_" +:+ action)))
                cooldownTime); cbn [snd]; [reflexivity|].
    now rewrite lookup_insert_ne.
Qed.

End CooldownProps.
